(** * Drift removal: linear fit and attenuated-drift forecasts

    A shallow embedding of
    [open_source/mortality/aggregation_ARIMA_squeeze/remove_drift.py]:
    the single-series fitter [get_lr_params], the grid fitter
    [get_all_lr_params], the per-combination prediction
    [make_single_predictions] and the forecaster
    [get_decayed_drift_preds].

    Numbers.  The Python code computes on NumPy [float64] values.  The
    embedding is written once over an interface [Arith] of the arithmetic
    the code uses, so that everything that only depends on the shape of
    the computation holds for every arithmetic, binary64 included.  The
    statements about the values of the predictions are proved in
    binary64, on the primitive floats, with the exponential of NumPy
    either a parameter or known at its special values only; two further
    statements are proved for every rounding of the real numbers that
    keeps the order.  The values of a fit of the library, which is
    modelled, are stated in exact arithmetic. *)

From Stdlib Require Import Reals Lra Lia.
From Stdlib Require Floats.
From stdpp Require Import base option list gmap.

(** ** Python exceptions and results *)

Inductive exn : Type :=
| IndexError   (* indexing an empty sequence *)
| ValueError   (* a NumPy reduction on a zero-size array, a shape mismatch *)
| KeyError.    (* a label that is not in an index *)

Inductive result (A : Type) : Type :=
| Ok (a : A)
| Raise (e : exn).
Arguments Ok {A} a.
Arguments Raise {A} e.

#[export] Instance result_ret : MRet result := fun _ x => Ok x.
#[export] Instance result_bind : MBind result := fun _ _ k m =>
  match m with
  | Ok x => k x
  | Raise e => Raise e
  end.

(** ** The arithmetic of the code *)

Class Arith (F : Type) : Type := {
  fadd : F -> F -> F;
  fsub : F -> F -> F;
  fmul : F -> F -> F;
  fdiv : F -> F -> F;
  fneg : F -> F;
  fexp : F -> F;            (* np.exp *)
  of_int : nat -> F;        (* an integer index used as a float *)
  feqb : F -> F -> bool     (* == *)
}.

(** [np.nan] *)
Class HasNaN (F : Type) : Type := fnan : F.

Declare Scope float_scope.
Delimit Scope float_scope with fl.
Infix "+" := fadd : float_scope.
Infix "-" := fsub : float_scope.
Infix "*" := fmul : float_scope.
Infix "/" := fdiv : float_scope.
Notation "- x" := (fneg x) : float_scope.

(** Exact real arithmetic: no rounding, no overflow, no non-finite value. *)
#[export] Instance R_arith : Arith R := {|
  fadd := Rplus;
  fsub := Rminus;
  fmul := Rmult;
  fdiv := Rdiv;
  fneg := Ropp;
  fexp := exp;
  of_int := INR;
  feqb := fun x y => if Req_dec_T x y then true else false
|}.

(** Exact real arithmetic with one non-finite value: [None] stands for NaN
    and the infinities; it is absorbing, and it is what a division by zero
    gives.  Like NaN it compares unequal to everything. *)
Definition xlift2 (f : R -> R -> R) (x y : option R) : option R :=
  match x, y with
  | Some a, Some b => Some (f a b)
  | _, _ => None
  end.

#[export] Instance xreal_arith : Arith (option R) := {|
  fadd := xlift2 Rplus;
  fsub := xlift2 Rminus;
  fmul := xlift2 Rmult;
  fdiv := fun x y =>
    match x, y with
    | Some a, Some b => if Req_dec_T b 0 then None else Some (a / b)%R
    | _, _ => None
    end;
  fneg := fun x => match x with Some a => Some (- a)%R | None => None end;
  fexp := fun x => match x with Some a => Some (exp a) | None => None end;
  of_int := fun n => Some (INR n);
  feqb := fun x y =>
    match x, y with
    | Some a, Some b => if Req_dec_T a b then true else false
    | _, _ => false
    end
|}.

#[export] Instance xreal_nan : HasNaN (option R) := None.

(** Real arithmetic with rounding: an operation is the exact one followed
    by [rnd], the map from a real number to the number that is stored in
    its place; negation is exact, as in IEEE 754, and an integer index is
    rounded as it becomes a float.  [np.exp] is the parameter [ex]. *)
Definition rounded_arith (rnd ex : R -> R) : Arith R := {|
  fadd := fun x y => rnd (x + y)%R;
  fsub := fun x y => rnd (x - y)%R;
  fmul := fun x y => rnd (x * y)%R;
  fdiv := fun x y => rnd (x / y)%R;
  fneg := Ropp;
  fexp := ex;
  of_int := fun n => rnd (INR n);
  feqb := fun x y => if Req_dec_T x y then true else false
|}.

(** A coarse rounding for examples: down to an integer. *)
Definition round_down (x : R) : R := IZR (Int_part x).

(** Binary64, the [float64] of NumPy, on the primitive floats: addition,
    subtraction, multiplication and division are those of IEEE 754 with
    rounding to nearest even, and an integer index becomes the nearest
    float.  [np.exp] is not an operation of IEEE 754 and its last bit
    depends on the platform; [exp64] has the values that do not:
    [exp nan = nan], [exp (+0) = exp (-0) = 1], zero from the underflow
    threshold down and infinity from the overflow threshold up.  Anywhere
    else it is [None], a number this model does not determine, and [None]
    is absorbing.  [binary64_with] takes the exponential as a parameter,
    for the statements that hold of every exponential with the
    properties they name.  The conversion of an index is right below
    [2 ^ 63]; no array is that long. *)
Definition float_of_nat (n : nat) : PrimFloat.float :=
  PrimFloat.of_uint63 (Uint63.of_Z (Z.of_nat n)).

Definition exp64 (x : PrimFloat.float) : option PrimFloat.float :=
  if PrimFloat.is_nan x then Some PrimFloat.nan
  else if PrimFloat.is_zero x then Some PrimFloat.one
  else if PrimFloat.leb x (PrimFloat.opp (float_of_nat 746)) then Some PrimFloat.zero
  else if PrimFloat.leb (float_of_nat 710) x then Some PrimFloat.infinity
  else None.

Definition lift64 (f : PrimFloat.float -> PrimFloat.float -> PrimFloat.float)
    (x y : option PrimFloat.float) : option PrimFloat.float :=
  match x, y with
  | Some a, Some b => Some (f a b)
  | _, _ => None
  end.

Definition binary64_with (np_exp : PrimFloat.float -> option PrimFloat.float)
  : Arith (option PrimFloat.float) := {|
  fadd := lift64 PrimFloat.add;
  fsub := lift64 PrimFloat.sub;
  fmul := lift64 PrimFloat.mul;
  fdiv := lift64 PrimFloat.div;
  fneg := fun x => match x with Some a => Some (PrimFloat.opp a) | None => None end;
  fexp := fun x => match x with Some a => np_exp a | None => None end;
  of_int := fun n => Some (float_of_nat n);
  feqb := fun x y =>
    match x, y with
    | Some a, Some b => PrimFloat.eqb a b
    | _, _ => false
    end
|}.

#[export] Instance binary64_arith : Arith (option PrimFloat.float) :=
  binary64_with exp64.

(** The classes of a float in the specification of the primitive floats:
    a zero; a zero or a number that is neither infinite nor NaN; NaN. *)
Definition SF_is_zero (x : SpecFloat.spec_float) : bool :=
  match x with
  | SpecFloat.S754_zero _ => true
  | _ => false
  end.

Definition SF_is_finite (x : SpecFloat.spec_float) : bool :=
  match x with
  | SpecFloat.S754_zero _ | SpecFloat.S754_finite _ _ _ => true
  | _ => false
  end.

Definition SF_is_nan (x : SpecFloat.spec_float) : bool :=
  match x with
  | SpecFloat.S754_nan => true
  | _ => false
  end.

(** Rounding, as the specification of the primitive floats does it and
    as arithmetic states it: the quotient [a / b] rounded to the nearest
    integer, ties to even; the record of a mantissa [m] after [k >= 1]
    shifts to the right; the float of a rounded mantissa [M] at the
    exponent [E], which carries into the next binade at [2 ^ 53] and
    overflows above the largest exponent. *)
Definition round_half_even (a b : Z) : Z :=
  let q := (a / b)%Z in
  let r := (a mod b)%Z in
  if ((b <? 2 * r)%Z || ((b =? 2 * r)%Z && Z.odd q))%bool then (q + 1)%Z else q.

Definition shr_after (m k : Z) : SpecFloat.shr_record :=
  SpecFloat.Build_shr_record
    (m / 2 ^ k)%Z (Z.odd (m / 2 ^ (k - 1))) (negb (m mod 2 ^ (k - 1) =? 0)%Z).

Definition round_result (s : bool) (M E : Z) : SpecFloat.spec_float :=
  if (M =? 0)%Z then SpecFloat.S754_zero s
  else if (M <? 2 ^ 53)%Z then
    if (E <=? 971)%Z then SpecFloat.S754_finite s (Z.to_pos M) E
    else SpecFloat.S754_infinity s
  else
    if (E + 1 <=? 971)%Z then SpecFloat.S754_finite s 4503599627370496 (E + 1)
    else SpecFloat.S754_infinity s.

(** [value_le m1 e1 m2 e2]: [m1 * 2 ^ e1 <= m2 * 2 ^ e2], at a common
    exponent. *)
Definition value_le (m1 : positive) (e1 : Z) (m2 : positive) (e2 : Z) : Prop :=
  exists c : Z,
    (c <= e1 /\ c <= e2 /\ Zpos m1 * 2 ^ (e1 - c) <= Zpos m2 * 2 ^ (e2 - c))%Z.

(** Zero or a positive finite float, and zero or a negative one. *)
Definition SF_nonneg (x : SpecFloat.spec_float) : bool :=
  match x with
  | SpecFloat.S754_zero _ | SpecFloat.S754_finite false _ _ => true
  | _ => false
  end.

Definition SF_nonpos (x : SpecFloat.spec_float) : bool :=
  match x with
  | SpecFloat.S754_zero _ | SpecFloat.S754_finite true _ _ => true
  | _ => false
  end.

(** An exponential for examples that underflows at once: 0 below zero
    and 1 from zero on. *)
Definition exp_step (x : PrimFloat.float) : PrimFloat.float :=
  if PrimFloat.is_nan x then PrimFloat.nan
  else if PrimFloat.ltb x PrimFloat.zero then PrimFloat.zero
  else PrimFloat.one.

(** ** Year ranges *)

(** Modelled from the spec: [fbd_core.argparse.YearRange] is not part of
    the repository.  It supplies the past years, the forecast years and
    their concatenation [years]. *)
Record YearRange : Type := {
  past_years : list Z;
  forecast_years : list Z
}.

Definition years (yr : YearRange) : list Z :=
  past_years yr ++ forecast_years yr.

(** [np.arange(n)] *)
Definition arange (n : nat) : list nat := seq 0 n.

(** ** make_single_predictions *)

Section Predictions.
Context {F : Type} `{Arith F}.
Local Open Scope float_scope.

(** The body of the loop over [range(len(years.forecast_years))]: the
    state is the pair of [preds] and [last]. *)
Definition forecast_step (beta decay : F) (st : list F * F) (year_index : nat)
  : list F * F :=
  let current := snd st + beta * fexp (- decay * of_int year_index) in
  (fst st ++ [current], current).

Definition make_single_predictions (alpha beta : F) (yr : YearRange) (decay : F)
  : result (list F) :=
  let linear_years := arange (length (past_years yr)) in
  (* linear preds first *)
  let preds := map (fun t => alpha + beta * of_int t) linear_years in
  (* then add the decay year-by-year *)
  match last preds with
  | None => Raise IndexError          (* preds[-1] on an empty array *)
  | Some last =>
      Ok (fst (fold_left (forecast_step beta decay)
                         (seq 0 (length (forecast_years yr)))
                         (preds, last)))
  end.

End Predictions.

(** The summand of the loop body, [beta * np.exp(-decay * year_index)]. *)
Definition attenuated_slope {F : Type} {A : Arith F} (beta decay : F) (year_index : nat) : F :=
  (beta * fexp (- decay * of_int year_index))%fl.

(** ** get_lr_params *)

Section Fitter.
Context {F : Type} `{Arith F}.
Local Open Scope float_scope.

Definition fsum (l : list F) : F := foldr fadd (of_int 0) l.

(** Modelled from the spec: [sm.add_constant] belongs to statsmodels,
    which is not part of the repository.  It puts a column of ones in
    front of the regressor, which gives the fit its explicit intercept
    term. *)
Definition add_constant (x : list nat) : list (F * F) :=
  map (fun t => (of_int 1, of_int t)) x.

(** Modelled from the spec: [sm.OLS(endog, exog).fit().params] belongs to
    statsmodels, which is not part of the repository.  The spec describes
    it as the ordinary least squares fit of [endog] on the two columns of
    [exog]; it is written here through the normal equations,

      [Scc * p0 + Scx * p1 = Scy]  and  [Scx * p0 + Sxx * p1 = Sxy],

    solved by Cramer's rule.  When the determinant vanishes the two
    columns are collinear and the library's pseudo-inverse gives the
    least squares solution of least norm, [(Scy, Sxy) / (Scc + Sxx)].
    The library performs no check of the values of [endog]
    ([missing='none']); it raises on a zero-size design and when the two
    arguments differ in length. *)
Definition OLS_fit_params (endog : list F) (exog : list (F * F))
  : result (list F) :=
  match exog with
  | [] => Raise ValueError
  | _ :: _ =>
      if negb (Nat.eqb (length endog) (length exog)) then Raise ValueError
      else
        let Scc := fsum (map (fun r => fst r * fst r) exog) in
        let Scx := fsum (map (fun r => fst r * snd r) exog) in
        let Sxx := fsum (map (fun r => snd r * snd r) exog) in
        let Scy := fsum (zip_with (fun r y => fst r * y) exog endog) in
        let Sxy := fsum (zip_with (fun r y => snd r * y) exog endog) in
        let det := Scc * Sxx - Scx * Scx in
        if feqb det (of_int 0)
        then Ok [Scy / (Scc + Sxx); Sxy / (Scc + Sxx)]
        else Ok [(Sxx * Scy - Scx * Sxy) / det; (Scc * Sxy - Scx * Scy) / det]
  end.

(** [ts] is the sequence [ts.values] of the one-dimensional array. *)
Definition get_lr_params (ts : list F) : result (F * F) :=
  let xdata := arange (length ts) in
  let xdata := add_constant xdata in
  match OLS_fit_params ts xdata with
  | Raise e => Raise e
  | Ok params =>
      match params with
      | [alpha; beta] => Ok (alpha, beta)
      | _ => Raise ValueError           (* unpacking into two names *)
      end
  end.

End Fitter.

(** ** Labeled arrays in a store

    An [xarray] array is an object: [da.loc[...]] and [da.sel(...)] give
    views of its data, [.copy()] and arithmetic build new arrays, and an
    assignment through [.loc] writes into the array it is applied to.  The
    store maps the address of an array to its cells.  A cell is addressed
    by one label per dimension: the demographic combination and, for an
    array that has the dimension, the [year_id] label. *)

Definition addr : Type := nat.
Definition combo : Type := Z * Z * Z.   (* sex_id, age_group_id, location_id *)
Definition cell : Type := combo * option Z.

(** An array with the dimensions [year_id], [sex_id], [age_group_id] and
    [location_id]: its coordinate labels and the address of its data. *)
Record DataArray : Type := {
  year_id : list Z;
  sex_id : list Z;
  age_group_id : list Z;
  location_id : list Z;
  data : addr
}.

(** An array from which [year_id] has been dropped. *)
Record ParamArray : Type := {
  p_sex_id : list Z;
  p_age_group_id : list Z;
  p_location_id : list Z;
  p_data : addr
}.

(** [xr.Dataset({"alpha": ..., "beta": ...})] *)
Record Dataset : Type := {
  ds_alpha : ParamArray;
  ds_beta : ParamArray
}.

(** [da.sel(year_id=y)]: a view of [da] at one year. *)
Record YearView : Type := {
  v_base : DataArray;
  v_year : Z
}.

(** The combinations of three label sequences, in the order of the nested
    loops over them. *)
Definition product (sexes ages locations : list Z) : list combo :=
  sex ← sexes; age ← ages; loc ← locations; [(sex, age, loc)].

Definition combos (da : DataArray) : list combo :=
  product (sex_id da) (age_group_id da) (location_id da).

Definition p_combos (pa : ParamArray) : list combo :=
  product (p_sex_id pa) (p_age_group_id pa) (p_location_id pa).

(** [labels.min()] *)
Definition np_min (labels : list Z) : result Z :=
  match labels with
  | [] => Raise ValueError       (* zero-size array to reduction operation *)
  | y :: ys => Ok (foldl Z.min y ys)
  end.

(** [da.sel(year_id=y)] *)
Definition sel_year (da : DataArray) (y : Z) : result YearView :=
  if bool_decide (y ∈ year_id da)
  then Ok {| v_base := da; v_year := y |}
  else Raise KeyError.

(** [.drop("year_id")] removes the scalar coordinate left by [sel]; the
    data of the view is the same. *)
Definition drop_year (v : YearView) : YearView := v.

Section Store.
Context {F : Type} `{Arith F} `{HasNaN F}.
Local Open Scope float_scope.

Definition M (A : Type) : Type :=
  gmap addr (gmap cell F) -> result A * gmap addr (gmap cell F).

#[export] Instance M_ret : MRet M := fun _ x h => (Ok x, h).
#[export] Instance M_bind : MBind M := fun _ _ k m h =>
  match m h with
  | (Ok x, h') => k x h'
  | (Raise e, h') => (Raise e, h')
  end.

Definition lift {A} (r : result A) : M A := fun h => (r, h).

(** A new array. *)
Definition alloc (b : gmap cell F) : M addr := fun h =>
  let a := fresh (dom h) in (Ok a, <[a := b]> h).

(** The cells of an array. *)
Definition load (a : addr) : M (gmap cell F) := fun h =>
  match h !! a with
  | Some b => (Ok b, h)
  | None => (Raise KeyError, h)
  end.

(** Overwriting the cells of an array in place. *)
Definition put (a : addr) (b : gmap cell F) : M unit := fun h =>
  match h !! a with
  | Some _ => (Ok tt, <[a := b]> h)
  | None => (Raise KeyError, h)
  end.

(** Reading cells by label. *)
Definition get_cells (b : gmap cell F) (ks : list cell) : result (list F) :=
  match mapM (fun k => b !! k) ks with
  | Some vs => Ok vs
  | None => Raise KeyError
  end.

(** Writing cells by label; every label has to be in the index. *)
Definition set_cells (b : gmap cell F) (kvs : list (cell * F))
  : result (gmap cell F) :=
  if forallb (fun kv => bool_decide (is_Some (b !! kv.1))) kvs
  then Ok (foldl (fun m kv => <[kv.1 := kv.2]> m) b kvs)
  else Raise KeyError.

(** A for loop whose body has effects. *)
Fixpoint for_each {A} (l : list A) (body : A -> M unit) : M unit :=
  match l with
  | [] => mret tt
  | x :: l' => body x;; for_each l' body
  end.

(** [view * x]: a new array without [year_id]. *)
Definition view_times (v : YearView) (x : F) : M ParamArray :=
  let da := v_base v in
  b ← load (data da);
  vs ← lift (get_cells b (map (fun c => (c, Some (v_year v))) (combos da)));
  a ← alloc (list_to_map (zip (map (fun c => (c, None)) (combos da))
                              (map (fun y => y * x) vs)));
  mret {| p_sex_id := sex_id da;
          p_age_group_id := age_group_id da;
          p_location_id := location_id da;
          p_data := a |}.

(** [pa.copy()] *)
Definition copy (pa : ParamArray) : M ParamArray :=
  b ← load (p_data pa);
  a ← alloc b;
  mret {| p_sex_id := p_sex_id pa;
          p_age_group_id := p_age_group_id pa;
          p_location_id := p_location_id pa;
          p_data := a |}.

(** [da.loc[sub_dict].values]: the series of one combination, by year. *)
Definition loc_values (da : DataArray) (sub_dict : combo) : M (list F) :=
  b ← load (data da);
  lift (get_cells b (map (fun y => (sub_dict, Some y)) (year_id da))).

(** [pa.loc[sub_dict].values]: the value of one combination. *)
Definition loc_value (pa : ParamArray) (sub_dict : combo) : M F :=
  b ← load (p_data pa);
  match b !! (sub_dict, None) with
  | Some v => mret v
  | None => lift (Raise KeyError)
  end.

(** [pa.loc[sub_dict] = v] *)
Definition set_loc (pa : ParamArray) (sub_dict : combo) (v : F) : M unit :=
  b ← load (p_data pa);
  b' ← lift (set_cells b [((sub_dict, None), v)]);
  put (p_data pa) b'.

(** [da.loc[sub_dict] = vs]: one value per year.  (NumPy would also
    accept a single value for several years; the sequences assigned
    here have the length of [years.years].) *)
Definition set_loc_series (da : DataArray) (sub_dict : combo) (vs : list F)
  : M unit :=
  b ← load (data da);
  b' ← lift (if negb (Nat.eqb (length vs) (length (year_id da)))
             then Raise ValueError
             else set_cells b (zip (map (fun y => (sub_dict, Some y)) (year_id da)) vs));
  put (data da) b'.

(** [pa * year_da]: a new array, [pa] broadcast along [year_id]. *)
Definition times_years (pa : ParamArray) (year_da : list (Z * F)) : M DataArray :=
  b ← load (p_data pa);
  vs ← lift (get_cells b (map (fun c => (c, None)) (p_combos pa)));
  a ← alloc (list_to_map
               (cv ← zip (p_combos pa) vs;
                yo ← year_da;
                [((cv.1, Some yo.1), cv.2 * yo.2)]));
  mret {| year_id := year_da.*1;
          sex_id := p_sex_id pa;
          age_group_id := p_age_group_id pa;
          location_id := p_location_id pa;
          data := a |}.

(** [da * x]: a new array. *)
Definition times_scalar (da : DataArray) (x : F) : M DataArray :=
  b ← load (data da);
  a ← alloc ((fun y => y * x) <$> b);
  mret {| year_id := year_id da;
          sex_id := sex_id da;
          age_group_id := age_group_id da;
          location_id := location_id da;
          data := a |}.

(** ** get_all_lr_params *)

Definition get_all_lr_params (da : DataArray) : M Dataset :=
  (* create a dataset to store parameters - fill with nans to start, and
     get rid of "year_id" dimension *)
  ymin ← lift (np_min (year_id da));
  v ← lift (sel_year da ymin);
  param_da ← view_times (drop_year v) fnan;
  alpha_da ← copy param_da;
  beta_da ← copy param_da;
  let param_ds := {| ds_alpha := alpha_da; ds_beta := beta_da |} in
  (* fit linear regression by location-age-sex *)
  for_each (sex_id da) (fun sex =>
    for_each (age_group_id da) (fun age =>
      for_each (location_id da) (fun loc =>
        let sub_dict := (sex, age, loc) in
        ts ← loc_values da sub_dict;
        ab ← lift (get_lr_params ts);
        set_loc (ds_alpha param_ds) sub_dict ab.1;;
        set_loc (ds_beta param_ds) sub_dict ab.2)));;
  mret param_ds.

(** ** get_decayed_drift_preds *)

Definition get_decayed_drift_preds (eps_da : DataArray) (yr : YearRange) (decay : F)
  : M DataArray :=
  (* find the right linear regression parameters to fit the in-sample data *)
  params ← get_all_lr_params eps_da;
  (* get the right shape for the prediction dataframe - fill with nans *)
  let year_da := map (fun y => (y, of_int 1)) (years yr) in
  tmp ← times_years (ds_alpha params) year_da;
  pred_da ← times_scalar tmp fnan;
  (* fill up the prediction dataframe by iterating through demographic combos *)
  for_each (sex_id pred_da) (fun sex =>
    for_each (age_group_id pred_da) (fun age =>
      for_each (location_id pred_da) (fun loc =>
        let sub_dict := (sex, age, loc) in
        alpha ← loc_value (ds_alpha params) sub_dict;
        beta ← loc_value (ds_beta params) sub_dict;
        preds ← lift (make_single_predictions alpha beta yr decay);
        set_loc_series pred_da sub_dict preds)));;
  mret pred_da.

(** The fit of one combination, from the cells [b] of the input. *)
Definition fit_of (b : gmap cell F) (da : DataArray) (c : combo) : result (F * F) :=
  ts ← get_cells b (map (fun y => (c, Some y)) (year_id da));
  get_lr_params ts.

(** The body of the loops of [get_all_lr_params], at one combination. *)
Definition fit_body (da : DataArray) (param_ds : Dataset) (sub_dict : combo)
  : M unit :=
  ts ← loc_values da sub_dict;
  ab ← lift (get_lr_params ts);
  set_loc (ds_alpha param_ds) sub_dict ab.1;;
  set_loc (ds_beta param_ds) sub_dict ab.2.

(** The body of the loops of [get_decayed_drift_preds], at one
    combination. *)
Definition pred_body (params : Dataset) (pred_da : DataArray) (yr : YearRange)
    (decay : F) (sub_dict : combo) : M unit :=
  alpha ← loc_value (ds_alpha params) sub_dict;
  beta ← loc_value (ds_beta params) sub_dict;
  preds ← lift (make_single_predictions alpha beta yr decay);
  set_loc_series pred_da sub_dict preds.

(** An array of the store: its data is there, with a cell for every
    assignment of one label per dimension. *)
Definition wf_array (h : gmap addr (gmap cell F)) (da : DataArray) : Prop :=
  exists b, h !! data da = Some b /\
    Forall (fun c => Forall (fun y => is_Some (b !! (c, Some y))) (year_id da))
           (combos da).

End Store.

Arguments M F A : clear implicits.

(** [keeps h0 m Q]: run from a store that has the arrays of [h0] as they
    are in [h0], the computation [m] ends, with a result or an exception,
    in a store that still has them so; a result satisfies [Q]. *)
Definition keeps {F : Type} {A : Type} (h0 : gmap addr (gmap cell F)) (m : M F A) (Q : A -> Prop)
  : Prop :=
  forall h, h0 ⊆ h -> h0 ⊆ (m h).2 /\ forall x, (m h).1 = Ok x -> Q x.

(** ** Sample inputs *)

(** Three past years and two forecast years. *)
Definition sample_years : YearRange :=
  {| past_years := [2000; 2001; 2002]%Z; forecast_years := [2003; 2004]%Z |}.

(** Forecast years only. *)
Definition forecast_only : YearRange :=
  {| past_years := []; forecast_years := [2003; 2004]%Z |}.

(** One combination observed in two years, and the store that holds it. *)
Definition sample_da : DataArray :=
  {| year_id := [2000; 2001]%Z; sex_id := [1%Z]; age_group_id := [2%Z];
     location_id := [3%Z]; data := 0%nat |}.

Definition sample_store : gmap addr (gmap cell (option R)) :=
  {[ 0%nat := {[ ((1, 2, 3, Some 2000)%Z : cell) := Some 1%R;
                 ((1, 2, 3, Some 2001)%Z : cell) := Some 3%R ]} ]}.

(** Two years and no [sex_id] label; no year and no [sex_id] label; a
    store with an array without cells. *)
Definition no_sex_da : DataArray :=
  {| year_id := [2000; 2001]%Z; sex_id := []; age_group_id := [2%Z];
     location_id := [3%Z]; data := 0%nat |}.

Definition no_year_da : DataArray :=
  {| year_id := []; sex_id := []; age_group_id := [2%Z];
     location_id := [3%Z]; data := 0%nat |}.

Definition empty_store : gmap addr (gmap cell (option R)) :=
  {[ 0%nat := ∅ ]}.

(** The residual sum of squares of the line [p + q * x] on a design with
    rows [(c, x)]. *)
Definition rss (endog : list R) (exog : list (R * R)) (p q : R) : R :=
  fsum (zip_with (fun r y => (y - p * fst r - q * snd r) * (y - p * fst r - q * snd r))%R
          exog endog).

(** The year-over-year increment of a sequence at index [i]. *)
Definition increment (preds : list R) (i : nat) : R :=
  (nth i preds 0 - nth (i - 1) preds 0)%R.

(** An array without [year_id] that has the demographic coordinates of
    [da]. *)
Definition same_coords (pa : ParamArray) (da : DataArray) : Prop :=
  p_sex_id pa = sex_id da /\ p_age_group_id pa = age_group_id da /\
  p_location_id pa = location_id da.

(** Three past years and three forecast years. *)
Definition longer_years : YearRange :=
  {| past_years := [2000; 2001; 2002]%Z; forecast_years := [2003; 2004; 2005]%Z |}.

(** One past year and six forecast years. *)
Definition one_past_six_forecast : YearRange :=
  {| past_years := [2000]%Z;
     forecast_years := [2001; 2002; 2003; 2004; 2005; 2006]%Z |}.

(** The binary64 number nearest to 1/10, the slope of an example. *)
Definition tenth : PrimFloat.float :=
  PrimFloat.div PrimFloat.one (float_of_nat 10).

(** * Properties *)

Section PredictionFacts.
Context {F : Type} `{Arith F}.
Local Open Scope float_scope.

(** *** The loop *)

Lemma forecast_loop_length beta decay n preds last0 :
  length (fst (fold_left (forecast_step beta decay) (seq 0 n) (preds, last0)))
  = (length preds + n)%nat.
Proof.
  induction n as [|n IH].
  - simpl. lia.
  - rewrite seq_S, fold_left_app. simpl.
    rewrite length_app, IH. simpl. lia.
Qed.

Lemma forecast_loop_last beta decay n preds last0 :
  last preds = Some last0 ->
  let st := fold_left (forecast_step beta decay) (seq 0 n) (preds, last0) in
  last (fst st) = Some (snd st).
Proof.
  intros Hl. induction n as [|n IH].
  - exact Hl.
  - cbv zeta. rewrite seq_S, fold_left_app. simpl. apply last_snoc.
Qed.

Lemma forecast_loop_prefix beta decay n preds last0 i :
  (i < length preds)%nat ->
  fst (fold_left (forecast_step beta decay) (seq 0 n) (preds, last0)) !! i
  = preds !! i.
Proof.
  intros Hi. induction n as [|n IH].
  - reflexivity.
  - rewrite seq_S, fold_left_app. simpl.
    rewrite lookup_app_l; [exact IH|].
    rewrite forecast_loop_length. lia.
Qed.

Lemma forecast_loop_stable beta decay n m preds last0 i :
  (n <= m)%nat -> (i < length preds + n)%nat ->
  fst (fold_left (forecast_step beta decay) (seq 0 m) (preds, last0)) !! i
  = fst (fold_left (forecast_step beta decay) (seq 0 n) (preds, last0)) !! i.
Proof.
  intros Hnm Hi. induction Hnm as [|m Hnm IH].
  - reflexivity.
  - rewrite seq_S, fold_left_app. simpl.
    rewrite lookup_app_l; [exact IH|].
    rewrite forecast_loop_length. lia.
Qed.

(** Step [j] appends the previous entry plus the attenuated slope. *)
Lemma forecast_loop_step beta decay n preds last0 j :
  last preds = Some last0 -> (j < n)%nat ->
  let out := fst (fold_left (forecast_step beta decay) (seq 0 n) (preds, last0)) in
  exists prev,
    out !! (length preds + j - 1)%nat = Some prev /\
    out !! (length preds + j)%nat
    = Some (prev + beta * fexp (- decay * of_int j)).
Proof.
  intros Hl Hj out.
  assert (Hpos : (0 < length preds)%nat).
  { destruct preds; [discriminate Hl | simpl; lia]. }
  pose (stj := fold_left (forecast_step beta decay) (seq 0 j) (preds, last0)).
  exists (snd stj). subst out. split.
  - rewrite (forecast_loop_stable beta decay j n) by lia.
    pose proof (forecast_loop_last beta decay j preds last0 Hl) as Hlast.
    simpl in Hlast. fold stj in Hlast. fold stj.
    rewrite last_lookup in Hlast.
    unfold stj in Hlast at 1. rewrite forecast_loop_length in Hlast.
    replace (length preds + j - 1)%nat with (pred (length preds + j)) by lia.
    exact Hlast.
  - rewrite (forecast_loop_stable beta decay (S j) n) by lia.
    rewrite seq_S, fold_left_app. simpl. fold stj.
    rewrite lookup_app_r; unfold stj; rewrite forecast_loop_length; [|lia].
    rewrite Nat.sub_diag. reflexivity.
Qed.

(** *** The linear part *)

Lemma linear_preds_length (alpha beta : F) n :
  length (map (fun t => alpha + beta * of_int t) (arange n)) = n.
Proof. unfold arange. rewrite length_map. apply length_seq. Qed.

Lemma linear_preds_lookup (alpha beta : F) n i :
  (i < n)%nat ->
  map (fun t => alpha + beta * of_int t) (arange n) !! i
  = Some (alpha + beta * of_int i).
Proof.
  intros Hi. unfold arange.
  rewrite list_lookup_fmap, lookup_seq_lt by exact Hi. reflexivity.
Qed.

Lemma linear_preds_last (alpha beta : F) n :
  (1 <= n)%nat ->
  last (map (fun t => alpha + beta * of_int t) (arange n))
  = Some (alpha + beta * of_int (n - 1)).
Proof.
  intros Hn. rewrite last_lookup, linear_preds_length.
  replace (pred n) with (n - 1)%nat by lia.
  apply linear_preds_lookup. lia.
Qed.

(** What a call with at least one past year returns. *)
Lemma make_single_predictions_ok alpha beta yr decay :
  (1 <= length (past_years yr))%nat ->
  make_single_predictions alpha beta yr decay
  = Ok (fst (fold_left (forecast_step beta decay)
               (seq 0 (length (forecast_years yr)))
               (map (fun t => alpha + beta * of_int t)
                    (arange (length (past_years yr))),
                alpha + beta * of_int (length (past_years yr) - 1)))).
Proof.
  intros HP. unfold make_single_predictions.
  rewrite linear_preds_last by exact HP. reflexivity.
Qed.

(** The entries of the result, shared by the statements below. *)
Lemma predictions_shape alpha beta yr decay :
  (1 <= length (past_years yr))%nat ->
  exists preds,
    make_single_predictions alpha beta yr decay = Ok preds /\
    (forall i, (i < length (past_years yr))%nat ->
       preds !! i = Some (alpha + beta * of_int i)) /\
    (forall j, (j < length (forecast_years yr))%nat ->
       exists last,
         preds !! (length (past_years yr) + j - 1)%nat = Some last /\
         preds !! (length (past_years yr) + j)%nat
         = Some (last + beta * fexp (- decay * of_int j))).
Proof.
  intros HP. eexists. split; [apply make_single_predictions_ok, HP|].
  set (lin := map _ (arange _)).
  assert (Hlen : length lin = length (past_years yr))
    by apply linear_preds_length.
  split.
  - intros i Hi. rewrite forecast_loop_prefix by (rewrite Hlen; exact Hi).
    apply linear_preds_lookup, Hi.
  - intros j Hj.
    assert (Hlast : last lin = Some (alpha + beta * of_int (length (past_years yr) - 1)))
      by (apply linear_preds_last, HP).
    pose proof (forecast_loop_step beta decay _ lin _ j Hlast Hj) as Hstep.
    rewrite Hlen in Hstep. exact Hstep.
Qed.

(** C1.  With [P >= 1] past years and [F] forecast years the call returns
    a sequence of length [P + F] in year order; entry [i < P] is
    [alpha + beta * i]; entry [P + j], for [j < F], is the entry before
    it plus [beta * exp (- decay * j)], the first of them starting from
    entry [P - 1]. *)
Theorem make_single_predictions_spec alpha beta yr decay :
  (1 <= length (past_years yr))%nat ->
  exists preds,
    make_single_predictions alpha beta yr decay = Ok preds /\
    length preds = (length (past_years yr) + length (forecast_years yr))%nat /\
    (forall i, (i < length (past_years yr))%nat ->
       preds !! i = Some (alpha + beta * of_int i)) /\
    (forall j, (j < length (forecast_years yr))%nat ->
       exists last,
         preds !! (length (past_years yr) + j - 1)%nat = Some last /\
         preds !! (length (past_years yr) + j)%nat
         = Some (last + beta * fexp (- decay * of_int j))).
Proof.
  intros HP. eexists. split; [apply make_single_predictions_ok, HP|].
  set (lin := map _ (arange _)).
  assert (Hlen : length lin = length (past_years yr))
    by apply linear_preds_length.
  assert (Hlast : last lin = Some (alpha + beta * of_int (length (past_years yr) - 1)))
    by (apply linear_preds_last, HP).
  split; [|split].
  - rewrite forecast_loop_length, Hlen. reflexivity.
  - intros i Hi. rewrite forecast_loop_prefix by (rewrite Hlen; exact Hi).
    apply linear_preds_lookup, Hi.
  - intros j Hj.
    pose proof (forecast_loop_step beta decay _ lin _ j Hlast Hj) as Hstep.
    rewrite Hlen in Hstep. exact Hstep.
Qed.

(** C9.  Without a past year the read [preds[-1]] raises, so nothing is
    returned; a call that returns had at least one past year. *)
Theorem make_single_predictions_needs_past alpha beta yr decay :
  (past_years yr = [] ->
     make_single_predictions alpha beta yr decay = Raise IndexError) /\
  (forall preds,
     make_single_predictions alpha beta yr decay = Ok preds ->
     (1 <= length (past_years yr))%nat).
Proof.
  unfold make_single_predictions. split.
  - intros ->. reflexivity.
  - intros preds. destruct (past_years yr) as [|y ys]; simpl.
    + discriminate.
    + intros _. lia.
Qed.

(** In any arithmetic in which the first decay factor is neutral for the
    slope (in binary64: [exp (-decay * 0) = exp (±0) = 1] and
    [beta * 1 = beta], for a finite decay rate), the first forecast value
    is the last linear value plus the slope. *)
Lemma first_forecast_step_any_arith alpha beta yr decay :
  (1 <= length (past_years yr))%nat ->
  (1 <= length (forecast_years yr))%nat ->
  beta * fexp (- decay * of_int 0) = beta ->
  exists preds last,
    make_single_predictions alpha beta yr decay = Ok preds /\
    preds !! (length (past_years yr) - 1)%nat = Some last /\
    preds !! length (past_years yr) = Some (last + beta).
Proof.
  intros HP HF Hone.
  destruct (predictions_shape alpha beta yr decay HP)
    as (preds & Hok & _ & Hstep).
  destruct (Hstep 0%nat HF) as (prev & Hprev & Hcur).
  rewrite Nat.add_0_r in Hprev, Hcur. rewrite Hone in Hcur.
  exists preds, prev. auto.
Qed.

(** In any arithmetic in which no decay factor changes the slope (in
    binary64 with [decay = 0]), forecast year [j] is the last linear value
    with the slope added [j + 1] times, one addition after the other. *)
Lemma zero_decay_any_arith alpha beta yr decay :
  (1 <= length (past_years yr))%nat ->
  (forall j, beta * fexp (- decay * of_int j) = beta) ->
  exists preds last,
    make_single_predictions alpha beta yr decay = Ok preds /\
    preds !! (length (past_years yr) - 1)%nat = Some last /\
    forall j, (j < length (forecast_years yr))%nat ->
      preds !! (length (past_years yr) + j)%nat
      = Some (Nat.iter (S j) (fun x => x + beta) last).
Proof.
  intros HP Hone.
  destruct (predictions_shape alpha beta yr decay HP)
    as (preds & Hok & Hlin & Hstep).
  exists preds, (alpha + beta * of_int (length (past_years yr) - 1)).
  split; [exact Hok|]. split; [apply Hlin; lia|].
  induction j as [|j IH]; intros Hj;
    destruct (Hstep _ Hj) as (prev & Hprev & Hcur); rewrite Hcur, Hone.
  - rewrite Nat.add_0_r in Hprev. rewrite Hlin in Hprev by lia.
    injection Hprev as <-. reflexivity.
  - replace (length (past_years yr) + S j - 1)%nat
      with (length (past_years yr) + j)%nat in Hprev by lia.
    rewrite IH in Hprev by lia. injection Hprev as <-. reflexivity.
Qed.

End PredictionFacts.

(** ** Facts on binary64

    The primitive floats are specified by [SpecFloat]: a product is the
    exact product of the mantissas at the sum of the exponents, brought
    to 53 bits by [binary_round_aux].  What follows states what that
    function computes in terms of integer division, and derives that
    the product with one is exact, that the float of an integer below
    [2 ^ 63] is finite, and that multiplication and the conversion of
    an integer keep the order. *)

Section FloatFacts.
Import SpecFloat FloatOps FloatAxioms.
Local Open Scope Z_scope.

(** *** Multiplication by one *)

Lemma Prim2SF_one : Prim2SF PrimFloat.one = S754_finite false 4503599627370496 (-52).
Proof. reflexivity. Qed.

Lemma digits2_pos_shift52 (m : positive) :
  Zpos (digits2_pos (Pos.mul 4503599627370496 m)) = Zpos (digits2_pos m) + 52.
Proof. cbv [Pos.mul]. cbn [digits2_pos]. rewrite !Pos2Z.inj_succ. lia. Qed.

Lemma shr_shift52 (m : positive) :
  iter_pos shr_1 52 (Build_shr_record (Zpos (Pos.mul 4503599627370496 m)) false false)
  = Build_shr_record (Zpos m) false false.
Proof. reflexivity. Qed.

(** The product of a float and one is exact: the mantissa is shifted by
    52 bits and shifted back without a remainder. *)
Lemma SF64mul_one (x : spec_float) :
  valid_binary x = true -> SF64mul x (S754_finite false 4503599627370496 (-52)) = x.
Proof.
  destruct x as [s|s| |s m e]; intros Hv; try (destruct s; reflexivity); try reflexivity.
  unfold SF64mul, SFmul. rewrite Pos.mul_comm.
  unfold binary_round_aux, shr_fexp.
  simpl in Hv. unfold bounded, canonical_mantissa in Hv.
  apply andb_prop in Hv. destruct Hv as [Hc Hb]. apply Z.eqb_eq in Hc.
  cbn [Zdigits2]. rewrite digits2_pos_shift52.
  replace (Z.pos (digits2_pos m) + 52 + (e + -52)) with (Z.pos (digits2_pos m) + e) by lia.
  rewrite Hc. replace (e - (e + -52)) with 52 by lia.
  cbn [shr shr_record_of_loc]. rewrite shr_shift52.
  cbn [shr_m loc_of_shr_record round_nearest_even Zdigits2].
  replace (e + -52 + 52) with e by lia.
  rewrite Hc, Z.sub_diag. cbn [shr shr_m shr_record_of_loc].
  rewrite Hb. destruct s; reflexivity.
Qed.

Lemma mul_one (x : PrimFloat.float) : PrimFloat.mul x PrimFloat.one = x.
Proof.
  apply Prim2SF_inj. rewrite mul_spec, Prim2SF_one.
  apply SF64mul_one, Prim2SF_valid.
Qed.

(** *** The classes of a float *)

Lemma Prim2SF_zero : Prim2SF PrimFloat.zero = S754_zero false.
Proof. reflexivity. Qed.

Lemma Prim2SF_infinity : Prim2SF PrimFloat.infinity = S754_infinity false.
Proof. reflexivity. Qed.

Lemma is_zero_spec (x : PrimFloat.float) :
  PrimFloat.is_zero x = SF_is_zero (Prim2SF x).
Proof.
  unfold PrimFloat.is_zero. rewrite eqb_spec, Prim2SF_zero.
  destruct (Prim2SF x) as [s|s| |s m e]; try reflexivity; destruct s; reflexivity.
Qed.

Lemma is_finite_spec (x : PrimFloat.float) :
  PrimFloat.is_finite x = SF_is_finite (Prim2SF x).
Proof.
  unfold PrimFloat.is_finite, PrimFloat.is_nan, PrimFloat.is_infinity.
  rewrite !eqb_spec, abs_spec, Prim2SF_infinity.
  destruct (Prim2SF x) as [s|s| |s m e]; try reflexivity.
  - destruct s; reflexivity.
  - unfold SFeqb, SFabs, SFcompare.
    rewrite Z.compare_refl, Pos.compare_cont_refl. destruct s; reflexivity.
Qed.

Lemma is_nan_zero (x : PrimFloat.float) :
  SF_is_zero (Prim2SF x) = true -> PrimFloat.is_nan x = false.
Proof.
  unfold PrimFloat.is_nan. rewrite eqb_spec.
  destruct (Prim2SF x); try discriminate. reflexivity.
Qed.

Lemma opp_is_zero (x : PrimFloat.float) :
  SF_is_zero (Prim2SF (PrimFloat.opp x)) = SF_is_zero (Prim2SF x).
Proof. rewrite opp_spec. destruct (Prim2SF x); reflexivity. Qed.

Lemma opp_is_finite (x : PrimFloat.float) :
  SF_is_finite (Prim2SF (PrimFloat.opp x)) = SF_is_finite (Prim2SF x).
Proof. rewrite opp_spec. destruct (Prim2SF x); reflexivity. Qed.

(** A zero times a finite float is a zero, on either side. *)
Lemma mul_zero_l (x y : PrimFloat.float) :
  SF_is_zero (Prim2SF x) = true -> SF_is_finite (Prim2SF y) = true ->
  SF_is_zero (Prim2SF (PrimFloat.mul x y)) = true.
Proof.
  rewrite mul_spec.
  destruct (Prim2SF x); try discriminate.
  destruct (Prim2SF y); try discriminate; reflexivity.
Qed.

Lemma mul_zero_r (x y : PrimFloat.float) :
  SF_is_finite (Prim2SF x) = true -> SF_is_zero (Prim2SF y) = true ->
  SF_is_zero (Prim2SF (PrimFloat.mul x y)) = true.
Proof.
  rewrite mul_spec.
  destruct (Prim2SF y); try discriminate.
  destruct (Prim2SF x); try discriminate; reflexivity.
Qed.


(** *** Shifting and rounding a mantissa *)

Lemma shr_1_spec (m : Z) (r s : bool) :
  0 <= m ->
  shr_1 (Build_shr_record m r s) = Build_shr_record (m / 2) (Z.odd m) (r || s).
Proof.
  intros Hm. rewrite <- Z.div2_div.
  destruct m as [|[p|p|]|p]; try reflexivity. lia.
Qed.

Lemma mod_pow2_succ (m k : Z) :
  0 <= k ->
  m mod 2 ^ (k + 1) = m mod 2 ^ k + 2 ^ k * (if Z.odd (m / 2 ^ k) then 1 else 0).
Proof.
  intros Hk. rewrite Z.pow_add_r, Z.pow_1_r by lia.
  rewrite Z.rem_mul_r by lia. rewrite Zmod_odd. reflexivity.
Qed.

Lemma shr_1_after (m k : Z) :
  0 <= m -> 1 <= k -> shr_1 (shr_after m k) = shr_after m (k + 1).
Proof.
  intros Hm Hk. unfold shr_after.
  rewrite shr_1_spec by (apply Z.div_pos; lia).
  replace (k + 1 - 1) with k by lia.
  f_equal.
  - rewrite Z.pow_add_r, Z.pow_1_r by lia.
    rewrite Z.div_div by lia. reflexivity.
  - pose proof (mod_pow2_succ m (k - 1) ltac:(lia)) as E.
    replace (k - 1 + 1) with k in E by lia.
    pose proof (Z.mod_pos_bound m (2 ^ (k - 1)) ltac:(lia)) as Hb.
    assert (0 < 2 ^ (k - 1)) by lia.
    destruct (Z.odd (m / 2 ^ (k - 1))); simpl.
    + symmetry. apply negb_true_iff, Z.eqb_neq. lia.
    + f_equal. rewrite E. f_equal. lia.
Qed.

Lemma shr_1_first (m : Z) :
  0 <= m -> shr_1 (Build_shr_record m false false) = shr_after m 1.
Proof.
  intros Hm. rewrite shr_1_spec by exact Hm. unfold shr_after.
  simpl (1 - 1). rewrite Z.pow_0_r, Z.pow_1_r, Z.div_1_r, Z.mod_1_r. reflexivity.
Qed.

Lemma iter_pos_nat {A : Type} (f : A -> A) (p : positive) (x : A) :
  iter_pos f p x = Nat.iter (Pos.to_nat p) f x.
Proof.
  revert x. induction p as [p IH|p IH|]; intros x; cbn [iter_pos].
  - rewrite !IH, <- Nat.iter_add, <- Nat.iter_succ_r.
    f_equal. lia.
  - rewrite !IH, <- Nat.iter_add.
    f_equal. lia.
  - reflexivity.
Qed.

Lemma iter_shr_1 (m : Z) (n : nat) :
  0 <= m ->
  Nat.iter (S n) shr_1 (Build_shr_record m false false) = shr_after m (Z.of_nat (S n)).
Proof.
  intros Hm. induction n as [|n IH].
  - simpl Nat.iter. apply shr_1_first, Hm.
  - change (Nat.iter (S (S n)) shr_1 ?x) with (shr_1 (Nat.iter (S n) shr_1 x)).
    rewrite IH, shr_1_after by lia. f_equal. lia.
Qed.

Lemma shr_iter_after (m : Z) (p : positive) :
  0 <= m ->
  iter_pos shr_1 p (Build_shr_record m false false) = shr_after m (Zpos p).
Proof.
  intros Hm. rewrite iter_pos_nat.
  destruct (Pos2Nat.is_succ p) as (n & Hn). rewrite Hn.
  rewrite iter_shr_1 by exact Hm. f_equal. lia.
Qed.

(** The rounding of the shifted mantissa is the rounding of the quotient. *)
Lemma round_after (m k : Z) :
  0 <= m -> 1 <= k ->
  round_nearest_even (shr_m (shr_after m k)) (loc_of_shr_record (shr_after m k))
  = round_half_even m (2 ^ k).
Proof.
  intros Hm Hk. unfold shr_after, round_half_even. cbn [shr_m loc_of_shr_record].
  pose proof (mod_pow2_succ m (k - 1) ltac:(lia)) as E.
  replace (k - 1 + 1) with k in E by lia.
  pose proof (Z.mod_pos_bound m (2 ^ (k - 1)) ltac:(lia)) as Hb.
  assert (Hp : 2 ^ k = 2 * 2 ^ (k - 1)).
  { replace k with (k - 1 + 1) at 1 by lia.
    rewrite Z.pow_add_r, Z.pow_1_r by lia. lia. }
  set (h := 2 ^ (k - 1)) in *. set (q := m / 2 ^ k).
  rewrite E, Hp.
  assert (Hh : 0 < h) by (unfold h; lia).
  destruct (Z.odd (m / h)); destruct (Z.eqb_spec (m mod h) 0) as [E0|E0];
    cbn [negb round_nearest_even].
  - (* a tie *)
    replace (2 * h <? 2 * (m mod h + h * 1)) with false by (symmetry; apply Z.ltb_ge; lia).
    replace (2 * h =? 2 * (m mod h + h * 1)) with true by (symmetry; apply Z.eqb_eq; lia).
    cbn [orb andb]. rewrite <- Z.negb_odd. destruct (Z.odd q); reflexivity.
  - replace (2 * h <? 2 * (m mod h + h * 1)) with true by (symmetry; apply Z.ltb_lt; lia).
    reflexivity.
  - replace (2 * h <? 2 * (m mod h + h * 0)) with false by (symmetry; apply Z.ltb_ge; lia).
    replace (2 * h =? 2 * (m mod h + h * 0)) with false by (symmetry; apply Z.eqb_neq; lia).
    reflexivity.
  - replace (2 * h <? 2 * (m mod h + h * 0)) with false by (symmetry; apply Z.ltb_ge; lia).
    replace (2 * h =? 2 * (m mod h + h * 0)) with false by (symmetry; apply Z.eqb_neq; lia).
    reflexivity.
Qed.

Lemma round_half_even_1 (m : Z) : round_half_even m 1 = m.
Proof.
  unfold round_half_even. rewrite Z.div_1_r, Z.mod_1_r. reflexivity.
Qed.

(** *** Rounding to nearest is monotone *)

Lemma round_half_even_bounds (a b : Z) :
  a / b <= round_half_even a b <= a / b + 1.
Proof.
  unfold round_half_even.
  destruct ((b <? 2 * (a mod b)) || ((b =? 2 * (a mod b)) && Z.odd (a / b))); lia.
Qed.

Lemma round_half_even_scale (a b c : Z) :
  0 < b -> 0 < c -> round_half_even (a * c) (b * c) = round_half_even a b.
Proof.
  intros Hb Hc. unfold round_half_even.
  rewrite Z.div_mul_cancel_r, Z.mul_mod_distr_r by lia.
  replace (b * c <? 2 * (a mod b * c)) with (b <? 2 * (a mod b)).
  2:{ destruct (Z.ltb_spec b (2 * (a mod b))); symmetry;
        [apply Z.ltb_lt | apply Z.ltb_ge]; nia. }
  replace (b * c =? 2 * (a mod b * c)) with (b =? 2 * (a mod b)).
  2:{ destruct (Z.eqb_spec b (2 * (a mod b))); symmetry;
        [apply Z.eqb_eq | apply Z.eqb_neq]; nia. }
  reflexivity.
Qed.

Lemma round_half_even_le_same (a a' b : Z) :
  0 < b -> a <= a' -> round_half_even a b <= round_half_even a' b.
Proof.
  intros Hb Ha.
  pose proof (Z.div_le_mono a a' b Hb Ha) as Hq.
  destruct (Z.eq_dec (a / b) (a' / b)) as [E|N].
  - assert (Hr : a mod b <= a' mod b).
    { pose proof (Z.div_mod a b ltac:(lia)). pose proof (Z.div_mod a' b ltac:(lia)).
      rewrite <- E in *. nia. }
    unfold round_half_even. rewrite <- E.
    destruct (Z.ltb_spec b (2 * (a mod b))) as [H1|H1];
      destruct (Z.ltb_spec b (2 * (a' mod b))) as [H2|H2];
      destruct (Z.eqb_spec b (2 * (a mod b))) as [H3|H3];
      destruct (Z.eqb_spec b (2 * (a' mod b))) as [H4|H4];
      cbn [orb andb]; try lia; destruct (Z.odd (a / b)); lia.
  - pose proof (round_half_even_bounds a b). pose proof (round_half_even_bounds a' b).
    lia.
Qed.

Lemma round_half_even_le (a1 b1 a2 b2 : Z) :
  0 < b1 -> 0 < b2 -> a1 * b2 <= a2 * b1 ->
  round_half_even a1 b1 <= round_half_even a2 b2.
Proof.
  intros H1 H2 Hle.
  rewrite <- (round_half_even_scale a1 b1 b2), <- (round_half_even_scale a2 b2 b1) by lia.
  rewrite (Z.mul_comm b2 b1).
  apply round_half_even_le_same; [nia | exact Hle].
Qed.

(** *** The digits of a mantissa *)

Lemma digits2_pos_bounds (m : positive) :
  2 ^ (Zpos (digits2_pos m) - 1) <= Zpos m < 2 ^ Zpos (digits2_pos m).
Proof.
  induction m as [m IH|m IH|]; cbn [digits2_pos];
    rewrite ?Pos2Z.inj_succ;
    try (replace (Z.succ (Z.pos (digits2_pos m)) - 1)
           with (Z.succ (Z.pos (digits2_pos m) - 1)) by lia;
         rewrite !Z.pow_succ_r by lia; lia).
  simpl. lia.
Qed.

Lemma pow2_pos (k : Z) : 0 <= k -> 0 < 2 ^ k.
Proof. intros. apply Z.pow_pos_nonneg; lia. Qed.

Lemma Zdigits2_small (M k : Z) : 0 <= k -> 0 <= M < 2 ^ k -> Zdigits2 M <= k.
Proof.
  intros Hk HM. destruct M as [|p|p]; simpl; try lia.
  pose proof (digits2_pos_bounds p) as [Hl _].
  destruct (Z_le_gt_dec (Zpos (digits2_pos p)) k) as [|Hgt]; [assumption|].
  assert (2 ^ k <= 2 ^ (Zpos (digits2_pos p) - 1)) by (apply Z.pow_le_mono_r; lia).
  lia.
Qed.

(** *** What [binary_round_aux] computes *)

Lemma fexp_eq (z : Z) : fexp prec emax z = Z.max (z - 53) (-1074).
Proof. reflexivity. Qed.

Lemma shr_fexp_keep (M E : Z) :
  0 <= M < 2 ^ 53 -> -1074 <= E ->
  shr_fexp prec emax M E loc_Exact = (Build_shr_record M false false, E).
Proof.
  intros HM HE. unfold shr_fexp, shr. rewrite fexp_eq.
  pose proof (Zdigits2_small M 53 ltac:(lia) HM).
  cbn [shr_record_of_loc].
  destruct (Z.max (Zdigits2 M + E - 53) (-1074) - E) eqn:Hn; try reflexivity. lia.
Qed.

Lemma shr_fexp_carry (E : Z) :
  -1074 <= E ->
  shr_fexp prec emax (2 ^ 53) E loc_Exact
  = (Build_shr_record (2 ^ 52) false false, E + 1).
Proof.
  intros HE. unfold shr_fexp, shr. rewrite fexp_eq.
  change (Zdigits2 (2 ^ 53)) with 54.
  replace (Z.max (54 + E - 53) (-1074) - E) with 1 by lia.
  reflexivity.
Qed.

Lemma binary_round_aux_result s (m : positive) e :
  let n := fexp prec emax (Zpos (digits2_pos m) + e) - e in
  0 <= n ->
  binary_round_aux prec emax s (Zpos m) e loc_Exact
  = round_result s (round_half_even (Zpos m) (2 ^ n)) (e + n).
Proof.
  intros n Hn. unfold binary_round_aux.
  assert (HE : -1074 <= e + n) by (unfold n; rewrite fexp_eq; lia).
  assert (Hfirst : shr_fexp prec emax (Zpos m) e loc_Exact
            = (if n =? 0 then Build_shr_record (Zpos m) false false
               else shr_after (Zpos m) n, e + n)).
  { unfold shr_fexp, shr. cbn [Zdigits2 shr_record_of_loc]. fold n.
    destruct n as [|p|p] eqn:En; try lia.
    - rewrite Z.add_0_r. reflexivity.
    - rewrite shr_iter_after by lia. reflexivity. }
  rewrite Hfirst.
  assert (Hround :
    round_nearest_even
      (shr_m (if n =? 0 then Build_shr_record (Zpos m) false false
              else shr_after (Zpos m) n))
      (loc_of_shr_record (if n =? 0 then Build_shr_record (Zpos m) false false
                          else shr_after (Zpos m) n))
    = round_half_even (Zpos m) (2 ^ n)).
  { destruct (Z.eqb_spec n 0) as [E0|E0].
    - rewrite E0. rewrite Z.pow_0_r, round_half_even_1. reflexivity.
    - apply round_after; lia. }
  rewrite Hround. clear Hfirst Hround.
  set (M := round_half_even (Zpos m) (2 ^ n)).
  assert (HM : 0 <= M <= 2 ^ 53).
  { pose proof (round_half_even_bounds (Zpos m) (2 ^ n)) as Hb. fold M in Hb.
    pose proof (pow2_pos n Hn) as Hp.
    assert (0 <= Zpos m / 2 ^ n) by (apply Z.div_pos; lia).
    assert (Zpos m / 2 ^ n < 2 ^ 53).
    { apply Z.div_lt_upper_bound; [lia|].
      pose proof (digits2_pos_bounds m) as [_ Hu].
      assert (2 ^ Zpos (digits2_pos m) <= 2 ^ (n + 53)).
      { apply Z.pow_le_mono_r; [lia|]. unfold n. rewrite fexp_eq. lia. }
      rewrite Z.pow_add_r in H0 by lia. lia. }
    lia. }
  unfold round_result.
  destruct (Z.eqb_spec M 0) as [E0|E0].
  - rewrite E0, shr_fexp_keep by lia. reflexivity.
  - destruct (Z.ltb_spec M (2 ^ 53)) as [Hlt|Hge].
    + rewrite shr_fexp_keep by lia. cbn [shr_m].
      destruct M as [|p|p]; try lia. reflexivity.
    + replace M with (2 ^ 53) by lia.
      rewrite shr_fexp_carry by lia. reflexivity.
Qed.

(** *** The order of the rounded values *)

Lemma SFleb_finite_same_exp (p1 p2 : positive) (E : Z) :
  (p1 <= p2)%positive ->
  SFleb (S754_finite false p1 E) (S754_finite false p2 E) = true.
Proof.
  intros Hle. unfold SFleb, SFcompare. rewrite Z.compare_refl.
  change (PosDef.Pos.compare_cont Eq p1 p2) with (Pos.compare p1 p2).
  unfold Pos.le in Hle. destruct (Pos.compare p1 p2); try reflexivity.
  exfalso. apply Hle. reflexivity.
Qed.

Lemma SFleb_finite_lt_exp (p1 p2 : positive) (E1 E2 : Z) :
  E1 < E2 ->
  SFleb (S754_finite false p1 E1) (S754_finite false p2 E2) = true.
Proof.
  intros Hlt. unfold SFleb, SFcompare.
  apply Z.compare_lt_iff in Hlt. rewrite Hlt. reflexivity.
Qed.

Lemma round_result_nonneg (s : bool) (M E : Z) :
  0 <= M -> SFleb (S754_zero s) (round_result false M E) = true.
Proof.
  intros HM. unfold round_result.
  destruct (M =? 0); [reflexivity|].
  destruct (M <? 2 ^ 53); [destruct (E <=? 971) | destruct (E + 1 <=? 971)];
    reflexivity.
Qed.

Lemma round_result_le_same (M1 M2 E : Z) :
  0 <= M1 <= M2 -> M2 <= 2 ^ 53 ->
  SFleb (round_result false M1 E) (round_result false M2 E) = true.
Proof.
  intros H1 H2.
  destruct (Z.eq_dec M1 0) as [E0|N0].
  { rewrite E0. apply (round_result_nonneg false). lia. }
  unfold round_result.
  destruct (Z.eqb_spec M1 0); [lia|]. destruct (Z.eqb_spec M2 0); [lia|].
  destruct (Z.ltb_spec M1 (2 ^ 53)) as [L1|L1];
    destruct (Z.ltb_spec M2 (2 ^ 53)) as [L2|L2]; try lia.
  - destruct (Z.leb_spec E 971); [|reflexivity].
    apply SFleb_finite_same_exp. lia.
  - destruct (Z.leb_spec E 971); destruct (Z.leb_spec (E + 1) 971); try lia;
      try reflexivity.
    apply SFleb_finite_lt_exp. lia.
  - destruct (Z.leb_spec (E + 1) 971); [|reflexivity].
    apply SFleb_finite_same_exp. lia.
Qed.

Lemma round_result_le_lt (M1 M2 E1 E2 : Z) :
  0 <= M1 <= 2 ^ 53 -> 2 ^ 52 <= M2 <= 2 ^ 53 -> E1 < E2 ->
  SFleb (round_result false M1 E1) (round_result false M2 E2) = true.
Proof.
  intros H1 H2 HE.
  destruct (Z.eq_dec M1 0) as [E0|N0].
  { rewrite E0. apply (round_result_nonneg false). lia. }
  unfold round_result.
  destruct (Z.eqb_spec M1 0); [lia|]. destruct (Z.eqb_spec M2 0); [lia|].
  destruct (Z.ltb_spec M1 (2 ^ 53)) as [L1|L1];
    destruct (Z.ltb_spec M2 (2 ^ 53)) as [L2|L2];
    repeat match goal with
           | |- context [Z.leb ?a ?b] => destruct (Z.leb_spec a b)
           end; try lia; try reflexivity;
    try (apply SFleb_finite_lt_exp; lia).
  (* the carry of the first meets the exponent of the second *)
  destruct (Z.eq_dec (E1 + 1) E2) as [Eq|Ne].
  - rewrite Eq. apply SFleb_finite_same_exp. lia.
  - apply SFleb_finite_lt_exp. lia.
Qed.

Lemma value_le_digits m1 e1 m2 e2 :
  value_le m1 e1 m2 e2 ->
  Zpos (digits2_pos m1) + e1 <= Zpos (digits2_pos m2) + e2.
Proof.
  intros (c & H1 & H2 & Hle).
  pose proof (digits2_pos_bounds m1) as [Hl1 _].
  pose proof (digits2_pos_bounds m2) as [_ Hu2].
  set (d1 := Zpos (digits2_pos m1)) in *. set (d2 := Zpos (digits2_pos m2)) in *.
  destruct (Z_le_gt_dec (d1 + e1) (d2 + e2)) as [|Hgt]; [assumption|exfalso].
  assert (Ha : 2 ^ (d1 - 1) * 2 ^ (e1 - c) <= Zpos m1 * 2 ^ (e1 - c)).
  { apply Z.mul_le_mono_nonneg_r; [apply Z.pow_nonneg; lia | exact Hl1]. }
  assert (Hb : Zpos m2 * 2 ^ (e2 - c) < 2 ^ d2 * 2 ^ (e2 - c)).
  { apply Z.mul_lt_mono_pos_r; [apply pow2_pos; lia | exact Hu2]. }
  rewrite <- Z.pow_add_r in Ha, Hb by (unfold d1, d2; lia).
  assert (2 ^ (d2 + (e2 - c)) <= 2 ^ (d1 - 1 + (e1 - c)))
    by (apply Z.pow_le_mono_r; lia).
  lia.
Qed.

Lemma value_le_quotients m1 e1 m2 e2 E :
  value_le m1 e1 m2 e2 -> e1 <= E -> e2 <= E ->
  Zpos m1 * 2 ^ (E - e2) <= Zpos m2 * 2 ^ (E - e1).
Proof.
  intros (c & H1 & H2 & Hle) HE1 HE2.
  pose proof (pow2_pos (e1 - c) ltac:(lia)) as PA.
  pose proof (pow2_pos (e2 - c) ltac:(lia)) as PB.
  pose proof (pow2_pos (E - e1) ltac:(lia)) as PN1.
  pose proof (pow2_pos (E - e2) ltac:(lia)) as PN2.
  assert (T1 : 2 ^ (E - c) = 2 ^ (e1 - c) * 2 ^ (E - e1)).
  { rewrite <- Z.pow_add_r by lia. f_equal. lia. }
  assert (T2 : 2 ^ (E - c) = 2 ^ (e2 - c) * 2 ^ (E - e2)).
  { rewrite <- Z.pow_add_r by lia. f_equal. lia. }
  pose proof (pow2_pos (E - c) ltac:(lia)) as PT.
  set (A := 2 ^ (e1 - c)) in *. set (B := 2 ^ (e2 - c)) in *.
  set (N1 := 2 ^ (E - e1)) in *. set (N2 := 2 ^ (E - e2)) in *.
  set (T := 2 ^ (E - c)) in *.
  apply (Z.mul_le_mono_pos_r _ _ T PT).
  replace (Zpos m1 * N2 * T) with (Zpos m1 * A * (N1 * N2)) by (rewrite T1; ring).
  replace (Zpos m2 * N1 * T) with (Zpos m2 * B * (N1 * N2)) by (rewrite T2; ring).
  apply Z.mul_le_mono_nonneg_r; [nia | exact Hle].
Qed.

Lemma binary_round_aux_monotone (m1 m2 : positive) (e1 e2 : Z) :
  0 <= fexp prec emax (Zpos (digits2_pos m1) + e1) - e1 ->
  0 <= fexp prec emax (Zpos (digits2_pos m2) + e2) - e2 ->
  value_le m1 e1 m2 e2 ->
  SFleb (binary_round_aux prec emax false (Zpos m1) e1 loc_Exact)
        (binary_round_aux prec emax false (Zpos m2) e2 loc_Exact) = true.
Proof.
  intros Hn1 Hn2 Hbelow.
  rewrite !binary_round_aux_result by assumption.
  pose proof (value_le_digits _ _ _ _ Hbelow) as Hd.
  rewrite !fexp_eq in *.
  set (d1 := Zpos (digits2_pos m1)) in *. set (d2 := Zpos (digits2_pos m2)) in *.
  set (n1 := Z.max (d1 + e1 - 53) (-1074) - e1) in *.
  set (n2 := Z.max (d2 + e2 - 53) (-1074) - e2) in *.
  set (M1 := round_half_even (Zpos m1) (2 ^ n1)).
  set (M2 := round_half_even (Zpos m2) (2 ^ n2)).
  assert (HM : forall (m : positive) n,
            0 <= n -> Zpos (digits2_pos m) <= n + 53 ->
            0 <= round_half_even (Zpos m) (2 ^ n) <= 2 ^ 53).
  { intros m n Hn Hdn.
    pose proof (round_half_even_bounds (Zpos m) (2 ^ n)) as Hb.
    pose proof (pow2_pos n Hn) as Hp.
    assert (0 <= Zpos m / 2 ^ n) by (apply Z.div_pos; lia).
    assert (Zpos m / 2 ^ n < 2 ^ 53).
    { apply Z.div_lt_upper_bound; [lia|].
      pose proof (digits2_pos_bounds m) as [_ Hu].
      assert (2 ^ Zpos (digits2_pos m) <= 2 ^ (n + 53))
        by (apply Z.pow_le_mono_r; lia).
      rewrite Z.pow_add_r in H0 by lia. lia. }
    lia. }
  assert (HM1 : 0 <= M1 <= 2 ^ 53) by (apply HM; unfold n1, d1; lia).
  assert (HM2 : 0 <= M2 <= 2 ^ 53) by (apply HM; unfold n2, d2; lia).
  destruct (Z.eq_dec (e1 + n1) (e2 + n2)) as [EE|NE].
  - (* the same exponent *)
    rewrite EE. apply round_result_le_same; [|lia].
    split; [lia|]. apply round_half_even_le; try (apply pow2_pos; lia).
    pose proof (value_le_quotients m1 e1 m2 e2 (e2 + n2) Hbelow ltac:(lia) ltac:(lia)) as Hq.
    replace (e2 + n2 - e2) with n2 in Hq by lia.
    replace (e2 + n2 - e1) with n1 in Hq by lia.
    exact Hq.
  - (* the second is in a higher binade *)
    apply round_result_le_lt; [exact HM1 | | unfold n1, n2 in *; lia].
    split; [|lia].
    assert (Hn2' : n2 = d2 - 53) by (unfold n1, n2 in *; lia).
    pose proof (round_half_even_bounds (Zpos m2) (2 ^ n2)) as Hb. fold M2 in Hb.
    assert (2 ^ 52 <= Zpos m2 / 2 ^ n2); [|lia].
    apply Z.div_le_lower_bound; [apply pow2_pos; lia|].
    pose proof (digits2_pos_bounds m2) as [Hl _]. fold d2 in Hl.
    rewrite <- Z.pow_add_r by lia.
    replace (n2 + 52) with (d2 - 1) by lia. exact Hl.
Qed.

(** *** The product of floats that are not negative *)

Lemma bounded_canonical (m : positive) (e : Z) :
  bounded prec emax m e = true ->
  fexp prec emax (Zpos (digits2_pos m) + e) = e /\ e <= 971.
Proof.
  unfold bounded, canonical_mantissa. intros H.
  apply andb_prop in H. destruct H as [Hc Hb].
  apply Z.eqb_eq in Hc. apply Z.leb_le in Hb. split; [exact Hc | exact Hb].
Qed.

Lemma digits2_pos_above (m : positive) (k : Z) :
  0 <= k -> 2 ^ k <= Zpos m -> k < Zpos (digits2_pos m).
Proof.
  intros Hk Hm. pose proof (digits2_pos_bounds m) as [_ Hu].
  destruct (Z_lt_le_dec k (Zpos (digits2_pos m))) as [|Hle]; [assumption|].
  assert (2 ^ Zpos (digits2_pos m) <= 2 ^ k) by (apply Z.pow_le_mono_r; lia).
  lia.
Qed.

Lemma digits2_pos_mul (mx my : positive) :
  Zpos (digits2_pos mx) + Zpos (digits2_pos my) - 1
  <= Zpos (digits2_pos (mx * my)).
Proof.
  pose proof (digits2_pos_bounds mx) as [Hx _].
  pose proof (digits2_pos_bounds my) as [Hy _].
  set (dx := Zpos (digits2_pos mx)) in *. set (dy := Zpos (digits2_pos my)) in *.
  assert (H : dx - 1 + (dy - 1) < Zpos (digits2_pos (mx * my))); [|lia].
  apply digits2_pos_above; [unfold dx, dy; lia|].
  rewrite Z.pow_add_r by (unfold dx, dy; lia).
  rewrite Pos2Z.inj_mul. apply Z.mul_le_mono_nonneg; try lia;
    apply Z.pow_nonneg; lia.
Qed.

Lemma mul_shift_nonneg (mx my : positive) (ex ey : Z) :
  bounded prec emax mx ex = true -> bounded prec emax my ey = true ->
  0 <= fexp prec emax (Zpos (digits2_pos (mx * my)) + (ex + ey)) - (ex + ey).
Proof.
  intros Hx Hy.
  destruct (bounded_canonical _ _ Hx) as [Cx _].
  destruct (bounded_canonical _ _ Hy) as [Cy _].
  pose proof (digits2_pos_mul mx my) as Hd.
  rewrite fexp_eq in *. lia.
Qed.

Lemma SFleb_value_le (m1 m2 : positive) (e1 e2 : Z) :
  bounded prec emax m1 e1 = true -> bounded prec emax m2 e2 = true ->
  SFleb (S754_finite false m1 e1) (S754_finite false m2 e2) = true ->
  value_le m1 e1 m2 e2.
Proof.
  intros H1 H2 Hle.
  destruct (bounded_canonical _ _ H1) as [C1 _].
  destruct (bounded_canonical _ _ H2) as [C2 _].
  rewrite fexp_eq in *.
  unfold SFleb, SFcompare in Hle.
  destruct (Z.compare_spec e1 e2) as [E|L|G]; try discriminate.
  - exists e1. subst e2. rewrite Z.sub_diag, Z.pow_0_r.
    change (PosDef.Pos.compare_cont Eq m1 m2) with (Pos.compare m1 m2) in Hle.
    destruct (Pos.compare_spec m1 m2); try discriminate; lia.
  - exists e1. rewrite Z.sub_diag, Z.pow_0_r.
    pose proof (digits2_pos_bounds m1) as [_ Hu1].
    pose proof (digits2_pos_bounds m2) as [Hl2 _].
    assert (Hd2 : Zpos (digits2_pos m2) = 53) by lia.
    rewrite Hd2 in Hl2.
    assert (Zpos m1 < 2 ^ 53).
    { assert (2 ^ Zpos (digits2_pos m1) <= 2 ^ 53) by (apply Z.pow_le_mono_r; lia).
      lia. }
    assert (2 ^ 1 <= 2 ^ (e2 - e1)) by (apply Z.pow_le_mono_r; lia).
    change (2 ^ (53 - 1)) with 4503599627370496 in Hl2.
    change (2 ^ 53) with 9007199254740992 in *.
    change (2 ^ 1) with 2 in *.
    split; [lia|]. split; [lia|]. nia.
Qed.

Lemma value_le_mul (mc m1 m2 : positive) (ec e1 e2 : Z) :
  value_le m1 e1 m2 e2 -> value_le (mc * m1) (ec + e1) (mc * m2) (ec + e2).
Proof.
  intros (c & H1 & H2 & Hle). exists (ec + c).
  split; [lia|]. split; [lia|].
  replace (ec + e1 - (ec + c)) with (e1 - c) by lia.
  replace (ec + e2 - (ec + c)) with (e2 - c) by lia.
  rewrite !Pos2Z.inj_mul, <- !Z.mul_assoc.
  apply Z.mul_le_mono_nonneg_l; lia.
Qed.

Lemma binary_round_aux_nonneg (m : positive) (e : Z) :
  0 <= fexp prec emax (Zpos (digits2_pos m) + e) - e ->
  forall s, SFleb (S754_zero s) (binary_round_aux prec emax false (Zpos m) e loc_Exact) = true.
Proof.
  intros Hn s. rewrite binary_round_aux_result by exact Hn.
  apply round_result_nonneg.
  pose proof (round_half_even_bounds (Zpos m)
                (2 ^ (fexp prec emax (Zpos (digits2_pos m) + e) - e))) as Hb.
  assert (0 <= Zpos m / 2 ^ (fexp prec emax (Zpos (digits2_pos m) + e) - e)).
  { apply Z.div_pos; [lia | apply pow2_pos; exact Hn]. }
  lia.
Qed.

(** A multiplier that is not negative keeps the order of floats that are
    not negative. *)
Lemma SF64mul_le_nonneg (c x y : spec_float) :
  valid_binary c = true -> valid_binary x = true -> valid_binary y = true ->
  SF_nonneg c = true -> SF_nonneg x = true -> SF_nonneg y = true ->
  SFleb x y = true ->
  SFleb (SF64mul c x) (SF64mul c y) = true /\
  SFleb (S754_zero false) (SF64mul c x) = true.
Proof.
  intros Vc Vx Vy Nc Nx Ny Hle.
  destruct c as [sc|sc| |[|] mc ec]; try discriminate;
    destruct x as [sx|sx| |[|] mx ex]; try discriminate;
    destruct y as [sy|sy| |[|] my ey]; try discriminate;
    try (split; reflexivity).
  - (* x is a zero *)
    split; [|reflexivity].
    apply (binary_round_aux_nonneg (mc * my) (ec + ey)).
    apply mul_shift_nonneg; assumption.
  - (* both are positive *)
    split.
    + apply binary_round_aux_monotone;
        try (apply mul_shift_nonneg; assumption).
      apply value_le_mul, SFleb_value_le; assumption.
    + apply (binary_round_aux_nonneg (mc * mx) (ec + ex)).
      apply mul_shift_nonneg; assumption.
Qed.

(** *** The sign *)

Lemma binary_round_aux_opp s m e l :
  binary_round_aux prec emax (negb s) m e l
  = SFopp (binary_round_aux prec emax s m e l).
Proof.
  unfold binary_round_aux.
  destruct (shr_fexp prec emax m e l) as [mrs' e'].
  destruct (shr_fexp prec emax _ e' loc_Exact) as [mrs'' e''].
  destruct (shr_m mrs''); try reflexivity.
  destruct (e'' <=? emax - prec); reflexivity.
Qed.

Lemma SF64mul_opp_l (c x : spec_float) :
  SF64mul (SFopp c) x = SFopp (SF64mul c x).
Proof.
  destruct c as [sc|sc| |sc mc ec]; destruct x as [sx|sx| |sx mx ex];
    try reflexivity; cbn [SF64mul SFmul SFopp];
    try (destruct sc, sx; reflexivity).
  replace (xorb (negb sc) sx) with (negb (xorb sc sx)) by (destruct sc, sx; reflexivity).
  apply binary_round_aux_opp.
Qed.

Lemma SFopp_involutive (x : spec_float) : SFopp (SFopp x) = x.
Proof. destruct x as [s|s| |s m e]; try reflexivity; destruct s; reflexivity. Qed.

Lemma SFleb_opp (a b : spec_float) :
  SFleb a b = true -> SFleb (SFopp b) (SFopp a) = true.
Proof.
  unfold SFleb.
  destruct a as [sa|sa| |sa ma ea]; destruct b as [sb|sb| |sb mb eb];
    cbn [SFopp SFcompare]; try discriminate; try reflexivity;
    try (destruct sa; try destruct sb; cbn [negb]; intros H;
         try discriminate H; reflexivity).
  destruct sa, sb; cbn [negb]; try discriminate; try reflexivity.
  - rewrite (Z.compare_antisym ea eb).
    change (PosDef.Pos.compare_cont Eq mb ma) with (Pos.compare mb ma).
    change (PosDef.Pos.compare_cont Eq ma mb) with (Pos.compare ma mb).
    rewrite (Pos.compare_antisym ma mb).
    destruct (Z.compare ea eb); cbn [CompOpp]; try discriminate; try reflexivity.
    destruct (Pos.compare ma mb); cbn [CompOpp]; try discriminate; reflexivity.
  - rewrite (Z.compare_antisym ea eb).
    change (PosDef.Pos.compare_cont Eq mb ma) with (Pos.compare mb ma).
    change (PosDef.Pos.compare_cont Eq ma mb) with (Pos.compare ma mb).
    rewrite (Pos.compare_antisym ma mb).
    destruct (Z.compare ea eb); cbn [CompOpp]; try discriminate; try reflexivity.
    destruct (Pos.compare ma mb); cbn [CompOpp]; try discriminate; reflexivity.
Qed.

Lemma valid_binary_opp (x : spec_float) :
  valid_binary (SFopp x) = valid_binary x.
Proof. destruct x; reflexivity. Qed.

Lemma SF_nonneg_opp (x : spec_float) : SF_nonneg (SFopp x) = SF_nonpos x.
Proof. destruct x as [s|s| |s m e]; try reflexivity; destruct s; reflexivity. Qed.

(** A multiplier that is not positive turns the order round. *)
Lemma SF64mul_le_nonpos (c x y : spec_float) :
  valid_binary c = true -> valid_binary x = true -> valid_binary y = true ->
  SF_nonpos c = true -> SF_nonneg x = true -> SF_nonneg y = true ->
  SFleb x y = true ->
  SFleb (SF64mul c y) (SF64mul c x) = true /\
  SFleb (SF64mul c x) (S754_zero false) = true.
Proof.
  intros Vc Vx Vy Nc Nx Ny Hle.
  destruct (SF64mul_le_nonneg (SFopp c) x y) as [H1 H2];
    rewrite ?valid_binary_opp, ?SF_nonneg_opp; try assumption.
  rewrite !SF64mul_opp_l in H1. rewrite SF64mul_opp_l in H2.
  apply SFleb_opp in H1, H2. rewrite !SFopp_involutive in H1.
  rewrite SFopp_involutive in H2.
  split; [exact H1|].
  destruct (SF64mul c x) as [s|s| |s m e]; try discriminate H2; try reflexivity;
    destruct s; try discriminate H2; reflexivity.
Qed.

(** *** The float of an integer *)

Lemma Pos_iter_xO (m d : positive) :
  Zpos (Pos.iter xO m d) = Zpos m * 2 ^ Zpos d.
Proof.
  induction d as [|d IH] using Pos.peano_ind.
  - simpl. lia.
  - rewrite Pos.iter_succ, Pos2Z.inj_xO, IH, Pos2Z.inj_succ, Z.pow_succ_r by lia.
    ring.
Qed.

Lemma digits2_pos_iter_xO (m d : positive) :
  Zpos (digits2_pos (Pos.iter xO m d)) = Zpos (digits2_pos m) + Zpos d.
Proof.
  induction d as [|d IH] using Pos.peano_ind.
  - simpl. rewrite Pos2Z.inj_succ. lia.
  - rewrite Pos.iter_succ. cbn [digits2_pos].
    rewrite !Pos2Z.inj_succ, IH. lia.
Qed.

(** The mantissa and the exponent that [binary_round] rounds. *)
Lemma shl_align_spec (m : positive) :
  exists mz ez,
    shl_align m 0 (fexp prec emax (Zpos (digits2_pos m) + 0)) = (mz, ez) /\
    ez <= 0 /\ Zpos mz = Zpos m * 2 ^ (- ez) /\
    Zpos (digits2_pos mz) + ez = Zpos (digits2_pos m) /\
    0 <= fexp prec emax (Zpos (digits2_pos mz) + ez) - ez.
Proof.
  unfold shl_align. rewrite Z.add_0_r, Z.sub_0_r.
  destruct (fexp prec emax (Zpos (digits2_pos m))) as [|p|p] eqn:Ef.
  - exists m, 0. rewrite Z.add_0_r, Ef. simpl. repeat split; lia.
  - exists m, 0. rewrite Z.add_0_r, Ef. simpl. repeat split; lia.
  - exists (Pos.iter xO m p), (Zneg p).
    split; [reflexivity|]. split; [lia|]. split; [|split].
    + rewrite Pos_iter_xO. reflexivity.
    + rewrite digits2_pos_iter_xO. lia.
    + rewrite digits2_pos_iter_xO.
      replace (Zpos (digits2_pos m) + Zpos p + Zneg p) with (Zpos (digits2_pos m)) by lia.
      rewrite Ef. lia.
Qed.

Lemma binary_round_nat_le (a b : positive) :
  (a <= b)%positive ->
  SFleb (binary_round prec emax false a 0) (binary_round prec emax false b 0) = true.
Proof.
  intros Hab. unfold binary_round.
  destruct (shl_align_spec a) as (ma & ea & -> & Hea & Hma & _ & Hna).
  destruct (shl_align_spec b) as (mb & eb & -> & Heb & Hmb & _ & Hnb).
  apply binary_round_aux_monotone; try assumption.
  exists (Z.min ea eb). split; [lia|]. split; [lia|].
  rewrite Hma, Hmb, <- !Z.mul_assoc, <- !Z.pow_add_r by lia.
  replace (- ea + (ea - Z.min ea eb)) with (- Z.min ea eb) by lia.
  replace (- eb + (eb - Z.min ea eb)) with (- Z.min ea eb) by lia.
  apply Z.mul_le_mono_nonneg_r; [apply Z.pow_nonneg; lia | lia].
Qed.

Lemma binary_round_nat_nonneg (a : positive) (s : bool) :
  SFleb (S754_zero s) (binary_round prec emax false a 0) = true.
Proof.
  unfold binary_round.
  destruct (shl_align_spec a) as (ma & ea & -> & Hea & Hma & _ & Hna).
  apply binary_round_aux_nonneg, Hna.
Qed.

(** The float of an integer below [2 ^ 63] is finite. *)
Lemma binary_round_nat_finite (a : positive) :
  Zpos a < 2 ^ 63 ->
  SF_is_finite (binary_round prec emax false a 0) = true.
Proof.
  intros Ha. unfold binary_round.
  destruct (shl_align_spec a) as (ma & ea & -> & Hea & Hma & Hd & Hna).
  rewrite binary_round_aux_result by exact Hna.
  pose proof (Zdigits2_small (Zpos a) 63 ltac:(lia) ltac:(lia)) as Hda.
  cbn [Zdigits2] in Hda. rewrite Hd, fexp_eq in *.
  unfold round_result.
  destruct (_ =? 0); [reflexivity|].
  destruct (_ <? 2 ^ 53).
  - replace (_ <=? 971) with true; [reflexivity|].
    symmetry. apply Z.leb_le. lia.
  - replace (_ <=? 971) with true; [reflexivity|].
    symmetry. apply Z.leb_le. lia.
Qed.

Lemma of_uint63_finite (n : PrimInt63.int) :
  SF_is_finite (Prim2SF (PrimFloat.of_uint63 n)) = true.
Proof.
  rewrite of_uint63_spec. pose proof (Uint63.to_Z_bounded n) as Hn.
  change Uint63.wB with (2 ^ 63) in Hn.
  change (Uint63Axioms.to_Z n) with (Uint63.to_Z n).
  destruct (Uint63.to_Z n) as [|m|m]; [reflexivity| |lia].
  apply binary_round_nat_finite. lia.
Qed.

Lemma float_of_nat_finite (n : nat) :
  SF_is_finite (Prim2SF (float_of_nat n)) = true.
Proof. apply of_uint63_finite. Qed.

Lemma binary_normalize_nat_le (a b : Z) :
  0 <= a <= b ->
  SFleb (binary_normalize prec emax a 0 false)
        (binary_normalize prec emax b 0 false) = true.
Proof.
  intros Hab. destruct a as [|a|a]; destruct b as [|b|b]; try lia;
    cbn [binary_normalize].
  - reflexivity.
  - apply binary_round_nat_nonneg.
  - apply binary_round_nat_le. lia.
Qed.

Lemma of_uint63_le (a b : Z) :
  0 <= a <= b -> b < 2 ^ 63 ->
  PrimFloat.leb (PrimFloat.of_uint63 (Uint63.of_Z a))
                (PrimFloat.of_uint63 (Uint63.of_Z b)) = true.
Proof.
  intros Hab Hb. rewrite leb_spec, !of_uint63_spec.
  change Uint63Axioms.to_Z with Uint63.to_Z.
  rewrite !Uint63.of_Z_spec. change Uint63.wB with (2 ^ 63).
  rewrite !Z.mod_small by lia.
  apply binary_normalize_nat_le, Hab.
Qed.

(** *** The order of the primitive floats *)

Lemma SF_nonneg_spec (x : PrimFloat.float) :
  PrimFloat.leb PrimFloat.zero x = true ->
  PrimFloat.leb x PrimFloat.one = true ->
  SF_nonneg (Prim2SF x) = true.
Proof.
  rewrite !leb_spec.
  change (Prim2SF PrimFloat.zero) with (S754_zero false).
  change (Prim2SF PrimFloat.one) with (S754_finite false 4503599627370496 (-52)).
  destruct (Prim2SF x) as [s|s| |s m e]; try discriminate; try reflexivity;
    destruct s; try discriminate; reflexivity.
Qed.

Lemma SF_nonneg_finite (x : PrimFloat.float) :
  PrimFloat.is_finite x = true -> PrimFloat.leb PrimFloat.zero x = true ->
  SF_nonneg (Prim2SF x) = true.
Proof.
  rewrite leb_spec.
  change (Prim2SF PrimFloat.zero) with (S754_zero false).
  intros Hf. 
  assert (Hf' : match Prim2SF x with
                | S754_zero _ | S754_finite _ _ _ => true
                | _ => false
                end = true).
  { unfold PrimFloat.is_finite, PrimFloat.is_nan, PrimFloat.is_infinity in Hf.
    rewrite !eqb_spec, abs_spec in Hf.
    change (Prim2SF PrimFloat.infinity) with (S754_infinity false) in Hf.
    destruct (Prim2SF x) as [s|s| |s m e]; try reflexivity;
      try (destruct s; discriminate Hf); discriminate Hf. }
  destruct (Prim2SF x) as [s|s| |s m e]; try discriminate; try reflexivity;
    destruct s; try discriminate; reflexivity.
Qed.

Lemma SF_nonpos_opp (x : PrimFloat.float) :
  SF_nonneg (Prim2SF x) = true -> SF_nonpos (Prim2SF (PrimFloat.opp x)) = true.
Proof.
  rewrite opp_spec. destruct (Prim2SF x) as [s|s| |s m e]; try discriminate;
    try reflexivity. destruct s; try discriminate. reflexivity.
Qed.

Lemma mul_le_nonneg (c x y : PrimFloat.float) :
  SF_nonneg (Prim2SF c) = true ->
  SF_nonneg (Prim2SF x) = true -> SF_nonneg (Prim2SF y) = true ->
  PrimFloat.leb x y = true ->
  PrimFloat.leb (PrimFloat.mul c x) (PrimFloat.mul c y) = true /\
  PrimFloat.leb PrimFloat.zero (PrimFloat.mul c x) = true.
Proof.
  intros Nc Nx Ny. rewrite !leb_spec, !mul_spec.
  change (Prim2SF PrimFloat.zero) with (S754_zero false).
  apply SF64mul_le_nonneg; try assumption; apply Prim2SF_valid.
Qed.

Lemma mul_le_nonpos (c x y : PrimFloat.float) :
  SF_nonpos (Prim2SF c) = true ->
  SF_nonneg (Prim2SF x) = true -> SF_nonneg (Prim2SF y) = true ->
  PrimFloat.leb x y = true ->
  PrimFloat.leb (PrimFloat.mul c y) (PrimFloat.mul c x) = true /\
  PrimFloat.leb (PrimFloat.mul c x) PrimFloat.zero = true.
Proof.
  intros Nc Nx Ny. rewrite !leb_spec, !mul_spec.
  change (Prim2SF PrimFloat.zero) with (S754_zero false).
  apply SF64mul_le_nonpos; try assumption; apply Prim2SF_valid.
Qed.

Lemma leb_not_nan (x y : PrimFloat.float) :
  PrimFloat.leb x y = true -> PrimFloat.is_nan x = false.
Proof.
  unfold PrimFloat.is_nan. rewrite leb_spec, eqb_spec.
  destruct (Prim2SF x) as [s|s| |s m e]; try discriminate; intros _;
    try reflexivity.
  - destruct s; reflexivity.
  - unfold SFeqb, SFcompare.
    rewrite Z.compare_refl, Pos.compare_cont_refl. destruct s; reflexivity.
Qed.

(** *** NaN and the infinities *)

Lemma is_nan_spec (x : PrimFloat.float) :
  PrimFloat.is_nan x = SF_is_nan (Prim2SF x).
Proof.
  unfold PrimFloat.is_nan. rewrite eqb_spec.
  destruct (Prim2SF x) as [s|s| |s m e]; try reflexivity.
  - destruct s; reflexivity.
  - unfold SFeqb, SFcompare.
    rewrite Z.compare_refl, Pos.compare_cont_refl. destruct s; reflexivity.
Qed.

Lemma add_nan_l (x y : PrimFloat.float) :
  SF_is_nan (Prim2SF x) = true -> SF_is_nan (Prim2SF (PrimFloat.add x y)) = true.
Proof.
  rewrite add_spec. destruct (Prim2SF x); try discriminate. reflexivity.
Qed.

Lemma add_nan_r (x y : PrimFloat.float) :
  SF_is_nan (Prim2SF y) = true -> SF_is_nan (Prim2SF (PrimFloat.add x y)) = true.
Proof.
  rewrite add_spec. destruct (Prim2SF y); try discriminate.
  destruct (Prim2SF x); reflexivity.
Qed.

Lemma mul_nan_r (x y : PrimFloat.float) :
  SF_is_nan (Prim2SF y) = true -> SF_is_nan (Prim2SF (PrimFloat.mul x y)) = true.
Proof.
  rewrite mul_spec. destruct (Prim2SF y); try discriminate.
  destruct (Prim2SF x); reflexivity.
Qed.

(** An infinity or NaN times a zero is NaN, and times anything it is
    again an infinity or NaN. *)
Lemma mul_non_finite_zero (x y : PrimFloat.float) :
  SF_is_finite (Prim2SF x) = false -> SF_is_zero (Prim2SF y) = true ->
  SF_is_nan (Prim2SF (PrimFloat.mul x y)) = true.
Proof.
  rewrite mul_spec.
  destruct (Prim2SF y); try discriminate.
  destruct (Prim2SF x); try discriminate; reflexivity.
Qed.

Lemma mul_non_finite_l (x y : PrimFloat.float) :
  SF_is_finite (Prim2SF x) = false ->
  SF_is_finite (Prim2SF (PrimFloat.mul x y)) = false.
Proof.
  rewrite mul_spec.
  destruct (Prim2SF x); try discriminate;
    destruct (Prim2SF y); reflexivity.
Qed.

Lemma opp_non_finite (x : PrimFloat.float) :
  SF_is_finite (Prim2SF x) = false ->
  SF_is_finite (Prim2SF (PrimFloat.opp x)) = false.
Proof. rewrite opp_is_finite. auto. Qed.

(** The exponential of the model is determined at NaN and at the
    infinities. *)
Lemma exp64_nan (x : PrimFloat.float) :
  SF_is_nan (Prim2SF x) = true -> exp64 x = Some PrimFloat.nan.
Proof.
  intros Hn. unfold exp64. rewrite is_nan_spec, Hn. reflexivity.
Qed.

Lemma exp64_non_finite (x : PrimFloat.float) :
  SF_is_finite (Prim2SF x) = false -> exists v, exp64 x = Some v.
Proof.
  intros Hx. unfold exp64.
  rewrite is_nan_spec, is_zero_spec, !leb_spec.
  destruct (Prim2SF x) as [s|s| |s m e]; try discriminate.
  - destruct s; vm_compute; eexists; reflexivity.
  - vm_compute. eexists; reflexivity.
Qed.

(** *** The order of the floats of the forecast *)

Lemma ltb_leb (x y : PrimFloat.float) :
  PrimFloat.ltb x y = true -> PrimFloat.leb x y = true.
Proof.
  rewrite ltb_spec, leb_spec. unfold SFltb, SFleb.
  destruct (SFcompare (Prim2SF x) (Prim2SF y)) as [[| |]|]; try discriminate.
  reflexivity.
Qed.

Lemma SF_nonneg_of (x : spec_float) :
  SF_is_finite x = true -> SFleb (S754_zero false) x = true -> SF_nonneg x = true.
Proof.
  destruct x as [s|s| |s m e]; try discriminate; try reflexivity.
  destruct s; [discriminate | reflexivity].
Qed.

Lemma float_of_nat_nonneg (n : nat) :
  SF_nonneg (Prim2SF (float_of_nat n)) = true.
Proof.
  apply SF_nonneg_of; [apply float_of_nat_finite|].
  unfold float_of_nat. rewrite of_uint63_spec.
  pose proof (Uint63.to_Z_bounded (Uint63.of_Z (Z.of_nat n))) as Hb.
  change Uint63Axioms.to_Z with Uint63.to_Z.
  destruct (Uint63.to_Z (Uint63.of_Z (Z.of_nat n))) as [|p|p]; try lia.
  - reflexivity.
  - apply binary_round_nat_nonneg.
Qed.

Lemma float_of_nat_le (j k : nat) :
  (j <= k)%nat -> Z.of_nat k < 2 ^ 63 ->
  PrimFloat.leb (float_of_nat j) (float_of_nat k) = true.
Proof.
  intros Hjk Hk. apply of_uint63_le; lia.
Qed.

(** The exponential of the examples has the three properties of an
    exponential that the order of the summands rests on. *)
Lemma exp_step_monotone (x y : PrimFloat.float) :
  PrimFloat.leb x y = true -> PrimFloat.leb (exp_step x) (exp_step y) = true.
Proof.
  unfold exp_step, PrimFloat.is_nan.
  rewrite !leb_spec, !eqb_spec, !ltb_spec.
  change (Prim2SF PrimFloat.zero) with (S754_zero false).
  destruct (Prim2SF x) as [sx|sx| |sx mx ex] eqn:Ex;
    destruct (Prim2SF y) as [sy|sy| |sy my ey] eqn:Ey; try discriminate;
    unfold SFeqb, SFltb, SFleb, SFcompare;
    rewrite ?Z.compare_refl, ?Pos.compare_cont_refl;
    destruct sx, sy; cbn [negb]; try discriminate; intros _;
    rewrite ?leb_spec; reflexivity.
Qed.

Lemma exp_step_nonneg (x : PrimFloat.float) :
  PrimFloat.is_nan x = false ->
  PrimFloat.leb PrimFloat.zero (exp_step x) = true.
Proof.
  intros Hn. unfold exp_step. rewrite Hn.
  destruct (PrimFloat.ltb x PrimFloat.zero); reflexivity.
Qed.

End FloatFacts.

(** ** Predictions in binary64 *)

Section Binary64.
Local Open Scope float_scope.

(** *** The decay factor *)

Lemma exp64_zero (x : PrimFloat.float) :
  SF_is_zero (FloatOps.Prim2SF x) = true -> exp64 x = Some PrimFloat.one.
Proof.
  intros Hz. unfold exp64.
  rewrite (is_nan_zero x Hz), is_zero_spec, Hz. reflexivity.
Qed.

(** With a finite decay rate the factor of the first forecast year is
    one, and the slope times one is the slope. *)
Lemma first_factor_neutral (beta : option PrimFloat.float) (decay : PrimFloat.float) :
  PrimFloat.is_finite decay = true ->
  attenuated_slope beta (Some decay) 0 = beta.
Proof.
  intros Hd. rewrite is_finite_spec in Hd.
  cbv [attenuated_slope fmul fneg fexp of_int binary64_arith binary64_with lift64].
  rewrite exp64_zero.
  - destruct beta as [b|]; [|reflexivity]. rewrite mul_one. reflexivity.
  - apply mul_zero_r; [rewrite opp_is_finite; exact Hd | reflexivity].
Qed.

(** With the decay rate zero the factor of every forecast year is one. *)
Lemma zero_decay_factor_neutral (beta : option PrimFloat.float) (decay : PrimFloat.float) j :
  PrimFloat.is_zero decay = true ->
  attenuated_slope beta (Some decay) j = beta.
Proof.
  intros Hd. rewrite is_zero_spec in Hd.
  cbv [attenuated_slope fmul fneg fexp of_int binary64_arith binary64_with lift64].
  rewrite exp64_zero.
  - destruct beta as [b|]; [|reflexivity]. rewrite mul_one. reflexivity.
  - apply mul_zero_l; [rewrite opp_is_zero; exact Hd | apply float_of_nat_finite].
Qed.

(** C10.  In binary64, with [P >= 1] and [F >= 1] and a finite decay
    rate, the first forecast value is the last linear value plus the
    whole slope: [(-decay) * 0] is a zero, [exp] of a zero is 1, and
    [beta * 1] is [beta], for every [alpha] and [beta]. *)
Theorem first_forecast_step_finite_decay
    (alpha beta : option PrimFloat.float) (decay : PrimFloat.float) yr :
  PrimFloat.is_finite decay = true ->
  (1 <= length (past_years yr))%nat ->
  (1 <= length (forecast_years yr))%nat ->
  exists preds last,
    make_single_predictions alpha beta yr (Some decay) = Ok preds /\
    preds !! (length (past_years yr) - 1)%nat = Some last /\
    preds !! length (past_years yr) = Some (last + beta).
Proof.
  intros Hd HP HF.
  destruct (predictions_shape alpha beta yr (Some decay) HP)
    as (preds & Hok & _ & Hstep).
  destruct (Hstep 0%nat HF) as (prev & Hprev & Hcur).
  rewrite Nat.add_0_r in Hprev, Hcur.
  exists preds, prev. split; [exact Hok|]. split; [exact Hprev|].
  rewrite Hcur. f_equal. f_equal.
  exact (first_factor_neutral beta decay Hd).
Qed.

(** C2.  In binary64, with [P >= 1] and the decay rate zero, the call is
    accepted and no forecast step is attenuated: forecast value [j] is
    the last linear value with [beta] added [j + 1] times, one rounded
    addition after the other, for every [alpha] and [beta]. *)
Theorem zero_decay_repeated_addition
    (alpha beta : option PrimFloat.float) (decay : PrimFloat.float) yr :
  PrimFloat.is_zero decay = true ->
  (1 <= length (past_years yr))%nat ->
  exists preds last,
    make_single_predictions alpha beta yr (Some decay) = Ok preds /\
    preds !! (length (past_years yr) - 1)%nat = Some last /\
    forall j, (j < length (forecast_years yr))%nat ->
      preds !! (length (past_years yr) + j)%nat
      = Some (Nat.iter (S j) (fun x => x + beta) last).
Proof.
  intros Hd HP.
  destruct (predictions_shape alpha beta yr (Some decay) HP)
    as (preds & Hok & Hlin & Hstep).
  exists preds, (alpha + beta * of_int (length (past_years yr) - 1)).
  split; [exact Hok|]. split; [apply Hlin; lia|].
  induction j as [|j IH]; intros Hj;
    destruct (Hstep _ Hj) as (prev & Hprev & Hcur); rewrite Hcur;
    change (beta * fexp (- Some decay * of_int ?j))
      with (attenuated_slope beta (Some decay) j);
    rewrite (zero_decay_factor_neutral beta decay _ Hd).
  - rewrite Nat.add_0_r in Hprev. rewrite Hlin in Hprev by lia.
    injection Hprev as <-. reflexivity.
  - replace (length (past_years yr) + S j - 1)%nat
      with (length (past_years yr) + j)%nat in Hprev by lia.
    rewrite IH in Hprev by lia. injection Hprev as <-. reflexivity.
Qed.

End Binary64.

(** ** The summands of the forecast in binary64

    The exponential of the library is a parameter here: a function on
    the floats that keeps their order, is not negative and is 1 at 0. *)

Section Binary64Order.
Local Open Scope float_scope.
Variable np_exp : PrimFloat.float -> PrimFloat.float.
Hypothesis np_exp_monotone :
  forall x y, PrimFloat.leb x y = true -> PrimFloat.leb (np_exp x) (np_exp y) = true.
Hypothesis np_exp_nonneg :
  forall x, PrimFloat.is_nan x = false -> PrimFloat.leb PrimFloat.zero (np_exp x) = true.
Hypothesis np_exp_zero : np_exp PrimFloat.zero = PrimFloat.one.

(** The argument of the exponential falls with the year and is never
    above zero. *)
Lemma decay_argument_order (decay : PrimFloat.float) (j k : nat) :
  PrimFloat.is_finite decay = true ->
  PrimFloat.ltb PrimFloat.zero decay = true ->
  (j <= k)%nat -> (Z.of_nat k < 2 ^ 63)%Z ->
  PrimFloat.leb (PrimFloat.mul (PrimFloat.opp decay) (float_of_nat k))
                (PrimFloat.mul (PrimFloat.opp decay) (float_of_nat j)) = true /\
  PrimFloat.leb (PrimFloat.mul (PrimFloat.opp decay) (float_of_nat j))
                PrimFloat.zero = true.
Proof.
  intros Hf Hpos Hjk Hk.
  apply mul_le_nonpos.
  - apply SF_nonpos_opp, SF_nonneg_finite; [exact Hf | apply ltb_leb, Hpos].
  - apply float_of_nat_nonneg.
  - apply float_of_nat_nonneg.
  - apply float_of_nat_le; assumption.
Qed.

(** The decay factor of a year is between 0 and 1. *)
Lemma decay_factor_range (a : PrimFloat.float) :
  PrimFloat.leb a PrimFloat.zero = true ->
  SF_nonneg (FloatOps.Prim2SF (np_exp a)) = true.
Proof.
  intros Ha. apply SF_nonneg_spec.
  - apply np_exp_nonneg. exact (leb_not_nan _ _ Ha).
  - rewrite <- np_exp_zero. apply np_exp_monotone, Ha.
Qed.

(** C6.  In binary64, for a finite [decay > 0], a finite [beta > 0] and
    [P >= 1], with an exponential that keeps the order, is not negative
    and is 1 at 0: forecast step [j] stores the rounded sum of the value
    before and the summand [beta * exp (- decay * j)] as computed, and
    the summands are not negative and never grow with [j]. *)
Theorem forecast_summands_decreasing (alpha beta decay : PrimFloat.float) yr :
  PrimFloat.is_finite decay = true ->
  PrimFloat.ltb PrimFloat.zero decay = true ->
  PrimFloat.is_finite beta = true ->
  PrimFloat.ltb PrimFloat.zero beta = true ->
  (1 <= length (past_years yr))%nat ->
  (Z.of_nat (length (forecast_years yr)) <= 2 ^ 63)%Z ->
  exists preds,
    @make_single_predictions _ (binary64_with (fun x => Some (np_exp x)))
      (Some alpha) (Some beta) yr (Some decay) = Ok preds /\
    (forall j, (j < length (forecast_years yr))%nat ->
       exists last summand,
         preds !! (length (past_years yr) + j - 1)%nat = Some (Some last) /\
         attenuated_slope (A := binary64_with (fun x => Some (np_exp x)))
           (Some beta) (Some decay) j = Some summand /\
         preds !! (length (past_years yr) + j)%nat
         = Some (Some (PrimFloat.add last summand))) /\
    (forall j k, (j <= k)%nat -> (k < length (forecast_years yr))%nat ->
       exists sj sk,
         attenuated_slope (A := binary64_with (fun x => Some (np_exp x)))
           (Some beta) (Some decay) j = Some sj /\
         attenuated_slope (A := binary64_with (fun x => Some (np_exp x)))
           (Some beta) (Some decay) k = Some sk /\
         PrimFloat.leb PrimFloat.zero sk = true /\
         PrimFloat.leb sk sj = true).
Proof.
  intros Hd Hdpos Hb Hbpos HP HF.
  destruct (@predictions_shape _ (binary64_with (fun x => Some (np_exp x)))
              (Some alpha) (Some beta) yr (Some decay) HP)
    as (preds & Hok & Hlin & Hstep).
  exists preds. split; [exact Hok|]. split.
  - (* every value is a float, and a step adds the summand *)
    assert (Hsome : forall j, (j < length (forecast_years yr))%nat ->
              exists v, preds !! (length (past_years yr) + j)%nat = Some (Some v)).
    { induction j as [|j IH]; intros Hj;
        destruct (Hstep _ Hj) as (prev & Hprev & Hcur).
      - rewrite Nat.add_0_r in Hprev. rewrite Hlin in Hprev by lia.
        injection Hprev as <-. eexists. rewrite Hcur. reflexivity.
      - replace (length (past_years yr) + S j - 1)%nat
          with (length (past_years yr) + j)%nat in Hprev by lia.
        destruct (IH ltac:(lia)) as (v & Hv). rewrite Hv in Hprev.
        injection Hprev as <-. eexists. rewrite Hcur. reflexivity. }
    intros j Hj. destruct (Hstep _ Hj) as (prev & Hprev & Hcur).
    assert (Hp : exists last, prev = Some last).
    { destruct j as [|j].
      - rewrite Nat.add_0_r in Hprev. rewrite Hlin in Hprev by lia.
        injection Hprev as <-. eexists. reflexivity.
      - replace (length (past_years yr) + S j - 1)%nat
          with (length (past_years yr) + j)%nat in Hprev by lia.
        destruct (Hsome j ltac:(lia)) as (v & Hv). rewrite Hv in Hprev.
        injection Hprev as <-. eexists. reflexivity. }
    destruct Hp as (last & ->).
    exists last. eexists. split; [exact Hprev|]. split; [reflexivity|].
    rewrite Hcur. reflexivity.
  - intros j k Hjk Hk.
    destruct (decay_argument_order decay j k Hd Hdpos Hjk ltac:(lia)) as [Harg Hj0].
    destruct (decay_argument_order decay k k Hd Hdpos ltac:(lia) ltac:(lia)) as [_ Hk0].
    pose proof (np_exp_monotone _ _ Harg) as Hfac.
    pose proof (decay_factor_range _ Hj0) as Hrj.
    pose proof (decay_factor_range _ Hk0) as Hrk.
    destruct (mul_le_nonneg beta _ _
                (SF_nonneg_finite beta Hb (ltb_leb _ _ Hbpos)) Hrk Hrj Hfac)
      as [Hle H0].
    eexists. eexists. split; [reflexivity|]. split; [reflexivity|].
    split; [exact H0 | exact Hle].
Qed.

End Binary64Order.

(** ** Predictions in exact arithmetic *)

Section RealPredictions.
Local Open Scope R_scope.

Lemma increment_lookup (preds : list R) i x y :
  preds !! (i - 1)%nat = Some x -> preds !! i = Some y ->
  increment preds i = y - x.
Proof.
  intros Hx Hy. unfold increment.
  rewrite !nth_lookup, Hx, Hy. reflexivity.
Qed.

(** The attenuated slope is positive and strictly decreasing. *)
Lemma attenuation_decreasing beta decay j k :
  0 < decay -> 0 < beta -> (j < k)%nat ->
  0 < beta * exp (- decay * INR k) < beta * exp (- decay * INR j).
Proof.
  intros Hd Hb Hjk. split.
  - apply Rmult_lt_0_compat; [exact Hb | apply exp_pos].
  - apply Rmult_lt_compat_l; [exact Hb|].
    apply exp_increasing. apply lt_INR in Hjk. nra.
Qed.

(** Without rounding, for [decay > 0], [beta > 0] and [P >= 1], the
    increment of the sequence at forecast year [j] is
    [beta * exp (- decay * j)], and its magnitude is strictly decreasing
    in [j]. *)
Lemma forecast_increments_exact_arithmetic (alpha beta decay : R) yr :
  0 < decay -> 0 < beta -> (1 <= length (past_years yr))%nat ->
  exists preds,
    make_single_predictions alpha beta yr decay = Ok preds /\
    (forall j, (j < length (forecast_years yr))%nat ->
       increment preds (length (past_years yr) + j)
       = beta * exp (- (decay * INR j))) /\
    (forall j k, (j < k)%nat -> (k < length (forecast_years yr))%nat ->
       Rabs (increment preds (length (past_years yr) + k))
       < Rabs (increment preds (length (past_years yr) + j))).
Proof.
  intros Hd Hb HP.
  destruct (predictions_shape alpha beta yr decay HP)
    as (preds & Hok & _ & Hstep).
  exists preds. split; [exact Hok|].
  assert (Hinc : forall j, (j < length (forecast_years yr))%nat ->
            increment preds (length (past_years yr) + j)
            = beta * exp (- decay * INR j)).
  { intros j Hj. destruct (Hstep j Hj) as (prev & Hprev & Hcur).
    rewrite (increment_lookup _ _ _ _ Hprev Hcur). simpl. ring. }
  split.
  - intros j Hj. rewrite (Hinc j Hj). f_equal. f_equal. ring.
  - intros j k Hjk Hk. rewrite (Hinc k Hk), (Hinc j) by lia.
    destruct (attenuation_decreasing beta decay j k Hd Hb Hjk) as [H0 Hlt].
    rewrite !Rabs_pos_eq; lra.
Qed.

(** Without rounding the repeated addition is a product: in exact
    arithmetic, with [decay = 0], entry [P + j] is entry [P - 1] plus
    [beta * (j + 1)]. *)
Lemma zero_decay_exact_arithmetic (alpha beta : R) yr :
  (1 <= length (past_years yr))%nat ->
  exists preds last,
    make_single_predictions alpha beta yr 0 = Ok preds /\
    preds !! (length (past_years yr) - 1)%nat = Some last /\
    forall j, (j < length (forecast_years yr))%nat ->
      preds !! (length (past_years yr) + j)%nat
      = Some (last + beta * INR (j + 1)).
Proof.
  intros HP.
  destruct (predictions_shape alpha beta yr 0 HP)
    as (preds & Hok & Hlin & Hstep).
  exists preds, (alpha + beta * INR (length (past_years yr) - 1)).
  split; [exact Hok|]. split; [apply Hlin; lia|].
  induction j as [|j IH]; intros Hj;
    destruct (Hstep _ Hj) as (prev & Hprev & Hcur); rewrite Hcur.
  - rewrite Nat.add_0_r in Hprev. rewrite Hlin in Hprev by lia.
    injection Hprev as <-. simpl. f_equal.
    rewrite Rmult_0_r, exp_0. ring.
  - replace (length (past_years yr) + S j - 1)%nat
      with (length (past_years yr) + j)%nat in Hprev by lia.
    rewrite IH in Hprev by lia. injection Hprev as <-.
    f_equal. cbn [fadd fmul fneg fexp of_int R_arith].
    rewrite !Nat.add_1_r, !S_INR.
    replace (- 0 * (INR j + 1)) with 0 by ring. rewrite exp_0. ring.
Qed.

End RealPredictions.

(** ** The single-series fitter *)

Section FitterFacts.
Context {F : Type} `{Arith F}.
Local Open Scope float_scope.

Lemma add_constant_length (x : list nat) :
  length (add_constant (F := F) x) = length x.
Proof. unfold add_constant. apply length_map. Qed.

(** The fitter has no check of its own: on a series with at least one
    observation both library calls go through and the two parameters
    are unpacked. *)
Lemma get_lr_params_returns (ts : list F) :
  ts <> [] -> exists alpha beta, get_lr_params ts = Ok (alpha, beta).
Proof.
  intros Hts. unfold get_lr_params, OLS_fit_params.
  assert (Hlen : length (add_constant (F := F) (arange (length ts))) = length ts).
  { rewrite add_constant_length. apply length_seq. }
  destruct (add_constant (arange (length ts))) as [|r rows] eqn:Hx.
  - destruct ts; [congruence | discriminate Hlen].
  - rewrite Hlen, Nat.eqb_refl. simpl negb. cbv iota.
    destruct (feqb _ _); eauto.
Qed.

End FitterFacts.

Section RealFitter.
Local Open Scope R_scope.

Lemma fsum_snoc (l : list R) x : fsum (l ++ [x]) = fsum l + x.
Proof.
  unfold fsum. induction l as [|y l IH]; simpl in *.
  - ring.
  - rewrite IH. ring.
Qed.

(** Sums of the first [n] indices and of their squares. *)
Lemma sum_indices n :
  2 * fsum (map INR (seq 0 n)) = INR n * (INR n - 1).
Proof.
  induction n as [|n IH].
  - simpl. ring.
  - rewrite seq_S, map_app. cbn [map Nat.add].
    rewrite fsum_snoc, S_INR. lra.
Qed.

Lemma sum_squares n :
  6 * fsum (map (fun t => INR t * INR t) (seq 0 n))
  = (INR n - 1) * INR n * (2 * INR n - 1).
Proof.
  induction n as [|n IH].
  - simpl. ring.
  - rewrite seq_S, map_app. cbn [map Nat.add].
    rewrite fsum_snoc, S_INR. lra.
Qed.

(** The determinant of the normal equations of a line fit. *)
Lemma normal_det_pos n :
  (2 <= n)%nat ->
  0 < INR n * fsum (map (fun t => INR t * INR t) (seq 0 n))
      - fsum (map INR (seq 0 n)) * fsum (map INR (seq 0 n)).
Proof.
  intros Hn. pose proof (sum_indices n) as H1. pose proof (sum_squares n) as H2.
  apply le_INR in Hn. simpl in Hn.
  set (N := INR n) in *.
  set (T1 := fsum (map INR (seq 0 n))) in *.
  set (T2 := fsum (map (fun t => INR t * INR t) (seq 0 n))) in *.
  assert (HT1 : T1 = N * (N - 1) / 2) by lra.
  assert (HT2 : T2 = (N - 1) * N * (2 * N - 1) / 6) by lra.
  rewrite HT1, HT2.
  replace (N * ((N - 1) * N * (2 * N - 1) / 6) - N * (N - 1) / 2 * (N * (N - 1) / 2))
    with (N * N * (N - 1) * (N + 1) / 12) by field.
  unfold Rdiv. repeat apply Rmult_lt_0_compat; lra.
Qed.

Section Line.
Variables a b : R.

Lemma line_Scc (l : list nat) :
  fsum (map (fun r : R * R => fst r * fst r) (add_constant l)) = INR (length l).
Proof.
  unfold add_constant, fsum. induction l as [|t l IH].
  - reflexivity.
  - cbn [map foldr length]. rewrite IH, !S_INR. simpl. ring.
Qed.

Lemma line_Scx (l : list nat) :
  fsum (map (fun r : R * R => fst r * snd r) (add_constant l)) = fsum (map INR l).
Proof.
  unfold add_constant, fsum. induction l as [|t l IH].
  - reflexivity.
  - cbn [map foldr]. rewrite IH. simpl. ring.
Qed.

Lemma line_Sxx (l : list nat) :
  fsum (map (fun r : R * R => snd r * snd r) (add_constant l))
  = fsum (map (fun t => INR t * INR t) l).
Proof.
  unfold add_constant, fsum. induction l as [|t l IH].
  - reflexivity.
  - cbn [map foldr]. rewrite IH. reflexivity.
Qed.

Lemma line_Scy (l : list nat) :
  fsum (zip_with (fun (r : R * R) y => fst r * y) (add_constant l)
          (map (fun i => a + b * INR i) l))
  = a * INR (length l) + b * fsum (map INR l).
Proof.
  unfold add_constant, fsum. induction l as [|t l IH].
  - simpl. ring.
  - cbn [map zip_with foldr length]. rewrite IH, !S_INR. simpl. ring.
Qed.

Lemma line_Sxy (l : list nat) :
  fsum (zip_with (fun (r : R * R) y => snd r * y) (add_constant l)
          (map (fun i => a + b * INR i) l))
  = a * fsum (map INR l) + b * fsum (map (fun t => INR t * INR t) l).
Proof.
  unfold add_constant, fsum. induction l as [|t l IH].
  - simpl. ring.
  - cbn [map zip_with foldr]. rewrite IH. simpl. ring.
Qed.

Lemma get_lr_params_line n :
  (2 <= n)%nat ->
  get_lr_params (map (fun i => a + b * INR i) (seq 0 n)) = Ok (a, b).
Proof.
  intros Hn. unfold get_lr_params, OLS_fit_params.
  rewrite length_map, length_seq. unfold arange.
  destruct (add_constant (seq 0 n)) as [|r rows] eqn:Hx.
  { apply (f_equal length) in Hx.
    rewrite add_constant_length, length_seq in Hx. simpl in Hx. lia. }
  rewrite <- Hx, add_constant_length, length_seq, Nat.eqb_refl.
  simpl negb. cbv iota.
  rewrite line_Scc, line_Scx, line_Sxx, line_Scy, line_Sxy, length_seq.
  pose proof (normal_det_pos n Hn) as Hdet.
  set (N := INR n) in *.
  set (T1 := fsum (map INR (seq 0 n))) in *.
  set (T2 := fsum (map (fun t => INR t * INR t) (seq 0 n))) in *.
  cbn [fadd fsub fmul fdiv feqb of_int R_arith].
  destruct (Req_dec_T (N * T2 - T1 * T1) (INR 0)) as [Hz|Hnz].
  { simpl in Hz. lra. }
  f_equal. f_equal; field; lra.
Qed.
End Line.

(** *** The model of the library fit is the least squares fit *)

Lemma fsum_squares_nonneg (u v : R) (exog : list (R * R)) :
  0 <= fsum (map (fun r => (u * fst r + v * snd r) * (u * fst r + v * snd r)) exog).
Proof.
  unfold fsum. induction exog as [|r exog IH]; simpl in *.
  - lra.
  - pose proof (Rle_0_sqr (u * r.1 + v * r.2)) as Hsq. unfold Rsqr in Hsq. lra.
Qed.

Lemma quadratic_form_sum (u v : R) (exog : list (R * R)) :
  fsum (map (fun r => (u * fst r + v * snd r) * (u * fst r + v * snd r)) exog)
  = u * u * fsum (map (fun r => fst r * fst r) exog)
    + 2 * u * v * fsum (map (fun r => fst r * snd r) exog)
    + v * v * fsum (map (fun r => snd r * snd r) exog).
Proof.
  unfold fsum. induction exog as [|r exog IH]; simpl in *.
  - ring.
  - rewrite IH. ring.
Qed.

Lemma rss_expand (p q : R) (exog : list (R * R)) : forall endog : list R,
  length endog = length exog ->
  rss endog exog p q
  = fsum (map (fun y => y * y) endog)
    - 2 * p * fsum (zip_with (fun r y => fst r * y) exog endog)
    - 2 * q * fsum (zip_with (fun r y => snd r * y) exog endog)
    + fsum (map (fun r => (p * fst r + q * snd r) * (p * fst r + q * snd r)) exog).
Proof.
  unfold rss, fsum. induction exog as [|r exog IH]; intros [|y endog] Hlen;
    try discriminate Hlen; simpl in *.
  - ring.
  - rewrite IH by congruence. ring.
Qed.

(** On a design of full rank no line has a smaller residual sum of squares
    than the one of the parameters returned. *)
Lemma OLS_fit_params_least_squares (endog : list R) (exog : list (R * R)) a b :
  fsum (map (fun r => fst r * fst r) exog) * fsum (map (fun r => snd r * snd r) exog)
  - fsum (map (fun r => fst r * snd r) exog) * fsum (map (fun r => fst r * snd r) exog)
  <> 0 ->
  OLS_fit_params endog exog = Ok [a; b] ->
  forall p q, rss endog exog a b <= rss endog exog p q.
Proof.
  intros Hdet Hfit p q. unfold OLS_fit_params in Hfit.
  destruct exog as [|r0 rows] eqn:Hexog; [discriminate Hfit|]. rewrite <- Hexog in *.
  destruct (Nat.eqb (length endog) (length exog)) eqn:Hlen; [|discriminate Hfit].
  apply Nat.eqb_eq in Hlen. simpl negb in Hfit. cbv iota in Hfit.
  cbn [fadd fsub fmul fdiv feqb of_int R_arith] in Hfit.
  set (Scc := fsum (map (fun r => fst r * fst r) exog)) in *.
  set (Scx := fsum (map (fun r => fst r * snd r) exog)) in *.
  set (Sxx := fsum (map (fun r => snd r * snd r) exog)) in *.
  set (Scy := fsum (zip_with (fun r y => fst r * y) exog endog)) in *.
  set (Sxy := fsum (zip_with (fun r y => snd r * y) exog endog)) in *.
  destruct (Req_dec_T (Scc * Sxx - Scx * Scx) (INR 0)) as [Hz|_].
  { simpl in Hz. contradiction. }
  injection Hfit as <- <-.
  set (det := Scc * Sxx - Scx * Scx) in *.
  set (a := (Sxx * Scy - Scx * Sxy) / det).
  set (b := (Scc * Sxy - Scx * Scy) / det).
  assert (Hn1 : Scc * a + Scx * b = Scy) by (unfold a, b, det; field; exact Hdet).
  assert (Hn2 : Scx * a + Sxx * b = Sxy) by (unfold a, b, det; field; exact Hdet).
  rewrite !rss_expand by exact Hlen. rewrite !quadratic_form_sum.
  fold Scc Scx Sxx Scy Sxy.
  pose proof (fsum_squares_nonneg (p - a) (q - b) exog) as Hq.
  rewrite quadratic_form_sum in Hq. fold Scc Scx Sxx in Hq.
  rewrite <- Hn1, <- Hn2. nra.
Qed.

End RealFitter.

(** ** The store *)

Section StoreFacts.
Context {F : Type} `{Arith F} `{HasNaN F}.

Lemma bind_eq {A B} (m : M F A) (k : A -> M F B) h :
  (m ≫= k) h
  = match m h return result B * gmap addr (gmap cell F) with
    | (Ok x, h') => k x h'
    | (Raise e, h') => (Raise e, h')
    end.
Proof. reflexivity. Qed.

(** *** Loops *)

Lemma for_each_ext {A} (l : list A) (body body' : A -> M F unit) h :
  (forall x h, body x h = body' x h) ->
  for_each l body h = for_each l body' h.
Proof.
  intros Hext. revert h. induction l as [|x l IH]; intros h; simpl.
  - reflexivity.
  - rewrite !bind_eq, Hext. destruct (body' x h) as [[[]|e] h']; auto.
Qed.

Lemma for_each_app {A} (l1 l2 : list A) (body : A -> M F unit) h :
  for_each (l1 ++ l2) body h = (for_each l1 body;; for_each l2 body) h.
Proof.
  revert h. induction l1 as [|x l1 IH]; intros h; simpl.
  - reflexivity.
  - rewrite !bind_eq. destruct (body x h) as [[[]|e] h']; [|reflexivity].
    rewrite IH, bind_eq. reflexivity.
Qed.

Lemma for_each_bind {A B} (l : list A) (f : A -> list B) (body : B -> M F unit) h :
  for_each (l ≫= f) body h = for_each l (fun x => for_each (f x) body) h.
Proof.
  revert h. induction l as [|x l IH]; intros h.
  - reflexivity.
  - rewrite bind_cons, for_each_app. simpl. rewrite !bind_eq.
    destruct (for_each (f x) body h) as [[[]|e] h']; [apply IH | reflexivity].
Qed.

Lemma for_each_singleton {A} (x : A) (body : A -> M F unit) h :
  for_each [x] body h = body x h.
Proof. simpl. rewrite bind_eq. destruct (body x h) as [[[]|e] h']; reflexivity. Qed.

(** The three nested loops visit the combinations of [product]. *)
Lemma for_each_product sexes ages locations (body : combo -> M F unit) h :
  for_each sexes (fun sex =>
    for_each ages (fun age =>
      for_each locations (fun loc => body (sex, age, loc)))) h
  = for_each (product sexes ages locations) body h.
Proof.
  unfold product. rewrite for_each_bind.
  apply for_each_ext. intros sex h1. rewrite for_each_bind.
  apply for_each_ext. intros age h2. rewrite for_each_bind.
  apply for_each_ext. intros loc h3. rewrite for_each_singleton. reflexivity.
Qed.

Lemma elem_of_product sexes ages locations sex age loc :
  (sex, age, loc) ∈ product sexes ages locations
  <-> sex ∈ sexes /\ age ∈ ages /\ loc ∈ locations.
Proof.
  unfold product. rewrite list_elem_of_bind. split.
  - intros (s & Hin & Hs). rewrite list_elem_of_bind in Hin.
    destruct Hin as (a & Hin & Ha). rewrite list_elem_of_bind in Hin.
    destruct Hin as (l & Hin & Hl). apply list_elem_of_singleton in Hin.
    injection Hin as -> -> ->. auto.
  - intros (Hs & Ha & Hl). exists sex. split; [|exact Hs].
    rewrite list_elem_of_bind. exists age. split; [|exact Ha].
    rewrite list_elem_of_bind. exists loc. split; [|exact Hl].
    apply list_elem_of_singleton. reflexivity.
Qed.

Lemma product_nil sexes ages locations :
  sexes = [] \/ ages = [] \/ locations = [] ->
  product sexes ages locations = [].
Proof.
  intros Hempty.
  destruct (product sexes ages locations) as [|[[s a] l] cs] eqn:Hp; [reflexivity|].
  assert (Hin : (s, a, l) ∈ product sexes ages locations)
    by (rewrite Hp; apply elem_of_cons; left; reflexivity).
  apply elem_of_product in Hin. destruct Hin as (Hs & Ha & Hl).
  destruct Hempty as [-> | [-> | ->]];
    [ apply not_elem_of_nil in Hs | apply not_elem_of_nil in Ha
    | apply not_elem_of_nil in Hl ]; contradiction.
Qed.

End StoreFacts.

(** ** No array of the caller is written *)

Section Frame.
Context {F : Type} `{Arith F} `{HasNaN F}.
Variable h0 : gmap addr (gmap cell F).

Lemma keeps_ret {A} (x : A) (Q : A -> Prop) : Q x -> keeps h0 (mret x) Q.
Proof. intros HQ h Hh. split; [exact Hh|]. intros y [= <-]. exact HQ. Qed.

Lemma keeps_lift {A} (r : result A) (Q : A -> Prop) :
  (forall x, r = Ok x -> Q x) -> keeps h0 (lift r) Q.
Proof. intros HQ h Hh. split; [exact Hh | exact HQ]. Qed.

Lemma keeps_bind {A B} (m : M F A) (k : A -> M F B) Q Q' :
  keeps h0 m Q -> (forall x, Q x -> keeps h0 (k x) Q') ->
  keeps h0 (m ≫= k) Q'.
Proof.
  intros Hm Hk h Hh. rewrite bind_eq.
  destruct (Hm h Hh) as [Hsub HQ].
  destruct (m h) as [[x|e] h1]; simpl in *.
  - apply Hk; [apply HQ; reflexivity | exact Hsub].
  - split; [exact Hsub | discriminate].
Qed.

Lemma keeps_load a : keeps h0 (load a) (fun _ => True).
Proof.
  intros h Hh. unfold load. destruct (h !! a); simpl; auto.
Qed.

Lemma keeps_alloc b : keeps h0 (alloc b) (fun a => a ∉ dom h0).
Proof.
  intros h Hh. unfold alloc. simpl.
  assert (Hfresh : fresh (dom h) ∉ dom h0).
  { intros Hin. apply (is_fresh (dom h)).
    apply (subseteq_dom h0 h Hh), Hin. }
  split.
  - apply insert_subseteq_r; [|exact Hh].
    apply not_elem_of_dom, Hfresh.
  - intros x [= <-]. exact Hfresh.
Qed.

Lemma keeps_put a b : a ∉ dom h0 -> keeps h0 (put a b) (fun _ => True).
Proof.
  intros Ha h Hh. unfold put. destruct (h !! a); simpl; [|auto].
  split; [|auto]. apply insert_subseteq_r; [|exact Hh].
  apply not_elem_of_dom, Ha.
Qed.

Lemma keeps_for_each {A} (l : list A) (body : A -> M F unit) :
  (forall x, keeps h0 (body x) (fun _ => True)) ->
  keeps h0 (for_each l body) (fun _ => True).
Proof.
  intros Hbody. induction l as [|x l IH]; simpl.
  - apply keeps_ret. exact I.
  - eapply keeps_bind; [apply Hbody | intros _ _; exact IH].
Qed.

(** *** The array operations *)

Lemma keeps_view_times v x :
  keeps h0 (view_times v x) (fun pa => p_data pa ∉ dom h0).
Proof.
  unfold view_times.
  eapply keeps_bind; [apply keeps_load | intros b _].
  eapply keeps_bind; [apply keeps_lift; intros; exact I | intros vs _].
  eapply keeps_bind; [apply keeps_alloc | intros a Ha].
  apply keeps_ret. exact Ha.
Qed.

Lemma keeps_copy pa : keeps h0 (copy pa) (fun pa' => p_data pa' ∉ dom h0).
Proof.
  unfold copy.
  eapply keeps_bind; [apply keeps_load | intros b _].
  eapply keeps_bind; [apply keeps_alloc | intros a Ha].
  apply keeps_ret. exact Ha.
Qed.

Lemma keeps_loc_values da c : keeps h0 (loc_values da c) (fun _ => True).
Proof.
  unfold loc_values.
  eapply keeps_bind; [apply keeps_load | intros b _].
  apply keeps_lift. auto.
Qed.

Lemma keeps_loc_value pa c : keeps h0 (loc_value pa c) (fun _ => True).
Proof.
  unfold loc_value.
  eapply keeps_bind; [apply keeps_load | intros b _].
  destruct (b !! (c, None)); [apply keeps_ret | apply keeps_lift]; auto.
Qed.

Lemma keeps_set_loc pa c v :
  p_data pa ∉ dom h0 -> keeps h0 (set_loc pa c v) (fun _ => True).
Proof.
  intros Hpa. unfold set_loc.
  eapply keeps_bind; [apply keeps_load | intros b _].
  eapply keeps_bind; [apply keeps_lift; intros; exact I | intros b' _].
  apply keeps_put, Hpa.
Qed.

Lemma keeps_set_loc_series da c vs :
  data da ∉ dom h0 -> keeps h0 (set_loc_series da c vs) (fun _ => True).
Proof.
  intros Hda. unfold set_loc_series.
  eapply keeps_bind; [apply keeps_load | intros b _].
  eapply keeps_bind; [apply keeps_lift; intros; exact I | intros b' _].
  apply keeps_put, Hda.
Qed.

Lemma keeps_times_years pa year_da :
  keeps h0 (times_years pa year_da)
    (fun da => (data da ∉ dom h0) /\ sex_id da = p_sex_id pa /\
               age_group_id da = p_age_group_id pa /\
               location_id da = p_location_id pa).
Proof.
  unfold times_years.
  eapply keeps_bind; [apply keeps_load | intros b _].
  eapply keeps_bind; [apply keeps_lift; intros; exact I | intros vs _].
  eapply keeps_bind; [apply keeps_alloc | intros a Ha].
  apply keeps_ret. auto.
Qed.

Lemma keeps_times_scalar da x :
  keeps h0 (times_scalar da x) (fun da' => data da' ∉ dom h0).
Proof.
  unfold times_scalar.
  eapply keeps_bind; [apply keeps_load | intros b _].
  eapply keeps_bind; [apply keeps_alloc | intros a Ha].
  apply keeps_ret. exact Ha.
Qed.

(** *** The two entry points *)

Lemma keeps_get_all_lr_params da :
  keeps h0 (get_all_lr_params da)
    (fun ds => (p_data (ds_alpha ds) ∉ dom h0) /\ (p_data (ds_beta ds) ∉ dom h0)).
Proof.
  unfold get_all_lr_params.
  eapply keeps_bind; [apply keeps_lift; intros; exact I | intros ymin _].
  eapply keeps_bind; [apply keeps_lift; intros; exact I | intros v _].
  eapply keeps_bind; [apply keeps_view_times | intros param_da _].
  eapply keeps_bind; [apply keeps_copy | intros alpha_da Ha].
  eapply keeps_bind; [apply keeps_copy | intros beta_da Hb].
  eapply keeps_bind; [|intros _ _; apply keeps_ret; auto].
  apply keeps_for_each. intros sex.
  apply keeps_for_each. intros age.
  apply keeps_for_each. intros loc.
  eapply keeps_bind; [apply keeps_loc_values | intros ts _].
  eapply keeps_bind; [apply keeps_lift; intros; exact I | intros ab _].
  eapply keeps_bind; [apply keeps_set_loc, Ha | intros _ _].
  apply keeps_set_loc, Hb.
Qed.

Lemma keeps_get_decayed_drift_preds eps_da yr decay :
  keeps h0 (get_decayed_drift_preds eps_da yr decay)
    (fun pred_da => data pred_da ∉ dom h0).
Proof.
  unfold get_decayed_drift_preds.
  eapply keeps_bind; [apply keeps_get_all_lr_params | intros params _].
  eapply keeps_bind; [apply keeps_times_years | intros tmp _].
  eapply keeps_bind; [apply keeps_times_scalar | intros pred_da Hp].
  eapply keeps_bind; [|intros _ _; apply keeps_ret; auto].
  apply keeps_for_each. intros sex.
  apply keeps_for_each. intros age.
  apply keeps_for_each. intros loc.
  eapply keeps_bind; [apply keeps_loc_value | intros alpha _].
  eapply keeps_bind; [apply keeps_loc_value | intros beta _].
  eapply keeps_bind; [apply keeps_lift; intros; exact I | intros preds _].
  apply keeps_set_loc_series, Hp.
Qed.

End Frame.

Section NoMutation.
Context {F : Type} `{Arith F} `{HasNaN F}.

(** C5.  Whatever the input array, the year range and the decay rate,
    and whether the call returns or raises, every array of the store
    the call starts from, the input among them, has the same cells
    afterwards; the arrays of a returned collection or array are new,
    at addresses the store did not have. *)
Theorem inputs_not_mutated (da : DataArray) (yr : YearRange) (decay : F)
    (h : gmap addr (gmap cell F)) :
  ((forall a b, h !! a = Some b -> (get_all_lr_params da h).2 !! a = Some b) /\
   (forall ds, (get_all_lr_params da h).1 = Ok ds ->
      (p_data (ds_alpha ds) ∉ dom h) /\ (p_data (ds_beta ds) ∉ dom h))) /\
  ((forall a b, h !! a = Some b ->
      (get_decayed_drift_preds da yr decay h).2 !! a = Some b) /\
   (forall pred_da, (get_decayed_drift_preds da yr decay h).1 = Ok pred_da ->
      data pred_da ∉ dom h)).
Proof.
  split.
  - destruct (keeps_get_all_lr_params h da h) as [Hsub Hnew]; [reflexivity|].
    split; [|exact Hnew]. intros a b. revert a b.
    apply map_subseteq_spec, Hsub.
  - destruct (keeps_get_decayed_drift_preds h da yr decay h) as [Hsub Hnew];
      [reflexivity|].
    split; [|exact Hnew]. intros a b. revert a b.
    apply map_subseteq_spec, Hsub.
Qed.

End NoMutation.

(** ** The grid fitter *)

Section GridFitter.
Context {F : Type} `{Arith F} `{HasNaN F}.
Implicit Types (h : gmap addr (gmap cell F)) (b m : gmap cell F).

Lemma np_min_elem labels y : np_min labels = Ok y -> y ∈ labels.
Proof.
  destruct labels as [|y0 ys]; simpl; [discriminate|]. intros [= <-].
  revert y0. induction ys as [|y1 ys IH]; intros y0; simpl.
  - apply elem_of_cons. left. reflexivity.
  - pose proof (IH (Z.min y0 y1)) as Hin. apply elem_of_cons in Hin.
    destruct Hin as [Heq | Hin].
    + rewrite Heq. destruct (Z.min_spec y0 y1) as [[_ ->] | [_ ->]].
      * apply elem_of_cons. left. reflexivity.
      * apply elem_of_cons. right. apply elem_of_cons. left. reflexivity.
    + apply elem_of_cons. right. apply elem_of_cons. right. exact Hin.
Qed.

Lemma get_cells_length b ks vs : get_cells b ks = Ok vs -> length vs = length ks.
Proof.
  unfold get_cells. destruct (mapM _ ks) as [vs'|] eqn:Hm; [|discriminate].
  intros [= <-]. symmetry. eapply length_mapM, Hm.
Qed.

Lemma get_cells_ok b ks :
  Forall (fun k => is_Some (b !! k)) ks -> exists vs, get_cells b ks = Ok vs.
Proof.
  intros Hall. unfold get_cells.
  destruct (mapM_is_Some_2 (fun k => b !! k) ks Hall) as [vs ->]. eauto.
Qed.

Lemma set_cells_one b k v :
  is_Some (b !! k) -> set_cells b [(k, v)] = Ok (<[k := v]> b).
Proof.
  intros Hk. unfold set_cells. simpl.
  rewrite bool_decide_eq_true_2 by exact Hk. reflexivity.
Qed.

Lemma set_loc_run pa c v h m :
  h !! p_data pa = Some m -> is_Some (m !! (c, None)) ->
  set_loc pa c v h = (Ok tt, <[p_data pa := <[(c, None) := v]> m]> h).
Proof.
  intros Hm Hc. unfold set_loc, load, put.
  rewrite !bind_eq, Hm. unfold lift. rewrite (set_cells_one _ _ _ Hc).
  simpl. rewrite !bind_eq. simpl. rewrite Hm. reflexivity.
Qed.

Lemma loc_values_run da c h b :
  h !! data da = Some b ->
  loc_values da c h
  = (get_cells b (map (fun y => (c, Some y)) (year_id da)), h).
Proof.
  intros Hb. unfold loc_values, load. rewrite bind_eq, Hb. reflexivity.
Qed.

Section Loop.
Variables (da : DataArray) (param_ds : Dataset) (b0 : gmap cell F).
Let aα := p_data (ds_alpha param_ds).
Let aβ := p_data (ds_beta param_ds).
Hypothesis Hαβ : aα <> aβ.
Hypothesis Hα : data da <> aα.
Hypothesis Hβ : data da <> aβ.

(** One iteration: the two parameters of the combination are written,
    or the fit raises and nothing is. *)
Lemma fit_body_run c h mα mβ :
  h !! data da = Some b0 -> h !! aα = Some mα -> h !! aβ = Some mβ ->
  is_Some (mα !! (c, None)) -> is_Some (mβ !! (c, None)) ->
  fit_body da param_ds c h
  = match fit_of b0 da c with
    | Ok ab => (Ok tt, <[aβ := <[(c, None) := ab.2]> mβ]>
                         (<[aα := <[(c, None) := ab.1]> mα]> h))
    | Raise e => (Raise e, h)
    end.
Proof.
  intros Hb Hmα Hmβ Hcα Hcβ. unfold fit_body, fit_of.
  rewrite bind_eq, (loc_values_run _ _ _ _ Hb).
  destruct (get_cells b0 _) as [ts|e]; [|reflexivity].
  rewrite bind_eq. unfold lift. simpl.
  destruct (get_lr_params ts) as [ab|e]; [|reflexivity].
  rewrite bind_eq, (set_loc_run _ _ _ _ _ Hmα Hcα).
  apply set_loc_run; [|exact Hcβ].
  fold aα aβ. rewrite lookup_insert_ne by exact Hαβ. exact Hmβ.
Qed.

(** The loop: every combination it has visited holds its fit; the
    other cells and the other arrays are as before. *)
Lemma fit_loop l : forall h mα mβ,
  h !! data da = Some b0 -> h !! aα = Some mα -> h !! aβ = Some mβ ->
  (forall c, c ∈ l -> (c, None) ∈ dom mα /\ (c, None) ∈ dom mβ) ->
  match for_each l (fit_body da param_ds) h with
  | (Ok _, h') =>
      exists mα' mβ',
        h' !! data da = Some b0 /\ h' !! aα = Some mα' /\ h' !! aβ = Some mβ' /\
        dom mα' = dom mα /\ dom mβ' = dom mβ /\
        (forall c, c ∈ l -> exists ab, fit_of b0 da c = Ok ab /\
           mα' !! (c, None) = Some ab.1 /\ mβ' !! (c, None) = Some ab.2) /\
        (forall c, c ∉ l ->
           mα' !! (c, None) = mα !! (c, None) /\
           mβ' !! (c, None) = mβ !! (c, None))
  | (Raise e, _) => exists c, c ∈ l /\ fit_of b0 da c = Raise e
  end.
Proof.
  induction l as [|c l IH]; intros h mα mβ Hb Hmα Hmβ Hdom.
  - simpl. exists mα, mβ. repeat split; auto.
    intros c Hc. apply elem_of_nil in Hc. contradiction.
  - cbn [for_each]. rewrite bind_eq.
    destruct (Hdom c) as [Hcα Hcβ]; [apply elem_of_cons; auto|].
    rewrite (fit_body_run c h mα mβ Hb Hmα Hmβ)
      by (apply elem_of_dom; assumption).
    destruct (fit_of b0 da c) as [ab|e] eqn:Hfit.
    2:{ exists c. split; [apply elem_of_cons; auto | exact Hfit]. }
    set (mα1 := <[(c, None) := ab.1]> mα).
    set (mβ1 := <[(c, None) := ab.2]> mβ).
    assert (Hdα : dom mα1 = dom mα).
    { apply dom_insert_lookup_L, elem_of_dom, Hcα. }
    assert (Hdβ : dom mβ1 = dom mβ).
    { apply dom_insert_lookup_L, elem_of_dom, Hcβ. }
    specialize (IH (<[aβ := mβ1]> (<[aα := mα1]> h)) mα1 mβ1).
    destruct (for_each l _ _) as [[[]|e] h'].
    + destruct IH as (mα' & mβ' & Hb' & Hα' & Hβ' & Hdα' & Hdβ' & Hin & Hout).
      { rewrite !lookup_insert_ne by (apply not_eq_sym; assumption). exact Hb. }
      { rewrite lookup_insert_ne by (apply not_eq_sym; exact Hαβ).
        apply lookup_insert_eq. }
      { apply lookup_insert_eq. }
      { intros c' Hc'. rewrite Hdα, Hdβ. apply Hdom, elem_of_cons. auto. }
      exists mα', mβ'.
      split; [exact Hb'|]. split; [exact Hα'|]. split; [exact Hβ'|].
      split; [congruence|]. split; [congruence|]. split.
      * intros c' Hc'. destruct (decide (c' ∈ l)) as [Hl|Hl]; [apply Hin, Hl|].
        apply elem_of_cons in Hc'. destruct Hc' as [->|Hc']; [|contradiction].
        exists ab. destruct (Hout c Hl) as [-> ->].
        unfold mα1, mβ1. rewrite !lookup_insert_eq. auto.
      * intros c' Hc'. apply not_elem_of_cons in Hc'. destruct Hc' as [Hne Hl].
        destruct (Hout c' Hl) as [-> ->]. unfold mα1, mβ1.
        rewrite !lookup_insert_ne by congruence. auto.
    + destruct IH as (c' & Hc' & Hfit').
      { rewrite !lookup_insert_ne by (apply not_eq_sym; assumption). exact Hb. }
      { rewrite lookup_insert_ne by (apply not_eq_sym; exact Hαβ).
        apply lookup_insert_eq. }
      { apply lookup_insert_eq. }
      { intros c'' Hc''. rewrite Hdα, Hdβ. apply Hdom, elem_of_cons. auto. }
      exists c'. split; [apply elem_of_cons; auto | exact Hfit'].
Qed.
End Loop.

End GridFitter.

Section GridRun.
Context {F : Type} `{Arith F} `{HasNaN F}.
Implicit Types (h : gmap addr (gmap cell F)) (b m : gmap cell F).

Lemma copy_run pa h m :
  h !! p_data pa = Some m ->
  copy pa h
  = (Ok {| p_sex_id := p_sex_id pa; p_age_group_id := p_age_group_id pa;
           p_location_id := p_location_id pa; p_data := fresh (dom h) |},
     <[fresh (dom h) := m]> h).
Proof.
  intros Hm. unfold copy, load, alloc. rewrite !bind_eq, Hm. reflexivity.
Qed.

Lemma view_times_run da y x h b vs :
  h !! data da = Some b ->
  get_cells b (map (fun c => (c, Some y)) (combos da)) = Ok vs ->
  view_times {| v_base := da; v_year := y |} x h
  = (Ok {| p_sex_id := sex_id da; p_age_group_id := age_group_id da;
           p_location_id := location_id da; p_data := fresh (dom h) |},
     <[fresh (dom h) :=
         list_to_map (zip (map (fun c => (c, None)) (combos da))
                          (map (fun v => fmul v x) vs))]> h).
Proof.
  intros Hb Hvs. unfold view_times, load, alloc, lift. cbn [v_base v_year].
  rewrite !bind_eq, Hb. rewrite Hvs. reflexivity.
Qed.

Lemma wf_array_cells h da b y :
  wf_array h da -> h !! data da = Some b -> y ∈ year_id da ->
  Forall (fun k => is_Some (b !! k)) (map (fun c => (c, Some y)) (combos da)).
Proof.
  intros (b' & Hb' & Hall) Hb Hy. rewrite Hb in Hb'. injection Hb' as <-.
  apply Forall_fmap. eapply Forall_impl; [exact Hall|].
  intros c Hc. simpl. rewrite Forall_forall in Hc. apply Hc, Hy.
Qed.

Lemma wf_array_series h da b c :
  wf_array h da -> h !! data da = Some b -> c ∈ combos da ->
  Forall (fun k => is_Some (b !! k)) (map (fun y => (c, Some y)) (year_id da)).
Proof.
  intros (b' & Hb' & Hall) Hb Hc. rewrite Hb in Hb'. injection Hb' as <-.
  apply Forall_fmap. rewrite Forall_forall in Hall. apply (Hall c Hc).
Qed.

Lemma get_all_lr_params_run da h :
  match get_all_lr_params da h with
  | (Ok ds, h') =>
      exists b0 mα mβ,
        h !! data da = Some b0 /\ year_id da <> [] /\
        h' !! p_data (ds_alpha ds) = Some mα /\
        h' !! p_data (ds_beta ds) = Some mβ /\
        p_combos (ds_alpha ds) = combos da /\
        p_combos (ds_beta ds) = combos da /\
        dom mα = list_to_set (map (fun c => (c, None)) (combos da)) /\
        dom mβ = list_to_set (map (fun c => (c, None)) (combos da)) /\
        forall c, c ∈ combos da ->
          exists ab, fit_of b0 da c = Ok ab /\
            mα !! (c, None) = Some ab.1 /\ mβ !! (c, None) = Some ab.2
  | (Raise e, _) => ~ (wf_array h da /\ year_id da <> [])
  end.
Proof.
  unfold get_all_lr_params. rewrite bind_eq. unfold lift at 1.
  destruct (np_min (year_id da)) as [ymin|e] eqn:Hmin.
  2:{ intros [_ Hy]. destruct (year_id da); [congruence | discriminate Hmin]. }
  assert (Hyears : year_id da <> []).
  { intros E. rewrite E in Hmin. discriminate Hmin. }
  pose proof (np_min_elem _ _ Hmin) as Hymin.
  rewrite bind_eq. unfold lift at 1, sel_year.
  rewrite bool_decide_eq_true_2 by exact Hymin. unfold drop_year.
  rewrite bind_eq.
  destruct (h !! data da) as [b0|] eqn:Hb0.
  2:{ unfold view_times, load. cbn [v_base v_year]. rewrite bind_eq, Hb0.
      intros [(b & Hb & _) _]. congruence. }
  destruct (get_cells b0 (map (fun c => (c, Some ymin)) (combos da)))
    as [vs|e] eqn:Hvs.
  2:{ unfold view_times, load, lift. cbn [v_base v_year].
      rewrite !bind_eq, Hb0, Hvs.
      intros [Hwf _].
      destruct (get_cells_ok _ _ (wf_array_cells _ _ _ _ Hwf Hb0 Hymin)) as [vs Hvs'].
      congruence. }
  rewrite (view_times_run _ _ _ _ _ _ Hb0 Hvs).
  set (m0 := list_to_map _).
  set (a0 := fresh (dom h)).
  set (h1 := <[a0 := m0]> h).
  rewrite bind_eq, (copy_run _ h1 m0) by apply lookup_insert_eq.
  cbn [p_sex_id p_age_group_id p_location_id p_data].
  set (a1 := fresh (dom h1)).
  set (h2 := <[a1 := m0]> h1).
  assert (Hda : data da ∈ dom h) by (apply elem_of_dom; eauto).
  assert (Ha0 : a0 ∉ dom h) by apply is_fresh.
  assert (Ha1 : a1 ∉ dom h1) by apply is_fresh.
  assert (Hd1 : dom h1 = {[a0]} ∪ dom h) by apply dom_insert_L.
  assert (Hd2 : dom h2 = {[a1]} ∪ dom h1) by apply dom_insert_L.
  rewrite bind_eq, (copy_run _ h2 m0).
  2:{ unfold h2. rewrite lookup_insert_ne; [apply lookup_insert_eq|].
      cbn [p_data]. intros E. apply Ha1. rewrite Hd1, E.
      apply elem_of_union_l, elem_of_singleton. reflexivity. }
  cbn [p_sex_id p_age_group_id p_location_id p_data].
  set (a2 := fresh (dom h2)).
  set (h3 := <[a2 := m0]> h2).
  assert (Ha2 : a2 ∉ dom h2) by apply is_fresh.
  set (ds := {| ds_alpha := {| p_data := a1 |}; ds_beta := {| p_data := a2 |} |}).
  rewrite bind_eq.
  change (for_each (sex_id da) _ h3)
    with (for_each (sex_id da) (fun sex =>
            for_each (age_group_id da) (fun age =>
              for_each (location_id da) (fun loc =>
                fit_body da ds (sex, age, loc)))) h3).
  rewrite for_each_product. fold (combos da).
  assert (Hdom : dom m0 = list_to_set (map (fun c => (c, None)) (combos da))).
  { unfold m0. rewrite dom_list_to_map_L, fst_zip; [reflexivity|].
    rewrite !length_map, (get_cells_length _ _ _ Hvs), length_map. lia. }
  assert (Hne0 : a0 <> a2).
  { intros E. apply Ha2. rewrite Hd2, Hd1, <- E.
    apply elem_of_union_r, elem_of_union_l, elem_of_singleton. reflexivity. }
  assert (Hne1 : a1 <> a2).
  { intros E. apply Ha2. rewrite Hd2, <- E.
    apply elem_of_union_l, elem_of_singleton. reflexivity. }
  assert (Hne2 : data da <> a1).
  { intros E. apply Ha1. rewrite Hd1, <- E. apply elem_of_union_r, Hda. }
  assert (Hne3 : data da <> a2).
  { intros E. apply Ha2. rewrite Hd2, Hd1, <- E.
    apply elem_of_union_r, elem_of_union_r, Hda. }
  assert (Hne4 : data da <> a0).
  { intros E. apply Ha0. rewrite <- E. exact Hda. }
  assert (Hh3b : h3 !! data da = Some b0).
  { unfold h3, h2, h1. rewrite !lookup_insert_ne by congruence. exact Hb0. }
  assert (Hh3α : h3 !! a1 = Some m0).
  { unfold h3, h2. rewrite lookup_insert_ne by congruence. apply lookup_insert_eq. }
  assert (Hh3β : h3 !! a2 = Some m0) by apply lookup_insert_eq.
  assert (Hkeys : forall c, c ∈ combos da ->
            (c, None) ∈ dom m0 /\ (c, None) ∈ dom m0).
  { intros c Hc. rewrite Hdom, elem_of_list_to_set, list_elem_of_fmap.
    split; exists c; auto. }
  pose proof (fit_loop da ds b0 Hne1 Hne2 Hne3 (combos da) h3 m0 m0
                Hh3b Hh3α Hh3β Hkeys) as Hloop.
  cbn [ds ds_alpha ds_beta p_data] in Hloop.
  destruct (for_each (combos da) (fit_body da ds) h3) as [[[]|e] h'].
  - destruct Hloop as (mα & mβ & _ & Hα & Hβ & Hdα & Hdβ & Hin & _).
    exists b0, mα, mβ. cbn [ds_alpha ds_beta p_data].
    repeat split; auto; congruence.
  - destruct Hloop as (c & Hc & Hfit).
    intros [Hwf _]. unfold fit_of in Hfit.
    destruct (get_cells_ok _ _ (wf_array_series _ _ _ _ Hwf Hb0 Hc)) as [ts Hts].
    rewrite Hts in Hfit. simpl in Hfit.
    destruct (get_lr_params_returns ts) as (al & be & Hok); [|congruence].
    apply get_cells_length in Hts. rewrite length_map in Hts.
    destruct ts; [|discriminate]. destruct (year_id da); [congruence|discriminate].
Qed.
End GridRun.

Section GridClaims.
Context {F : Type} `{Arith F} `{HasNaN F}.
Implicit Types (h : gmap addr (gmap cell F)) (b m : gmap cell F).

Lemma elem_of_cell_keys (k : cell) da :
  k ∈ (list_to_set (map (fun c => (c, None)) (combos da)) : gset cell)
  <-> exists sex age loc,
        k = ((sex, age, loc), None) /\
        sex ∈ sex_id da /\ age ∈ age_group_id da /\ loc ∈ location_id da.
Proof.
  rewrite elem_of_list_to_set, list_elem_of_fmap. split.
  - intros ([[sex age] loc] & -> & Hc). apply elem_of_product in Hc.
    exists sex, age, loc. auto.
  - intros (sex & age & loc & -> & Hc). exists (sex, age, loc).
    split; [reflexivity | apply elem_of_product, Hc].
Qed.

(** C3.  A call on an array of the store with at least one year returns,
    and whenever a call returns, the cells of [alpha] and of [beta] are
    at exactly the combinations of one [sex_id], one [age_group_id] and
    one [location_id] label of the input, each holding what
    [get_lr_params] returns on the series of that combination. *)
Theorem get_all_lr_params_product (da : DataArray) h :
  (wf_array h da -> year_id da <> [] ->
     exists ds h', get_all_lr_params da h = (Ok ds, h')) /\
  (forall ds h', get_all_lr_params da h = (Ok ds, h') ->
     exists b0 mα mβ,
       h !! data da = Some b0 /\
       h' !! p_data (ds_alpha ds) = Some mα /\
       h' !! p_data (ds_beta ds) = Some mβ /\
       (forall k, k ∈ dom mα <-> exists sex age loc,
          k = ((sex, age, loc), None) /\
          sex ∈ sex_id da /\ age ∈ age_group_id da /\ loc ∈ location_id da) /\
       (forall k, k ∈ dom mβ <-> exists sex age loc,
          k = ((sex, age, loc), None) /\
          sex ∈ sex_id da /\ age ∈ age_group_id da /\ loc ∈ location_id da) /\
       (forall sex age loc,
          sex ∈ sex_id da -> age ∈ age_group_id da -> loc ∈ location_id da ->
          exists ab, fit_of b0 da (sex, age, loc) = Ok ab /\
            mα !! ((sex, age, loc), None) = Some ab.1 /\
            mβ !! ((sex, age, loc), None) = Some ab.2)).
Proof.
  pose proof (get_all_lr_params_run da h) as Hrun. split.
  - intros Hwf Hy. destruct (get_all_lr_params da h) as [[ds|e] h'].
    + eauto.
    + exfalso. apply Hrun. auto.
  - intros ds h' Heq. rewrite Heq in Hrun.
    destruct Hrun as (b0 & mα & mβ & Hb0 & _ & Hα & Hβ & _ & _ & Hdα & Hdβ & Hfit).
    exists b0, mα, mβ. repeat (split; [assumption|]).
    split; [|split].
    + intros k. rewrite Hdα. apply elem_of_cell_keys.
    + intros k. rewrite Hdβ. apply elem_of_cell_keys.
    + intros sex age loc Hs Ha Hl. apply Hfit, elem_of_product. auto.
Qed.

Lemma times_years_run pa year_da h b vs :
  h !! p_data pa = Some b ->
  get_cells b (map (fun c => (c, None)) (p_combos pa)) = Ok vs ->
  times_years pa year_da h
  = (Ok {| year_id := year_da.*1; sex_id := p_sex_id pa;
           age_group_id := p_age_group_id pa;
           location_id := p_location_id pa; data := fresh (dom h) |},
     <[fresh (dom h) :=
         list_to_map (cv ← zip (p_combos pa) vs;
                      yo ← year_da;
                      [((cv.1, Some yo.1), fmul cv.2 yo.2)])]> h).
Proof.
  intros Hb Hvs. unfold times_years, load, alloc, lift.
  rewrite !bind_eq, Hb. rewrite Hvs. reflexivity.
Qed.

Lemma times_scalar_run da x h b :
  h !! data da = Some b ->
  times_scalar da x h
  = (Ok {| year_id := year_id da; sex_id := sex_id da;
           age_group_id := age_group_id da;
           location_id := location_id da; data := fresh (dom h) |},
     <[fresh (dom h) := (fun y => fmul y x) <$> b]> h).
Proof.
  intros Hb. unfold times_scalar, load, alloc. rewrite !bind_eq, Hb. reflexivity.
Qed.

(** C7, with the hypothesis it needs.  On an array of the store that has
    at least one year and a demographic dimension without labels, the
    loops have no combination to visit, the grid fitter returns two
    arrays without cells and the forecaster an array without cells. *)
Theorem empty_grid (da : DataArray) (yr : YearRange) (decay : F) h :
  wf_array h da -> year_id da <> [] ->
  sex_id da = [] \/ age_group_id da = [] \/ location_id da = [] ->
  combos da = [] /\
  (exists ds h', get_all_lr_params da h = (Ok ds, h') /\
     h' !! p_data (ds_alpha ds) = Some ∅ /\
     h' !! p_data (ds_beta ds) = Some ∅) /\
  (exists pred_da h', get_decayed_drift_preds da yr decay h = (Ok pred_da, h') /\
     h' !! data pred_da = Some ∅).
Proof.
  intros Hwf Hy Hempty.
  assert (Hnil : combos da = []) by apply product_nil, Hempty.
  split; [exact Hnil|].
  pose proof (get_all_lr_params_run da h) as Hrun.
  unfold get_decayed_drift_preds. rewrite bind_eq.
  destruct (get_all_lr_params da h) as [[ds|e] h1]; [|exfalso; apply Hrun; auto].
  destruct Hrun as (b0 & mα & mβ & Hb0 & _ & Hα & Hβ & Hcα & _ & Hdα & Hdβ & _).
  rewrite Hnil in Hdα, Hdβ. simpl in Hdα, Hdβ.
  apply dom_empty_inv_L in Hdα, Hdβ. subst mα mβ.
  split; [eauto|].
  rewrite Hnil in Hcα.
  rewrite bind_eq, (times_years_run _ _ _ ∅ []); [|exact Hα | rewrite Hcα; reflexivity].
  rewrite Hcα. cbn [zip zip_with mbind list_bind list_to_map foldr].
  rewrite bind_eq, (times_scalar_run _ _ _ ∅) by apply lookup_insert_eq.
  cbn [year_id sex_id age_group_id location_id data].
  rewrite fmap_empty, bind_eq.
  match goal with
  | |- context [for_each (p_sex_id _) _ ?h3] =>
      set (h' := h3);
      change (for_each (p_sex_id (ds_alpha ds)) _ h')
        with (for_each (p_sex_id (ds_alpha ds)) (fun sex =>
                for_each (p_age_group_id (ds_alpha ds)) (fun age =>
                  for_each (p_location_id (ds_alpha ds)) (fun loc =>
                    pred_body ds
                      {| year_id := (map (fun y => (y, of_int 1)) (years yr)).*1;
                         sex_id := p_sex_id (ds_alpha ds);
                         age_group_id := p_age_group_id (ds_alpha ds);
                         location_id := p_location_id (ds_alpha ds);
                         data := fresh (dom (<[fresh (dom h1) := ∅]> h1)) |}
                      yr decay (sex, age, loc)))) h')
  end.
  rewrite for_each_product. fold (p_combos (ds_alpha ds)). rewrite Hcα.
  simpl. eexists _, _. split; [reflexivity|]. apply lookup_insert_eq.
Qed.

End GridClaims.

(** ** The fitter has no guard *)

Section Unguarded.
Local Open Scope R_scope.

(** C4, as the code has it.  In every arithmetic, whatever the values of
    the series, finite or not, a series with at least one observation
    goes through the fitter: the library fit gives two parameters, and
    the fitter returns them as a pair and raises nothing. *)
Theorem get_lr_params_unguarded {F : Type} `{Arith F} (ts : list F) :
  ts <> [] ->
  exists alpha beta,
    OLS_fit_params ts (add_constant (arange (length ts))) = Ok [alpha; beta] /\
    get_lr_params ts = Ok (alpha, beta).
Proof.
  intros Hts. unfold get_lr_params.
  assert (Hfit : exists alpha beta,
            OLS_fit_params ts (add_constant (arange (length ts)))
            = Ok [alpha; beta]).
  { unfold OLS_fit_params.
    destruct (add_constant (arange (length ts))) as [|r rows] eqn:Hx.
    - apply (f_equal length) in Hx. rewrite add_constant_length in Hx.
      unfold arange in Hx. rewrite length_seq in Hx.
      destruct ts; [congruence | discriminate Hx].
    - rewrite <- Hx, add_constant_length. unfold arange at 1.
      rewrite length_seq, Nat.eqb_refl. simpl negb. cbv iota.
      destruct (feqb _ _); eauto. }
  destruct Hfit as (alpha & beta & Hfit). exists alpha, beta.
  rewrite Hfit. auto.
Qed.

Lemma get_lr_params_unguarded_witness :
  exists alpha beta, get_lr_params [Some 5; None] = Ok (alpha, beta).
Proof.
  destruct (get_lr_params_unguarded [Some 5; None]) as (alpha & beta & _ & Hok).
  - discriminate.
  - exists alpha, beta. exact Hok.
Defined.

(** A single observation and a series with a non-finite value are both
    fitted: the first gives the observation and a zero slope, the second
    two non-finite parameters. *)
Lemma get_lr_params_short_or_nonfinite :
  get_lr_params [Some 5] = Ok (Some 5, Some 0) /\
  get_lr_params [None; Some 1] = Ok (None, None).
Proof.
  split; unfold get_lr_params, OLS_fit_params; simpl.
  - destruct (Req_dec_T _ 0) as [_|Hne]; [|exfalso; apply Hne; ring].
    destruct (Req_dec_T _ 0) as [Heq|_]; [exfalso; lra|].
    do 3 f_equal; field.
  - destruct (Req_dec_T _ 0); reflexivity.
Qed.

End Unguarded.

(** ** The statements at sample inputs *)

Section Samples.
Local Open Scope R_scope.

Lemma make_single_predictions_spec_witness :
  exists preds,
    make_single_predictions 1 1 sample_years (ln 2) = Ok preds /\
    length preds = 5%nat.
Proof.
  destruct (make_single_predictions_spec 1 1 sample_years (ln 2))
    as (preds & Hok & Hlen & _).
  - simpl. lia.
  - exists preds. split; [exact Hok | exact Hlen].
Defined.

Lemma make_single_predictions_needs_past_witness :
  make_single_predictions 1 1 forecast_only (ln 2) = Raise IndexError.
Proof.
  apply (proj1 (make_single_predictions_needs_past 1 1 forecast_only (ln 2))).
  reflexivity.
Defined.

Lemma sample_wf : wf_array sample_store sample_da.
Proof.
  eexists. split; [reflexivity|].
  repeat constructor; eexists; reflexivity.
Qed.

Lemma get_all_lr_params_product_witness :
  exists ds h', get_all_lr_params sample_da sample_store = (Ok ds, h').
Proof.
  apply (proj1 (get_all_lr_params_product sample_da sample_store)).
  - exact sample_wf.
  - discriminate.
Defined.

Lemma empty_grid_witness :
  exists pred_da h',
    get_decayed_drift_preds no_sex_da sample_years (Some (ln 2)) empty_store
    = (Ok pred_da, h') /\
    h' !! data pred_da = Some ∅.
Proof.
  refine (proj2 (proj2 (empty_grid no_sex_da sample_years (Some (ln 2))
                          empty_store _ _ _))).
  - eexists. split; [reflexivity | constructor].
  - discriminate.
  - left. reflexivity.
Defined.

(** Without a year the minimum of the [year_id] labels does not exist:
    both calls raise, whatever the demographic dimensions are. *)
Lemma empty_grid_without_years :
  sex_id no_year_da = [] /\
  get_all_lr_params no_year_da empty_store = (Raise ValueError, empty_store) /\
  get_decayed_drift_preds no_year_da sample_years (Some (ln 2)) empty_store
  = (Raise ValueError, empty_store).
Proof. repeat split. Qed.

(** The scenario of the specification: the line [1, 2, 3] continued with
    [decay = ln 2] over two forecast years. *)
Example sample_predictions :
  make_single_predictions 1 1 sample_years (ln 2) = Ok [1; 2; 3; 4; 4.5].
Proof.
  unfold make_single_predictions. simpl.
  replace (- ln 2 * 0) with 0 by ring.
  replace (- ln 2 * 1) with (- ln 2) by ring.
  rewrite exp_0, exp_Ropp, exp_ln by lra.
  f_equal. repeat (apply f_equal2; [lra|]). reflexivity.
Qed.

End Samples.

(** *** In binary64 *)

Section Binary64Samples.
Local Open Scope float_scope.

Lemma zero_decay_repeated_addition_witness :
  exists preds last,
    make_single_predictions (Some PrimFloat.zero) (Some tenth)
      one_past_six_forecast (Some PrimFloat.zero) = Ok preds /\
    preds !! 0%nat = Some last /\
    preds !! 6%nat = Some (Nat.iter 6 (fun x => x + Some tenth) last).
Proof.
  destruct (zero_decay_repeated_addition (Some PrimFloat.zero) (Some tenth)
              PrimFloat.zero one_past_six_forecast)
    as (preds & last & Hok & Hl & Hf).
  - reflexivity.
  - simpl. lia.
  - exists preds, last. split; [exact Hok|]. split; [exact Hl|].
    apply (Hf 5%nat). simpl. lia.
Defined.

(** With [alpha = 0], [beta] the float nearest to 0.1, one past year,
    six forecast years and [decay = 0], the last forecast value, six
    rounded additions of [beta], is the float below 0.6, while
    [prediction[0] + beta * 6] is the float above it. *)
Lemma zero_decay_not_the_product :
  exists preds last v w,
    make_single_predictions (Some PrimFloat.zero) (Some tenth)
      one_past_six_forecast (Some PrimFloat.zero) = Ok preds /\
    preds !! 0%nat = Some last /\
    preds !! 6%nat = Some (Some v) /\
    last + Some tenth * of_int 6 = Some w /\
    PrimFloat.ltb v w = true.
Proof.
  eexists _, _, _, _.
  split; [vm_compute; reflexivity|].
  split; [vm_compute; reflexivity|].
  split; [vm_compute; reflexivity|].
  split; vm_compute; reflexivity.
Qed.

Lemma first_forecast_step_finite_decay_witness :
  exists preds last,
    make_single_predictions (Some PrimFloat.one) (Some PrimFloat.one)
      sample_years (Some tenth) = Ok preds /\
    preds !! 2%nat = Some last /\
    preds !! 3%nat = Some (last + Some PrimFloat.one).
Proof.
  apply (first_forecast_step_finite_decay (Some PrimFloat.one) (Some PrimFloat.one)
           tenth sample_years).
  - reflexivity.
  - simpl. lia.
  - simpl. lia.
Defined.

(** With an infinite decay rate the call is accepted, [(-decay) * 0] is
    NaN and so is the first forecast value, while the last linear value
    plus the slope is 4. *)
Lemma first_forecast_step_infinite_decay :
  exists preds v,
    make_single_predictions (Some PrimFloat.one) (Some PrimFloat.one)
      sample_years (Some PrimFloat.infinity) = Ok preds /\
    preds !! 2%nat = Some (of_int 3) /\
    preds !! 3%nat = Some (Some v) /\
    PrimFloat.is_nan v = true /\
    of_int 3 + Some PrimFloat.one = of_int 4.
Proof.
  eexists _, _.
  split; [vm_compute; reflexivity|].
  split; [vm_compute; reflexivity|].
  split; [vm_compute; reflexivity|].
  split; vm_compute; reflexivity.
Qed.

(** With [alpha = beta = 1], three past years, three forecast years and
    [decay = 1000 > 0] the sequence is 1, 2, 3, 4, 4, 4: the summands of
    the second and the third forecast year both underflow to 0, so the
    increments of these two years are equal. *)
Lemma forecast_increments_stall :
  PrimFloat.ltb PrimFloat.zero (float_of_nat 1000) = true /\
  PrimFloat.ltb PrimFloat.zero PrimFloat.one = true /\
  make_single_predictions (Some PrimFloat.one) (Some PrimFloat.one)
    longer_years (of_int 1000)
  = Ok (map of_int [1; 2; 3; 4; 4; 4]%nat) /\
  attenuated_slope (Some PrimFloat.one) (of_int 1000) 1 = of_int 0 /\
  attenuated_slope (Some PrimFloat.one) (of_int 1000) 2 = of_int 0 /\
  of_int 4 - of_int 4 = of_int 0.
Proof. repeat split; vm_compute; reflexivity. Qed.

Lemma forecast_summands_decreasing_witness :
  exists preds s0 s1,
    @make_single_predictions _ (binary64_with (fun x => Some (exp_step x)))
      (Some PrimFloat.one) (Some PrimFloat.one) longer_years (Some tenth)
    = Ok preds /\
    attenuated_slope (A := binary64_with (fun x => Some (exp_step x)))
      (Some PrimFloat.one) (Some tenth) 0 = Some s0 /\
    attenuated_slope (A := binary64_with (fun x => Some (exp_step x)))
      (Some PrimFloat.one) (Some tenth) 1 = Some s1 /\
    PrimFloat.leb s1 s0 = true.
Proof.
  destruct (forecast_summands_decreasing exp_step exp_step_monotone
              exp_step_nonneg eq_refl PrimFloat.one PrimFloat.one tenth
              longer_years)
    as (preds & Hok & _ & Hord); try reflexivity.
  - simpl. lia.
  - simpl. lia.
  - destruct (Hord 0%nat 1%nat) as (s0 & s1 & H0 & H1 & _ & Hle);
      [lia | simpl; lia |].
    exists preds, s0, s1. auto.
Defined.

End Binary64Samples.

(** * Further properties *)

(** ** The forecaster on a grid with combinations *)

Section Forecaster.
Context {F : Type} `{Arith F} `{HasNaN F}.
Implicit Types (h : gmap addr (gmap cell F)) (b m B : gmap cell F).

(** *** Assignments through [.loc] *)

Lemma set_cells_ok b (kvs : list (cell * F)) :
  Forall (fun k => is_Some (b !! k)) kvs.*1 ->
  set_cells b kvs = Ok (foldl (fun m kv => <[kv.1 := kv.2]> m) b kvs).
Proof.
  intros Hall. unfold set_cells.
  replace (forallb _ kvs) with true; [reflexivity|].
  symmetry. apply forallb_forall. intros kv Hin.
  apply bool_decide_eq_true_2. rewrite Forall_forall in Hall.
  apply Hall, list_elem_of_fmap. exists kv. split; [reflexivity|].
  apply list_elem_of_In, Hin.
Qed.

Lemma foldl_insert_notin (kvs : list (cell * F)) : forall b k,
  k ∉ kvs.*1 ->
  foldl (fun m kv => <[kv.1 := kv.2]> m) b kvs !! k = b !! k.
Proof.
  induction kvs as [|[k0 v0] kvs IH]; intros b k Hk; simpl.
  - reflexivity.
  - simpl in Hk. apply not_elem_of_cons in Hk. destruct Hk as [Hne Hk].
    rewrite IH by exact Hk. apply lookup_insert_ne. congruence.
Qed.

Lemma foldl_insert_in (kvs : list (cell * F)) : forall b k v,
  NoDup kvs.*1 -> (k, v) ∈ kvs ->
  foldl (fun m kv => <[kv.1 := kv.2]> m) b kvs !! k = Some v.
Proof.
  induction kvs as [|[k0 v0] kvs IH]; intros b k v Hnd Hin; simpl.
  - apply elem_of_nil in Hin. contradiction.
  - simpl in Hnd. apply NoDup_cons in Hnd. destruct Hnd as [Hk0 Hnd].
    apply elem_of_cons in Hin. destruct Hin as [[= -> ->] | Hin].
    + rewrite foldl_insert_notin by exact Hk0. apply lookup_insert_eq.
    + apply IH; assumption.
Qed.

Lemma foldl_insert_dom (kvs : list (cell * F)) : forall b,
  Forall (fun k => is_Some (b !! k)) kvs.*1 ->
  dom (foldl (fun m kv => <[kv.1 := kv.2]> m) b kvs) = dom b.
Proof.
  induction kvs as [|[k0 v0] kvs IH]; intros b Hall; simpl.
  - reflexivity.
  - simpl in Hall. apply Forall_cons in Hall. destruct Hall as [Hk0 Hall].
    rewrite IH.
    + apply dom_insert_lookup_L, Hk0.
    + eapply Forall_impl; [exact Hall|]. intros k Hk. simpl in *.
      destruct (decide (k0 = k)) as [->|Hne].
      * rewrite lookup_insert_eq. eauto.
      * rewrite lookup_insert_ne by exact Hne. exact Hk.
Qed.

Lemma loc_value_run pa c h m v :
  h !! p_data pa = Some m -> m !! (c, None) = Some v ->
  loc_value pa c h = (Ok v, h).
Proof.
  intros Hm Hv. unfold loc_value, load. rewrite bind_eq, Hm, Hv. reflexivity.
Qed.

Lemma set_loc_series_run (da : DataArray) c (vs : list F) h B :
  h !! data da = Some B -> length vs = length (year_id da) ->
  Forall (fun y => is_Some (B !! (c, Some y))) (year_id da) ->
  set_loc_series da c vs h
  = (Ok tt, <[data da :=
       foldl (fun m kv => <[kv.1 := kv.2]> m) B
         (zip (map (fun y => (c, Some y)) (year_id da)) vs)]> h).
Proof.
  intros HB Hlen Hall. unfold set_loc_series, load, put, lift.
  rewrite !bind_eq, HB, Hlen, Nat.eqb_refl. simpl negb. cbv iota.
  rewrite set_cells_ok.
  - rewrite bind_eq. simpl. rewrite HB. reflexivity.
  - rewrite fst_zip by (rewrite length_map; lia).
    apply Forall_fmap. exact Hall.
Qed.

(** *** The coordinates of the parameters *)

Lemma keeps_result {A : Type} (m : M F A) (Q : A -> Prop) h x h' :
  keeps ∅ m Q -> m h = (Ok x, h') -> Q x.
Proof.
  intros Hm Hrun. destruct (Hm h (map_empty_subseteq h)) as [_ Hres].
  apply Hres. rewrite Hrun. reflexivity.
Qed.

Lemma get_all_lr_params_coords da h ds h' :
  get_all_lr_params da h = (Ok ds, h') ->
  same_coords (ds_alpha ds) da /\ same_coords (ds_beta ds) da.
Proof.
  apply (keeps_result _ (fun ds => same_coords (ds_alpha ds) da /\ same_coords (ds_beta ds) da)).
  unfold get_all_lr_params.
  eapply keeps_bind; [apply keeps_lift; intros; exact I | intros ymin _].
  eapply keeps_bind.
  { apply (keeps_lift _ _ (fun v => v_base v = da)). unfold sel_year.
    intros v. destruct (bool_decide _); [|discriminate]. intros [= <-]. reflexivity. }
  intros v Hv.
  eapply keeps_bind.
  { apply (keeps_bind _ _ _ (fun _ => True) (fun pa => same_coords pa da));
      [apply keeps_load | intros b _].
    eapply keeps_bind; [apply keeps_lift; intros; exact I | intros vs _].
    eapply keeps_bind; [apply keeps_alloc | intros a _].
    apply keeps_ret. unfold drop_year. rewrite Hv. repeat split. }
  intros param_da Hp.
  assert (Hcopy : keeps (F := F) ∅ (copy param_da) (fun pa => same_coords pa da)).
  { unfold copy.
    eapply keeps_bind; [apply keeps_load | intros b _].
    eapply keeps_bind; [apply keeps_alloc | intros a _].
    apply keeps_ret. exact Hp. }
  eapply keeps_bind; [exact Hcopy | intros alpha_da Ha].
  eapply keeps_bind; [exact Hcopy | intros beta_da Hb].
  eapply keeps_bind; [|intros _ _; apply keeps_ret; split; assumption].
  apply keeps_for_each. intros sex.
  apply keeps_for_each. intros age.
  apply keeps_for_each. intros loc.
  eapply keeps_bind; [apply keeps_loc_values | intros ts _].
  eapply keeps_bind; [apply keeps_lift; intros; exact I | intros ab _].
  eapply keeps_bind; [apply keeps_set_loc | intros _ _; apply keeps_set_loc];
    rewrite dom_empty_L; apply not_elem_of_empty.
Qed.

(** *** Up to the loops *)

Lemma years_of_year_da (ys : list Z) :
  (map (fun y => (y, of_int (F := F) 1)) ys).*1 = ys.
Proof.
  induction ys as [|y ys IH]; simpl; [reflexivity | f_equal; exact IH].
Qed.

Lemma elem_of_broadcast (cs : list combo) (vs : list F) (yd : list (Z * F)) (k : cell) :
  length vs = length cs ->
  k ∈ (cv ← zip cs vs; yo ← yd; [((cv.1, Some yo.1), fmul cv.2 yo.2)]).*1
  <-> exists c y, k = (c, Some y) /\ c ∈ cs /\ y ∈ yd.*1.
Proof.
  intros Hlen. rewrite list_elem_of_fmap. split.
  - intros ([k' v] & -> & Hin). apply list_elem_of_bind in Hin.
    destruct Hin as ([c v0] & Hin & Hcv). apply list_elem_of_bind in Hin.
    destruct Hin as ([y o] & Hin & Hyo). apply list_elem_of_singleton in Hin.
    injection Hin as -> ->. exists c, y. split; [reflexivity|]. split.
    + apply elem_of_zip_l in Hcv. exact Hcv.
    + apply list_elem_of_fmap. exists (y, o). auto.
  - intros (c & y & -> & Hc & Hy).
    apply list_elem_of_fmap in Hy. destruct Hy as ([y' o] & -> & Hy).
    assert (Hcv : c ∈ (zip cs vs).*1) by (rewrite fst_zip by lia; exact Hc).
    apply list_elem_of_fmap in Hcv. destruct Hcv as ([c' v] & -> & Hcv).
    exists ((c', Some y'), fmul v o). split; [reflexivity|].
    apply list_elem_of_bind. exists (c', v). split; [|exact Hcv].
    apply list_elem_of_bind. exists (y', o). split; [|exact Hy].
    apply list_elem_of_singleton. reflexivity.
Qed.

(** A call on an array of the store with at least one year reaches its
    loops: the parameters are fitted, the array of predictions is built
    with a cell for every combination and every year of the year range,
    and what is left is the loop over the combinations. *)
Lemma forecaster_run da yr decay h :
  wf_array h da -> year_id da <> [] ->
  exists ds pred_da h2 b0 mα mβ B0,
    h !! data da = Some b0 /\
    h2 !! p_data (ds_alpha ds) = Some mα /\
    h2 !! p_data (ds_beta ds) = Some mβ /\
    h2 !! data pred_da = Some B0 /\
    data pred_da <> p_data (ds_alpha ds) /\
    data pred_da <> p_data (ds_beta ds) /\
    year_id pred_da = years yr /\
    sex_id pred_da = sex_id da /\
    age_group_id pred_da = age_group_id da /\
    location_id pred_da = location_id da /\
    (forall c, c ∈ combos da ->
       exists ab, fit_of b0 da c = Ok ab /\
         mα !! (c, None) = Some ab.1 /\ mβ !! (c, None) = Some ab.2) /\
    (forall k, k ∈ dom B0 <->
       exists c y, k = (c, Some y) /\ c ∈ combos da /\ y ∈ years yr) /\
    get_decayed_drift_preds da yr decay h
    = match for_each (combos da) (pred_body ds pred_da yr decay) h2 with
      | (Ok _, h') => (Ok pred_da, h')
      | (Raise e, h') => (Raise e, h')
      end.
Proof.
  intros Hwf Hy.
  pose proof (get_all_lr_params_run da h) as Hrun.
  pose proof (get_all_lr_params_coords da h) as Hco.
  unfold get_decayed_drift_preds. rewrite bind_eq.
  destruct (get_all_lr_params da h) as [[ds|e] h1]; [|exfalso; apply Hrun; auto].
  destruct Hrun as (b0 & mα & mβ & Hb0 & _ & Hα & Hβ & Hcα & _ & Hdα & _ & Hfit).
  destruct (Hco ds h1 eq_refl) as [(Hs & Ha & Hl) _].
  destruct (get_cells_ok mα (map (fun c => (c, None)) (p_combos (ds_alpha ds))))
    as [vs Hvs].
  { rewrite Hcα. apply Forall_fmap, Forall_forall. intros c Hc. simpl.
    apply elem_of_dom. rewrite Hdα. apply elem_of_list_to_set.
    apply list_elem_of_fmap. exists c. auto. }
  pose proof (get_cells_length _ _ _ Hvs) as Hlen. rewrite length_map in Hlen.
  rewrite bind_eq, (times_years_run _ _ _ _ _ Hα Hvs).
  set (at1 := fresh (dom h1)).
  set (Bt := list_to_map _).
  rewrite bind_eq, (times_scalar_run _ _ _ Bt) by apply lookup_insert_eq.
  cbn [year_id sex_id age_group_id location_id data].
  set (h1' := <[at1 := Bt]> h1).
  set (ap := fresh (dom h1')).
  set (B0 := _ <$> Bt).
  set (pred_da := {| data := ap |}).
  set (h2 := <[ap := B0]> h1').
  rewrite bind_eq.
  change (for_each (p_sex_id (ds_alpha ds)) _ h2)
    with (for_each (p_sex_id (ds_alpha ds)) (fun sex =>
            for_each (p_age_group_id (ds_alpha ds)) (fun age =>
              for_each (p_location_id (ds_alpha ds)) (fun loc =>
                pred_body ds pred_da yr decay (sex, age, loc)))) h2).
  rewrite for_each_product. fold (p_combos (ds_alpha ds)). rewrite Hcα.
  assert (Hap : ap ∉ dom h1') by apply is_fresh.
  assert (Hd1 : dom h1' = {[at1]} ∪ dom h1) by apply dom_insert_L.
  assert (Hold : forall a, a ∈ dom h1 -> ap <> a).
  { intros a Ha' E. apply Hap. rewrite Hd1, E. apply elem_of_union_r, Ha'. }
  assert (Hneα : ap <> p_data (ds_alpha ds)) by (apply Hold, elem_of_dom; eauto).
  assert (Hneβ : ap <> p_data (ds_beta ds)) by (apply Hold, elem_of_dom; eauto).
  assert (Hat : at1 ∉ dom h1) by apply is_fresh.
  exists ds, pred_da, h2, b0, mα, mβ, B0.
  split; [exact Hb0|].
  split.
  { unfold h2, h1'. rewrite !lookup_insert_ne; [exact Hα | | exact Hneα].
    intros E. apply Hat. rewrite E. apply elem_of_dom. eauto. }
  split.
  { unfold h2, h1'. rewrite !lookup_insert_ne; [exact Hβ | | exact Hneβ].
    intros E. apply Hat. rewrite E. apply elem_of_dom. eauto. }
  split; [apply lookup_insert_eq|].
  split; [exact Hneα|]. split; [exact Hneβ|].
  split; [apply years_of_year_da|].
  split; [exact Hs|]. split; [exact Ha|]. split; [exact Hl|].
  split; [exact Hfit|].
  split; [|destruct (for_each _ _ h2) as [[[]|e] h']; reflexivity].
  intros k. unfold B0, Bt. rewrite dom_fmap_L, dom_list_to_map_L, elem_of_list_to_set.
  rewrite Hcα in Hlen |- *. rewrite (elem_of_broadcast _ _ _ _ Hlen), years_of_year_da.
  reflexivity.
Qed.

(** *** The loop over the combinations *)

Lemma make_single_predictions_length (alpha beta decay : F) yr preds :
  make_single_predictions alpha beta yr decay = Ok preds ->
  length preds = length (years yr).
Proof.
  unfold make_single_predictions, years.
  destruct (last _) as [last0|]; [|discriminate]. intros [= <-].
  rewrite forecast_loop_length, linear_preds_length, length_app. reflexivity.
Qed.

Lemma series_keys_fst c (ys : list Z) (vs : list F) :
  length vs = length ys ->
  (zip (map (fun y => ((c, Some y) : cell)) ys) vs).*1
  = map (fun y => (c, Some y)) ys.
Proof. intros Hlen. apply fst_zip. rewrite length_map. lia. Qed.

Section PredLoop.
Variables (ds : Dataset) (pred_da : DataArray) (yr : YearRange) (decay : F).
Variables (mα mβ : gmap cell F).
Hypothesis Hneα : data pred_da <> p_data (ds_alpha ds).
Hypothesis Hneβ : data pred_da <> p_data (ds_beta ds).
Hypothesis Hyears : year_id pred_da = years yr.

(** One iteration with at least one past year: the predictions of the
    combination are written over its cells. *)
Lemma pred_body_run c h B (a b : F) :
  (1 <= length (past_years yr))%nat ->
  h !! p_data (ds_alpha ds) = Some mα -> h !! p_data (ds_beta ds) = Some mβ ->
  h !! data pred_da = Some B ->
  mα !! (c, None) = Some a -> mβ !! (c, None) = Some b ->
  Forall (fun y => is_Some (B !! (c, Some y))) (years yr) ->
  exists preds,
    make_single_predictions a b yr decay = Ok preds /\
    pred_body ds pred_da yr decay c h
    = (Ok tt, <[data pred_da :=
         foldl (fun m kv => <[kv.1 := kv.2]> m) B
           (zip (map (fun y => (c, Some y)) (years yr)) preds)]> h).
Proof.
  intros HP Hα Hβ HB Ha Hb Hall.
  destruct (predictions_shape a b yr decay HP) as (preds & Hok & _).
  exists preds. split; [exact Hok|].
  unfold pred_body.
  rewrite bind_eq, (loc_value_run _ _ _ _ _ Hα Ha).
  rewrite bind_eq, (loc_value_run _ _ _ _ _ Hβ Hb).
  rewrite bind_eq. unfold lift at 1. rewrite Hok.
  rewrite (set_loc_series_run _ _ _ _ B HB); rewrite Hyears.
  - reflexivity.
  - apply make_single_predictions_length in Hok. exact Hok.
  - exact Hall.
Qed.

(** One iteration without a past year. *)
Lemma pred_body_no_past c h (a b : F) :
  past_years yr = [] ->
  h !! p_data (ds_alpha ds) = Some mα -> h !! p_data (ds_beta ds) = Some mβ ->
  mα !! (c, None) = Some a -> mβ !! (c, None) = Some b ->
  pred_body ds pred_da yr decay c h = (Raise IndexError, h).
Proof.
  intros HP Hα Hβ Ha Hb. unfold pred_body.
  rewrite bind_eq, (loc_value_run _ _ _ _ _ Hα Ha).
  rewrite bind_eq, (loc_value_run _ _ _ _ _ Hβ Hb).
  rewrite bind_eq. unfold lift at 1, make_single_predictions.
  rewrite HP. reflexivity.
Qed.

Lemma pred_loop l :
  (1 <= length (past_years yr))%nat -> NoDup (years yr) ->
  forall h B,
  h !! p_data (ds_alpha ds) = Some mα -> h !! p_data (ds_beta ds) = Some mβ ->
  h !! data pred_da = Some B ->
  (forall c, c ∈ l -> is_Some (mα !! (c, None)) /\ is_Some (mβ !! (c, None))) ->
  (forall c y, c ∈ l -> y ∈ years yr -> (c, Some y) ∈ dom B) ->
  exists h' B',
    for_each l (pred_body ds pred_da yr decay) h = (Ok tt, h') /\
    h' !! data pred_da = Some B' /\ dom B' = dom B /\
    (forall c, c ∈ l ->
       exists (a b : F) (preds : list F),
         mα !! (c, None) = Some a /\ mβ !! (c, None) = Some b /\
         make_single_predictions a b yr decay = Ok preds /\
         forall i y, years yr !! i = Some y -> B' !! (c, Some y) = preds !! i) /\
    (forall c k, c ∉ l -> B' !! (c, k) = B !! (c, k)).
Proof.
  intros HP Hnd. induction l as [|c l IH]; intros h B Hα Hβ HB Hpar Hcells.
  - exists h, B. simpl. repeat split; auto.
    intros c Hc. apply elem_of_nil in Hc. contradiction.
  - destruct (Hpar c) as [[a Ha] [b Hb]]; [apply elem_of_cons; auto|].
    assert (Hall : Forall (fun y => is_Some (B !! (c, Some y))) (years yr)).
    { apply Forall_forall. intros y Hy. apply elem_of_dom, Hcells; [|exact Hy].
      apply elem_of_cons. auto. }
    destruct (pred_body_run c h B a b HP Hα Hβ HB Ha Hb Hall) as (preds & Hok & Hrun).
    pose proof (make_single_predictions_length _ _ _ _ _ Hok) as Hlen.
    set (kvs := zip (map (fun y => ((c, Some y) : cell)) (years yr)) preds) in *.
    set (B1 := foldl (fun m kv => <[kv.1 := kv.2]> m) B kvs) in *.
    assert (Hfst : kvs.*1 = map (fun y => (c, Some y)) (years yr))
      by (apply series_keys_fst, Hlen).
    assert (Hd1 : dom B1 = dom B).
    { apply foldl_insert_dom. rewrite Hfst. apply Forall_fmap. exact Hall. }
    assert (Hother : forall c' k, c' <> c -> B1 !! (c', k) = B !! (c', k)).
    { intros c' k Hne. apply foldl_insert_notin. rewrite Hfst.
      intros Hin. apply list_elem_of_fmap in Hin.
      destruct Hin as (y & [= -> _] & _). congruence. }
    assert (Hsame : forall i y, years yr !! i = Some y ->
              B1 !! (c, Some y) = preds !! i).
    { intros i y Hi.
      destruct (lookup_lt_is_Some_2 preds i) as [p Hp].
      { rewrite Hlen. eapply lookup_lt_Some, Hi. }
      rewrite Hp. apply foldl_insert_in.
      - rewrite Hfst. apply NoDup_fmap_2; [|exact Hnd].
        intros y1 y2 [= ->]. reflexivity.
      - apply list_elem_of_lookup. exists i. unfold kvs.
        rewrite lookup_zip_with, list_lookup_fmap, Hi, Hp. reflexivity. }
    destruct (IH (<[data pred_da := B1]> h) B1) as (h' & B' & Hloop & HB' & Hd' & Hin & Hout).
    { rewrite lookup_insert_ne by exact Hneα. exact Hα. }
    { rewrite lookup_insert_ne by exact Hneβ. exact Hβ. }
    { apply lookup_insert_eq. }
    { intros c' Hc'. apply Hpar, elem_of_cons. auto. }
    { intros c' y Hc' Hy'. rewrite Hd1. apply Hcells; [|exact Hy'].
      apply elem_of_cons. auto. }
    exists h', B'. split.
    { cbn [for_each]. rewrite bind_eq, Hrun. exact Hloop. }
    split; [exact HB'|]. split; [congruence|]. split.
    + intros c' Hc'. destruct (decide (c' ∈ l)) as [Hl|Hl]; [apply Hin, Hl|].
      apply elem_of_cons in Hc'. destruct Hc' as [->|Hc']; [|contradiction].
      exists a, b, preds. repeat (split; [assumption|]).
      intros i y Hi. rewrite (Hout c (Some y) Hl). apply Hsame, Hi.
    + intros c' k Hc'. apply not_elem_of_cons in Hc'. destruct Hc' as [Hne Hl].
      rewrite (Hout c' k Hl). apply Hother, Hne.
Qed.

End PredLoop.

(** X1.  On an array of the store with at least one year, and a year range
    with at least one past year and no year twice, the forecaster returns
    a new array over the years of the year range and the demographic
    coordinates of the input, with a cell for exactly every combination
    and year; the cells of a combination hold, year by year, the sequence
    [make_single_predictions] gives for the parameters fitted to the
    series of that combination in the input. *)
Theorem get_decayed_drift_preds_spec (da : DataArray) (yr : YearRange) (decay : F) h :
  wf_array h da -> year_id da <> [] ->
  (1 <= length (past_years yr))%nat -> NoDup (years yr) ->
  exists pred_da h' b0 B,
    get_decayed_drift_preds da yr decay h = (Ok pred_da, h') /\
    h !! data da = Some b0 /\ h' !! data pred_da = Some B /\
    year_id pred_da = years yr /\ sex_id pred_da = sex_id da /\
    age_group_id pred_da = age_group_id da /\
    location_id pred_da = location_id da /\
    (forall k, k ∈ dom B <->
       exists c y, k = (c, Some y) /\ c ∈ combos da /\ y ∈ years yr) /\
    (forall c, c ∈ combos da ->
       exists (ab : F * F) (preds : list F),
         fit_of b0 da c = Ok ab /\
         make_single_predictions ab.1 ab.2 yr decay = Ok preds /\
         forall i y, years yr !! i = Some y -> B !! (c, Some y) = preds !! i).
Proof.
  intros Hwf Hy HP Hnd.
  destruct (forecaster_run da yr decay h Hwf Hy)
    as (ds & pred_da & h2 & b0 & mα & mβ & B0 & Hb0 & Hα & Hβ & HB0 & Hneα & Hneβ
        & Hyears & Hs & Ha & Hl & Hfit & Hdom & Hrun).
  destruct (pred_loop ds pred_da yr decay mα mβ Hneα Hneβ Hyears (combos da)
              HP Hnd h2 B0 Hα Hβ HB0)
    as (h' & B' & Hloop & HB' & Hd' & Hin & _).
  { intros c Hc. destruct (Hfit c Hc) as (ab & _ & -> & ->). eauto. }
  { intros c y Hc Hyr. apply Hdom. eauto. }
  exists pred_da, h', b0, B'. rewrite Hrun, Hloop.
  repeat (split; [assumption || reflexivity|]). split.
  - intros k. rewrite Hd'. apply Hdom.
  - intros c Hc. destruct (Hfit c Hc) as (ab & Hab & Hmα & Hmβ).
    destruct (Hin c Hc) as (a & b' & preds & Ha' & Hb' & Hok & Hcells).
    rewrite Hmα in Ha'. rewrite Hmβ in Hb'. injection Ha' as <-. injection Hb' as <-.
    exists ab, preds. auto.
Qed.

(** X2.  Without a past year the outcome depends on the grid: on an array
    of the store with at least one year the forecaster raises
    [IndexError] as soon as there is a combination to predict, and
    returns when there is none. *)
Theorem get_decayed_drift_preds_no_past (da : DataArray) (yr : YearRange) (decay : F) h :
  wf_array h da -> year_id da <> [] -> past_years yr = [] ->
  (combos da <> [] ->
     exists h', get_decayed_drift_preds da yr decay h = (Raise IndexError, h')) /\
  (combos da = [] ->
     exists pred_da h', get_decayed_drift_preds da yr decay h = (Ok pred_da, h')).
Proof.
  intros Hwf Hy HP.
  destruct (forecaster_run da yr decay h Hwf Hy)
    as (ds & pred_da & h2 & b0 & mα & mβ & B0 & _ & Hα & Hβ & _ & _ & _
        & _ & _ & _ & _ & Hfit & _ & Hrun).
  rewrite Hrun. split.
  - destruct (combos da) as [|c l]; [congruence|]. intros _.
    destruct (Hfit c) as (ab & _ & Hmα & Hmβ); [apply elem_of_cons; auto|].
    cbn [for_each]. rewrite bind_eq.
    rewrite (pred_body_no_past ds pred_da yr decay mα mβ c h2 _ _ HP Hα Hβ Hmα Hmβ).
    eauto.
  - intros ->. simpl. eauto.
Qed.

End Forecaster.

(** ** The grid fitter and the rest of the store *)

Section GridFitterMore.
Context {F : Type} `{Arith F} `{HasNaN F}.
Implicit Types (h : gmap addr (gmap cell F)).

(** X3.  The year dimension decides whether the grid fitter returns: on
    an array without a year both entry points raise [ValueError] and
    leave the store as it is, whatever the demographic dimensions, and on
    an array of the store the grid fitter returns exactly when there is a
    year. *)
Theorem get_all_lr_params_needs_year (da : DataArray) (yr : YearRange) (decay : F) h :
  (year_id da = [] ->
     get_all_lr_params da h = (Raise ValueError, h) /\
     get_decayed_drift_preds da yr decay h = (Raise ValueError, h)) /\
  (wf_array h da ->
     (exists ds h', get_all_lr_params da h = (Ok ds, h')) <-> year_id da <> []).
Proof.
  split.
  - intros Hy.
    assert (Hfit : get_all_lr_params da h = (Raise ValueError, h)).
    { unfold get_all_lr_params. rewrite bind_eq. unfold lift at 1.
      rewrite Hy. reflexivity. }
    split; [exact Hfit|].
    unfold get_decayed_drift_preds. rewrite bind_eq, Hfit. reflexivity.
  - intros Hwf. pose proof (get_all_lr_params_run da h) as Hrun. split.
    + intros (ds & h' & Heq). rewrite Heq in Hrun.
      destruct Hrun as (_ & _ & _ & _ & Hy & _). exact Hy.
    + intros Hy. destruct (get_all_lr_params da h) as [[ds|e] h'].
      * eauto.
      * exfalso. apply Hrun. auto.
Qed.

Lemma fit_of_cells (b0 : gmap cell F) da c ab :
  fit_of b0 da c = Ok ab ->
  Forall (fun y => is_Some (b0 !! (c, Some y))) (year_id da).
Proof.
  unfold fit_of, get_cells. intros Hfit.
  destruct (mapM _ _) as [ts|] eqn:Hm; [|discriminate Hfit].
  assert (Hall : is_Some (mapM (fun k => b0 !! k)
                   (map (fun y => (c, Some y)) (year_id da)))) by eauto.
  apply mapM_is_Some_1 in Hall. rewrite Forall_fmap in Hall. exact Hall.
Qed.

(** X4.  The parameters depend on the cells of the input only.  A second
    call, run in the store the first call has left, returns too, and its
    two arrays have the cells of the arrays of the first call, which are
    still there. *)
Theorem get_all_lr_params_again (da : DataArray) h ds h1 :
  get_all_lr_params da h = (Ok ds, h1) ->
  exists ds' h2 mα mβ,
    get_all_lr_params da h1 = (Ok ds', h2) /\
    h1 !! p_data (ds_alpha ds) = Some mα /\ h1 !! p_data (ds_beta ds) = Some mβ /\
    h2 !! p_data (ds_alpha ds) = Some mα /\ h2 !! p_data (ds_beta ds) = Some mβ /\
    h2 !! p_data (ds_alpha ds') = Some mα /\ h2 !! p_data (ds_beta ds') = Some mβ.
Proof.
  intros Hrun1.
  pose proof (get_all_lr_params_run da h) as Hfacts. rewrite Hrun1 in Hfacts.
  destruct Hfacts as (b0 & mα & mβ & Hb0 & Hy & Hα & Hβ & _ & _ & Hdα & Hdβ & Hfit).
  destruct (keeps_get_all_lr_params h da h) as [Hsub _]; [reflexivity|].
  rewrite Hrun1 in Hsub. simpl in Hsub.
  assert (Hb1 : h1 !! data da = Some b0).
  { eapply map_subseteq_spec; [exact Hsub | exact Hb0]. }
  assert (Hwf : wf_array h1 da).
  { exists b0. split; [exact Hb1|]. apply Forall_forall. intros c Hc.
    destruct (Hfit c Hc) as (ab & Hab & _). eapply fit_of_cells, Hab. }
  pose proof (get_all_lr_params_run da h1) as Hfacts.
  destruct (keeps_get_all_lr_params h1 da h1) as [Hsub2 _]; [reflexivity|].
  destruct (get_all_lr_params da h1) as [[ds'|e] h2]; [|exfalso; apply Hfacts; auto].
  destruct Hfacts as (b0' & mα' & mβ' & Hb0' & _ & Hα' & Hβ' & _ & _ & Hdα' & Hdβ' & Hfit').
  rewrite Hb1 in Hb0'. injection Hb0' as <-. simpl in Hsub2.
  assert (Heq : mα' = mα /\ mβ' = mβ).
  { split; apply map_eq; intros k.
    - destruct (decide (k ∈ dom mα)) as [Hk|Hk].
      + rewrite Hdα in Hk. apply elem_of_list_to_set, list_elem_of_fmap in Hk.
        destruct Hk as (c & -> & Hc). cbn beta.
        destruct (Hfit c Hc) as (ab & Hab & E & _).
        destruct (Hfit' c Hc) as (ab' & Hab' & E' & _).
        rewrite Hab in Hab'. injection Hab' as <-.
        exact (eq_trans E' (eq_sym E)).
      + rewrite (proj1 (not_elem_of_dom mα k) Hk).
        apply not_elem_of_dom. rewrite Hdα'. rewrite <- Hdα. exact Hk.
    - destruct (decide (k ∈ dom mβ)) as [Hk|Hk].
      + rewrite Hdβ in Hk. apply elem_of_list_to_set, list_elem_of_fmap in Hk.
        destruct Hk as (c & -> & Hc). cbn beta.
        destruct (Hfit c Hc) as (ab & Hab & _ & E).
        destruct (Hfit' c Hc) as (ab' & Hab' & _ & E').
        rewrite Hab in Hab'. injection Hab' as <-.
        exact (eq_trans E' (eq_sym E)).
      + rewrite (proj1 (not_elem_of_dom mβ k) Hk).
        apply not_elem_of_dom. rewrite Hdβ'. rewrite <- Hdβ. exact Hk. }
  destruct Heq as [-> ->].
  exists ds', h2, mα, mβ. split; [reflexivity|].
  split; [exact Hα|]. split; [exact Hβ|].
  split; [eapply map_subseteq_spec; [exact Hsub2 | exact Hα]|].
  split; [eapply map_subseteq_spec; [exact Hsub2 | exact Hβ]|].
  split; assumption.
Qed.

End GridFitterMore.

(** ** More on the prediction sequence *)

Section PredictionsMore.
Context {F : Type} `{Arith F}.
Local Open Scope float_scope.

(** X5.  The predictions depend on the year range through the two counts
    only, and a longer horizon does not change what is predicted for the
    earlier years: with the same number of past years and at least as
    many forecast years, the sequence starts with the sequence of the
    shorter year range. *)
Theorem predictions_horizon (alpha beta decay : F) (yr yr' : YearRange) preds :
  length (past_years yr') = length (past_years yr) ->
  (length (forecast_years yr) <= length (forecast_years yr'))%nat ->
  make_single_predictions alpha beta yr decay = Ok preds ->
  exists preds',
    make_single_predictions alpha beta yr' decay = Ok preds' /\
    forall i, (i < length preds)%nat -> preds' !! i = preds !! i.
Proof.
  intros HP HF. unfold make_single_predictions. rewrite HP.
  destruct (last _) as [last0|]; [|discriminate]. intros [= <-].
  eexists. split; [reflexivity|]. intros i Hi.
  rewrite forecast_loop_length in Hi.
  apply forecast_loop_stable; [exact HF | exact Hi].
Qed.

End PredictionsMore.

(** *** Under a monotone rounding

    Real arithmetic with a rounding after every operation.  Rounding to
    nearest, as in binary64, keeps the order of the numbers and keeps
    zero; an exponential is taken to be non-negative and non-decreasing.
    Nothing else is assumed of them here. *)

Section RoundedPredictions.
Local Open Scope R_scope.
Variables rnd ex : R -> R.
Hypothesis rnd_monotone : forall x y, x <= y -> rnd x <= rnd y.
Hypothesis rnd_0 : rnd 0 = 0.
Hypothesis ex_monotone : forall x y, x <= y -> ex x <= ex y.
Hypothesis ex_nonneg : forall x, 0 <= ex x.

Local Abbreviation slope := (attenuated_slope (A := rounded_arith rnd ex)).

(** The decay factor follows the sign of the decay rate. *)
Lemma rounded_factor_order decay j k :
  (j <= k)%nat ->
  (0 <= decay ->
     ex (rnd (- decay * rnd (INR k))) <= ex (rnd (- decay * rnd (INR j)))) /\
  (decay <= 0 ->
     ex (rnd (- decay * rnd (INR j))) <= ex (rnd (- decay * rnd (INR k)))).
Proof.
  intros Hjk.
  assert (Hi : rnd (INR j) <= rnd (INR k)) by (apply rnd_monotone, le_INR, Hjk).
  split; intros Hd; apply ex_monotone, rnd_monotone; nra.
Qed.

Lemma rounded_slope_sign beta decay j :
  (0 <= beta -> 0 <= slope beta decay j) /\
  (beta <= 0 -> slope beta decay j <= 0).
Proof.
  pose proof (ex_nonneg (rnd (- decay * rnd (INR j)))) as He.
  cbv [attenuated_slope fmul fneg fexp of_int rounded_arith].
  split; intros Hb.
  - rewrite <- rnd_0 at 1. apply rnd_monotone. nra.
  - rewrite <- rnd_0. apply rnd_monotone. nra.
Qed.

(** The magnitude of the summand, for either sign of the slope. *)
Lemma rounded_slope_abs beta decay j k :
  ex (rnd (- decay * rnd (INR k))) <= ex (rnd (- decay * rnd (INR j))) ->
  Rabs (slope beta decay k) <= Rabs (slope beta decay j).
Proof.
  intros He.
  pose proof (ex_nonneg (rnd (- decay * rnd (INR k)))) as Hk.
  destruct (Rle_lt_dec 0 beta) as [Hb|Hb].
  - pose proof (proj1 (rounded_slope_sign beta decay j) Hb).
    pose proof (proj1 (rounded_slope_sign beta decay k) Hb).
    rewrite !Rabs_pos_eq by assumption.
    cbv [attenuated_slope fmul fneg fexp of_int rounded_arith].
    apply rnd_monotone. nra.
  - pose proof (proj2 (rounded_slope_sign beta decay j) ltac:(lra)).
    pose proof (proj2 (rounded_slope_sign beta decay k) ltac:(lra)).
    rewrite !Rabs_left1 by assumption.
    cbv [attenuated_slope fmul fneg fexp of_int rounded_arith].
    apply Ropp_le_contravar, rnd_monotone. nra.
Qed.

End RoundedPredictions.

(** The rounding down to an integer keeps the order and the integers. *)
Lemma round_down_monotone x y : (x <= y)%R -> (round_down x <= round_down y)%R.
Proof.
  intros Hxy. unfold round_down. apply IZR_le.
  destruct (Z.le_gt_cases (Int_part x) (Int_part y)) as [Hle|Hgt]; [exact Hle|].
  exfalso.
  pose proof (base_Int_part x) as [Hx _]. pose proof (base_Int_part y) as [_ Hy].
  assert (H1 : (IZR (Int_part y) + 1 <= IZR (Int_part x))%R).
  { rewrite <- plus_IZR. apply IZR_le. lia. }
  lra.
Qed.

Lemma round_down_IZR z : round_down (IZR z) = IZR z.
Proof.
  unfold round_down. f_equal. symmetry. apply Int_part_spec. lra.
Qed.

Lemma round_down_idempotent x : round_down (round_down x) = round_down x.
Proof. apply round_down_IZR. Qed.

Lemma exp_monotone x y : (x <= y)%R -> (exp x <= exp y)%R.
Proof.
  intros [Hlt| ->]; [left; apply exp_increasing, Hlt | right; reflexivity].
Qed.

Lemma exp_nonneg x : (0 <= exp x)%R.
Proof. left. apply exp_pos. Qed.

Section RoundedPredictionsMore.
Local Open Scope R_scope.
Variables rnd ex : R -> R.
Hypothesis rnd_monotone : forall x y, x <= y -> rnd x <= rnd y.
Hypothesis rnd_0 : rnd 0 = 0.
Hypothesis rnd_idempotent : forall x, rnd (rnd x) = rnd x.
Hypothesis ex_monotone : forall x y, x <= y -> ex x <= ex y.
Hypothesis ex_nonneg : forall x, 0 <= ex x.

Local Abbreviation slope := (attenuated_slope (A := rounded_arith rnd ex)).

(** What a returning call says of the entries. *)
Lemma rounded_predictions_entries (alpha beta decay : R) yr preds :
  @make_single_predictions R (rounded_arith rnd ex) alpha beta yr decay = Ok preds ->
  (1 <= length (past_years yr))%nat /\
  length preds = (length (past_years yr) + length (forecast_years yr))%nat /\
  (forall i, (i < length (past_years yr))%nat ->
     preds !! i = Some (rnd (alpha + rnd (beta * rnd (INR i))))) /\
  (forall j, (j < length (forecast_years yr))%nat ->
     exists last,
       preds !! (length (past_years yr) + j - 1)%nat = Some last /\
       preds !! (length (past_years yr) + j)%nat
       = Some (rnd (last + slope beta decay j))).
Proof.
  intros Hok.
  assert (HP : (1 <= length (past_years yr))%nat).
  { unfold make_single_predictions in Hok.
    destruct (past_years yr); [discriminate Hok | simpl; lia]. }
  pose proof (make_single_predictions_length _ _ _ _ _ Hok) as Hlen.
  unfold years in Hlen. rewrite length_app in Hlen.
  destruct (@predictions_shape R (rounded_arith rnd ex) alpha beta yr decay HP)
    as (preds' & Hok' & Hlin & Hstep).
  rewrite Hok in Hok'. injection Hok' as <-.
  split; [exact HP|]. split; [exact Hlen|]. split; [exact Hlin | exact Hstep].
Qed.

(** Every entry is a number as it is stored. *)
Lemma rounded_predictions_stored (alpha beta decay : R) yr preds :
  @make_single_predictions R (rounded_arith rnd ex) alpha beta yr decay = Ok preds ->
  forall i x, preds !! i = Some x -> rnd x = x.
Proof.
  intros Hok i x Hx.
  destruct (rounded_predictions_entries _ _ _ _ _ Hok) as (HP & Hlen & Hlin & Hstep).
  pose proof (lookup_lt_Some _ _ _ Hx) as Hi.
  destruct (le_lt_dec (length (past_years yr)) i) as [Hge|Hlt].
  - destruct (Hstep (i - length (past_years yr))%nat) as (prev & _ & Hcur); [lia|].
    replace (length (past_years yr) + (i - length (past_years yr)))%nat
      with i in Hcur by lia.
    rewrite Hx in Hcur. apply (inj Some) in Hcur. subst x.
    apply rnd_idempotent.
  - rewrite Hlin in Hx by exact Hlt. apply (inj Some) in Hx. subst x.
    apply rnd_idempotent.
Qed.

(** X7.  The sequence never turns back: under any rounding that keeps
    the order, zero and the stored numbers, with a decay rate that is not
    negative (the decay factor is then at most 1 and cannot overflow),
    for a slope that is not negative no value, past or forecast, is below
    the one before it, and for a slope that is not positive none is above
    it. *)
Theorem predictions_monotone (alpha beta decay : R) yr preds :
  0 <= decay ->
  @make_single_predictions R (rounded_arith rnd ex) alpha beta yr decay = Ok preds ->
  forall i x y, preds !! i = Some x -> preds !! S i = Some y ->
    (0 <= beta -> x <= y) /\ (beta <= 0 -> y <= x).
Proof.
  intros _ Hok i x y Hx Hy.
  destruct (rounded_predictions_entries _ _ _ _ _ Hok) as (HP & Hlen & Hlin & Hstep).
  destruct (le_lt_dec (length (past_years yr)) (S i)) as [Hge|Hlt].
  - pose proof (lookup_lt_Some _ _ _ Hy) as Hi.
    destruct (Hstep (S i - length (past_years yr))%nat) as (prev & Hprev & Hcur); [lia|].
    replace (length (past_years yr) + (S i - length (past_years yr)) - 1)%nat
      with i in Hprev by lia.
    replace (length (past_years yr) + (S i - length (past_years yr)))%nat
      with (S i) in Hcur by lia.
    rewrite Hx in Hprev. injection Hprev as <-.
    rewrite Hy in Hcur. apply (inj Some) in Hcur. subst y.
    pose proof (rounded_predictions_stored _ _ _ _ _ Hok i x Hx) as Hst.
    set (t := slope beta decay (S i - length (past_years yr))).
    split; intros Hb; rewrite <- Hst at 1.
    + apply rnd_monotone.
      pose proof (proj1 (rounded_slope_sign rnd ex rnd_monotone rnd_0 ex_nonneg
                           beta decay (S i - length (past_years yr))) Hb).
      fold t in H. lra.
    + rewrite <- Hst at 2. apply rnd_monotone.
      pose proof (proj2 (rounded_slope_sign rnd ex rnd_monotone rnd_0 ex_nonneg
                           beta decay (S i - length (past_years yr))) Hb).
      fold t in H. lra.
  - rewrite Hlin in Hx, Hy by lia.
    apply (inj Some) in Hx, Hy. subst x y.
    assert (Hi : rnd (INR i) <= rnd (INR (S i)))
      by (apply rnd_monotone, le_INR; lia).
    split; intros Hb; apply rnd_monotone, Rplus_le_compat_l, rnd_monotone; nra.
Qed.

(** X8.  The sign of the decay rate is not checked and decides what
    happens to the slope: under any rounding that keeps the order and
    zero, for a slope other than zero of either sign, the magnitude of
    the summand of the forecast steps never grows from year to year with
    a rate that is not negative and never shrinks with a rate that is not
    positive, so that it stays the same with rate zero. *)
Theorem increments_by_decay_sign (alpha beta decay : R) yr :
  beta <> 0 -> (1 <= length (past_years yr))%nat ->
  exists preds,
    @make_single_predictions R (rounded_arith rnd ex) alpha beta yr decay = Ok preds /\
    (forall j, (j < length (forecast_years yr))%nat ->
       exists last,
         preds !! (length (past_years yr) + j - 1)%nat = Some last /\
         preds !! (length (past_years yr) + j)%nat
         = Some (rnd (last + slope beta decay j))) /\
    forall j k, (j <= k)%nat ->
      (0 <= decay -> Rabs (slope beta decay k) <= Rabs (slope beta decay j)) /\
      (decay <= 0 -> Rabs (slope beta decay j) <= Rabs (slope beta decay k)) /\
      (decay = 0 -> Rabs (slope beta decay k) = Rabs (slope beta decay j)).
Proof.
  intros _ HP.
  destruct (@predictions_shape R (rounded_arith rnd ex) alpha beta yr decay HP)
    as (preds & Hok & _ & Hstep).
  exists preds. split; [exact Hok|]. split; [exact Hstep|].
  intros j k Hjk.
  destruct (rounded_factor_order rnd ex rnd_monotone ex_monotone decay j k Hjk)
    as [Hpos Hneg].
  assert (Hle : 0 <= decay ->
            Rabs (slope beta decay k) <= Rabs (slope beta decay j)).
  { intros Hd.
    apply (rounded_slope_abs rnd ex rnd_monotone rnd_0 ex_nonneg), Hpos, Hd. }
  assert (Hge : decay <= 0 ->
            Rabs (slope beta decay j) <= Rabs (slope beta decay k)).
  { intros Hd.
    apply (rounded_slope_abs rnd ex rnd_monotone rnd_0 ex_nonneg), Hneg, Hd. }
  split; [exact Hle|]. split; [exact Hge|].
  intros Hd. apply Rle_antisym; [apply Hle | apply Hge]; lra.
Qed.

End RoundedPredictionsMore.

(** ** A decay rate that is not finite *)

Section Binary64More.
Local Open Scope float_scope.

(** With a decay rate that is not finite the summand of the first
    forecast year is NaN and that of every later year is some float. *)
Lemma non_finite_decay_first (beta decay : PrimFloat.float) :
  PrimFloat.is_finite decay = false ->
  exists t, attenuated_slope (Some beta) (Some decay) 0 = Some t /\
            PrimFloat.is_nan t = true.
Proof.
  intros Hd. rewrite is_finite_spec in Hd.
  cbv [attenuated_slope fmul fneg fexp of_int binary64_arith binary64_with lift64].
  rewrite exp64_nan.
  - eexists. split; [reflexivity|].
    rewrite is_nan_spec. apply mul_nan_r. reflexivity.
  - apply mul_non_finite_zero; [apply opp_non_finite, Hd | reflexivity].
Qed.

Lemma non_finite_decay_later (beta decay : PrimFloat.float) j :
  PrimFloat.is_finite decay = false ->
  exists t, attenuated_slope (Some beta) (Some decay) j = Some t.
Proof.
  intros Hd. rewrite is_finite_spec in Hd.
  cbv [attenuated_slope fmul fneg fexp of_int binary64_arith binary64_with lift64].
  destruct (exp64_non_finite
              (PrimFloat.mul (PrimFloat.opp decay) (float_of_nat j))) as (v & ->).
  - apply mul_non_finite_l, opp_non_finite, Hd.
  - eexists. reflexivity.
Qed.

(** X14.  A decay rate that is an infinity or NaN is not rejected: in
    binary64, with [P >= 1], the call returns, the values of the past
    years are those of the line, and every forecast value is NaN. *)
Theorem non_finite_decay_gives_nan (alpha beta decay : PrimFloat.float) yr :
  PrimFloat.is_finite decay = false ->
  (1 <= length (past_years yr))%nat ->
  exists preds,
    make_single_predictions (Some alpha) (Some beta) yr (Some decay) = Ok preds /\
    (forall i, (i < length (past_years yr))%nat ->
       preds !! i = Some (Some alpha + Some beta * of_int i)) /\
    (forall j, (j < length (forecast_years yr))%nat ->
       exists v, preds !! (length (past_years yr) + j)%nat = Some (Some v) /\
                 PrimFloat.is_nan v = true).
Proof.
  intros Hd HP.
  destruct (predictions_shape (Some alpha) (Some beta) yr (Some decay) HP)
    as (preds & Hok & Hlin & Hstep).
  exists preds. split; [exact Hok|]. split; [exact Hlin|].
  induction j as [|j IH]; intros Hj;
    destruct (Hstep _ Hj) as (prev & Hprev & Hcur); rewrite Hcur;
    change (Some beta * fexp (- Some decay * of_int ?j))
      with (attenuated_slope (Some beta) (Some decay) j).
  - rewrite Nat.add_0_r in Hprev. rewrite Hlin in Hprev by lia.
    injection Hprev as <-.
    destruct (non_finite_decay_first beta decay Hd) as (t & -> & Ht).
    eexists. split; [reflexivity|].
    rewrite is_nan_spec in Ht |- *. apply add_nan_r, Ht.
  - replace (length (past_years yr) + S j - 1)%nat
      with (length (past_years yr) + j)%nat in Hprev by lia.
    destruct (IH ltac:(lia)) as (v & Hv & Hnan).
    rewrite Hv in Hprev. injection Hprev as <-.
    destruct (non_finite_decay_later beta decay (S j) Hd) as (t & ->).
    eexists. split; [reflexivity|].
    rewrite is_nan_spec in Hnan |- *. apply add_nan_l, Hnan.
Qed.

End Binary64More.

(** ** Degenerate and non-finite series *)

Section Degenerate.
Local Open Scope R_scope.

(** X12.  A single observation is fitted by the horizontal line through
    it: the design is singular, and the fit of least norm has slope 0. *)
Theorem get_lr_params_single (y : R) : get_lr_params [y] = Ok (y, 0).
Proof.
  unfold get_lr_params, OLS_fit_params. simpl.
  destruct (Req_dec_T _ 0) as [_|Hne]; [|exfalso; apply Hne; ring].
  do 2 f_equal; field.
Qed.

Lemma xsum_finite (rs : list R) :
  fsum (F := option R) (map Some rs) = Some (fsum rs).
Proof.
  unfold fsum. induction rs as [|r rs IH]; simpl in *.
  - reflexivity.
  - rewrite IH. reflexivity.
Qed.

Lemma xsum_non_finite (xs : list (option R)) :
  None ∈ xs -> fsum xs = None.
Proof.
  unfold fsum. induction xs as [|x xs IH]; intros Hin.
  - apply elem_of_nil in Hin. contradiction.
  - apply elem_of_cons in Hin. cbn [foldr]. destruct Hin as [<- | Hin].
    + reflexivity.
    + rewrite (IH Hin). destruct x; reflexivity.
Qed.

Lemma xdesign_sum (f : R * R -> R) (g : option R * option R -> option R) (l : list nat) :
  (forall t, g (Some (INR 1), Some (INR t)) = Some (f (INR 1, INR t))) ->
  fsum (map g (add_constant l)) = Some (fsum (map f (add_constant l))).
Proof.
  intros Hfg. rewrite <- xsum_finite. f_equal.
  unfold add_constant. rewrite !map_map. apply map_ext. intros t. apply Hfg.
Qed.

Lemma xproduct_non_finite (g : option R * option R -> option R) (l : list nat) :
  forall ts : list (option R),
  length ts = length l -> None ∈ ts ->
  None ∈ zip_with (fun r y => (g r * y)%fl) (add_constant l) ts.
Proof.
  unfold add_constant.
  induction l as [|t l IH]; intros [|y ts] Hlen Hin; try discriminate Hlen.
  - apply elem_of_nil in Hin. contradiction.
  - apply elem_of_cons in Hin. simpl. apply elem_of_cons.
    destruct Hin as [<- | Hin].
    + left. destruct (g _); reflexivity.
    + right. apply IH; [simpl in Hlen; lia | exact Hin].
Qed.

(** X13.  A non-finite observation is not rejected and spoils the whole
    fit: in the arithmetic with a non-finite value, a series of at least
    two observations one of which is not finite gives two non-finite
    parameters. *)
Theorem get_lr_params_non_finite (ts : list (option R)) :
  (2 <= length ts)%nat -> None ∈ ts -> get_lr_params ts = Ok (None, None).
Proof.
  intros Hn Hin. unfold get_lr_params, OLS_fit_params, arange.
  destruct (add_constant (seq 0 (length ts))) as [|r rows] eqn:Hx.
  { apply (f_equal length) in Hx.
    rewrite add_constant_length, length_seq in Hx. simpl in Hx. lia. }
  rewrite <- Hx, add_constant_length, length_seq, Nat.eqb_refl.
  simpl negb. cbv iota.
  rewrite (xdesign_sum (fun r => fst r * fst r) (fun r => (fst r * fst r)%fl))
    by reflexivity.
  rewrite (xdesign_sum (fun r => fst r * snd r) (fun r => (fst r * snd r)%fl))
    by reflexivity.
  rewrite (xdesign_sum (fun r => snd r * snd r) (fun r => (snd r * snd r)%fl))
    by reflexivity.
  rewrite line_Scc, line_Scx, line_Sxx, length_seq.
  rewrite (xsum_non_finite (zip_with (fun r y => (fst r * y)%fl) _ ts))
    by (apply (xproduct_non_finite fst); [rewrite length_seq; reflexivity | exact Hin]).
  rewrite (xsum_non_finite (zip_with (fun r y => (snd r * y)%fl) _ ts))
    by (apply (xproduct_non_finite snd); [rewrite length_seq; reflexivity | exact Hin]).
  pose proof (normal_det_pos (length ts) Hn) as Hdet.
  cbn [fadd fsub fmul fdiv feqb of_int xreal_arith xlift2].
  destruct (Req_dec_T _ (INR 0)) as [Hz|_].
  { simpl in Hz. lra. }
  reflexivity.
Qed.

End Degenerate.

(** ** The further statements at sample inputs *)

Section MoreSamples.
Local Open Scope R_scope.

Lemma sample_years_NoDup : NoDup (years sample_years).
Proof. apply (bool_decide_unpack _). vm_compute. exact I. Qed.

Lemma get_decayed_drift_preds_spec_witness :
  exists pred_da h',
    get_decayed_drift_preds sample_da sample_years (Some (ln 2)) sample_store
    = (Ok pred_da, h') /\
    year_id pred_da = years sample_years.
Proof.
  destruct (get_decayed_drift_preds_spec sample_da sample_years (Some (ln 2))
              sample_store)
    as (pred_da & h' & b0 & B & Hok & _ & _ & Hy & _).
  - exact sample_wf.
  - discriminate.
  - simpl. lia.
  - exact sample_years_NoDup.
  - exists pred_da, h'. split; [exact Hok | exact Hy].
Defined.

Lemma get_decayed_drift_preds_no_past_witness :
  exists h',
    get_decayed_drift_preds sample_da forecast_only (Some (ln 2)) sample_store
    = (Raise IndexError, h').
Proof.
  refine (proj1 (get_decayed_drift_preds_no_past sample_da forecast_only
                   (Some (ln 2)) sample_store _ _ _) _).
  - exact sample_wf.
  - discriminate.
  - reflexivity.
  - discriminate.
Defined.

Lemma get_all_lr_params_needs_year_witness :
  get_all_lr_params no_year_da empty_store = (Raise ValueError, empty_store).
Proof.
  refine (proj1 (proj1 (get_all_lr_params_needs_year no_year_da sample_years
                          (Some (ln 2)) empty_store) _)).
  reflexivity.
Defined.

Lemma get_all_lr_params_again_witness :
  exists ds h1 ds' h2,
    get_all_lr_params sample_da sample_store = (Ok ds, h1) /\
    get_all_lr_params sample_da h1 = (Ok ds', h2).
Proof.
  pose proof (get_all_lr_params_run sample_da sample_store) as Hrun.
  destruct (get_all_lr_params sample_da sample_store) as [[ds|e] h1] eqn:E.
  - destruct (get_all_lr_params_again sample_da sample_store ds h1 E)
      as (ds' & h2 & _ & _ & Hok & _).
    exists ds, h1, ds', h2. split; [reflexivity | exact Hok].
  - exfalso. apply Hrun. split; [exact sample_wf | discriminate].
Defined.

Lemma predictions_horizon_witness :
  exists preds',
    make_single_predictions 1 1 longer_years (ln 2) = Ok preds' /\
    preds' !! 4%nat = Some 4.5.
Proof.
  destruct (predictions_horizon 1 1 (ln 2) sample_years longer_years
              [1; 2; 3; 4; 4.5])
    as (preds' & Hok & Hpre).
  - reflexivity.
  - simpl. lia.
  - exact sample_predictions.
  - exists preds'. split; [exact Hok|]. rewrite Hpre by (simpl; lia). reflexivity.
Defined.

Lemma predictions_monotone_witness :
  exists preds x y,
    @make_single_predictions R (rounded_arith round_down exp) 1 1 sample_years 1
    = Ok preds /\
    preds !! 0%nat = Some x /\ preds !! 1%nat = Some y /\ x <= y.
Proof.
  destruct (@predictions_shape R (rounded_arith round_down exp) 1 1 sample_years 1)
    as (preds & Hok & Hlin & _); [simpl; lia|].
  assert (H0 : (0 < length (past_years sample_years))%nat) by (simpl; lia).
  assert (H1 : (1 < length (past_years sample_years))%nat) by (simpl; lia).
  exists preds. do 2 eexists. split; [exact Hok|].
  split; [exact (Hlin 0%nat H0)|]. split; [exact (Hlin 1%nat H1)|].
  refine (proj1 (predictions_monotone round_down exp round_down_monotone
                   (round_down_IZR 0) round_down_idempotent exp_nonneg
                   1 1 1 sample_years preds _ Hok 0%nat _ _
                   (Hlin 0%nat H0) (Hlin 1%nat H1)) _).
  - lra.
  - lra.
Defined.

Lemma increments_by_decay_sign_witness :
  exists preds,
    @make_single_predictions R (rounded_arith round_down exp) 1 (-1) sample_years (-1)
    = Ok preds /\
    Rabs (attenuated_slope (A := rounded_arith round_down exp) (-1) (-1) 0)
    <= Rabs (attenuated_slope (A := rounded_arith round_down exp) (-1) (-1) 1).
Proof.
  destruct (increments_by_decay_sign round_down exp round_down_monotone
              (round_down_IZR 0) exp_monotone exp_nonneg 1 (-1) (-1) sample_years)
    as (preds & Hok & _ & Hord).
  - lra.
  - simpl. lia.
  - exists preds. split; [exact Hok|].
    apply (Hord 0%nat 1%nat); [lia | lra].
Defined.

Lemma non_finite_decay_gives_nan_witness :
  exists preds v,
    make_single_predictions (Some PrimFloat.one) (Some PrimFloat.one)
      sample_years (Some PrimFloat.infinity) = Ok preds /\
    preds !! 4%nat = Some (Some v) /\ PrimFloat.is_nan v = true.
Proof.
  destruct (non_finite_decay_gives_nan PrimFloat.one PrimFloat.one
              PrimFloat.infinity sample_years)
    as (preds & Hok & _ & Hnan).
  - reflexivity.
  - simpl. lia.
  - destruct (Hnan 1%nat) as (v & Hv & Hn); [simpl; lia|].
    exists preds, v. split; [exact Hok|]. split; [exact Hv | exact Hn].
Defined.

Lemma get_lr_params_non_finite_witness :
  get_lr_params [None; Some 1] = Ok (None, None).
Proof.
  apply get_lr_params_non_finite.
  - simpl. lia.
  - apply elem_of_cons. left. reflexivity.
Defined.

End MoreSamples.
